(** * svg-unjunk: the page-side minimiser ([src/page/unjunk.ts])

    A shallow embedding of the candidate generator, the validation
    policy, the minimisation driver and the attribute-order restorer,
    with the properties the specification states about them.

    Conventions of the embedding.
    - A JavaScript string is the list of its UTF-16 code units
      ([jsstring], code units as [Z]).
    - Numbers that are scores or scales are IEEE binary64 ([float]);
      counters are [nat]; a backtrack distance is a [nat] or [Infinity].
    - The browser is outside the repository: [DOMParser],
      [XMLSerializer], the CSS style-declaration parser and the
      rasteriser are variables of the sections that need them. *)

From Stdlib Require Import ZArith Lia Floats String Ascii.
From stdpp Require Import base tactics option list gmap sorting.

Set Warnings "-register-all".

Open Scope Z_scope.
Open Scope list_scope.

(** ** Strings *)

Abbreviation jsstring := (list Z).

(** A string literal: one code unit per character. *)
Definition js (s : string) : jsstring :=
  List.map (fun a => Z.of_N (N_of_ascii a)) (list_ascii_of_string s).

Definition str_eqb (a b : jsstring) : bool := bool_decide (a = b).

(** [s.startsWith(p)] *)
Fixpoint startsWith (s p : jsstring) : bool :=
  match p, s with
  | [], _ => true
  | c :: p', d :: s' => (c =? d) && startsWith s' p'
  | _ :: _, [] => false
  end.

(** [s.indexOf(p)]; [None] stands for -1. *)
Fixpoint indexOf (s p : jsstring) : option nat :=
  if startsWith s p then Some 0%nat
  else match s with
       | [] => None
       | _ :: s' => S <$> indexOf s' p
       end.

(** The longest prefix whose code units satisfy [p], and the rest. *)
Fixpoint span (p : Z -> bool) (s : jsstring) : jsstring * jsstring :=
  match s with
  | c :: s' => if p c then let '(a, b) := span p s' in (c :: a, b) else ([], s)
  | [] => ([], [])
  end.

(** ** Character classes of the regular expressions *)

(** [\s]: WhiteSpace and LineTerminator of ECMAScript. *)
Definition isSpace (c : Z) : bool :=
  (c =? 9) || (c =? 10) || (c =? 11) || (c =? 12) || (c =? 13) || (c =? 32)
  || (c =? 160) || (c =? 5760) || ((8192 <=? c) && (c <=? 8202))
  || (c =? 8232) || (c =? 8233) || (c =? 8239) || (c =? 8287)
  || (c =? 12288) || (c =? 65279).

(** LineTerminator, what [.] does not match. *)
Definition isLineTerminator (c : Z) : bool :=
  (c =? 10) || (c =? 13) || (c =? 8232) || (c =? 8233).

Definition ch_lt : Z := 60.      (* < *)
Definition ch_gt : Z := 62.      (* > *)
Definition ch_amp : Z := 38.     (* & *)
Definition ch_apos : Z := 39.    (* ' *)
Definition ch_quot : Z := 34.    (* double quote *)
Definition ch_eq : Z := 61.      (* = *)
Definition ch_colon : Z := 58.   (* : *)
Definition ch_hash : Z := 35.    (* # *)
Definition ch_rpar : Z := 41.    (* ) *)

(** The class of an attribute name in [getAttrs]: any code unit but white
    space, [<], [>], [&], the apostrophe and the double quote. *)
Definition isAttrNameChar (c : Z) : bool :=
  negb (isSpace c || (c =? ch_lt) || (c =? ch_gt) || (c =? ch_amp)
        || (c =? ch_apos) || (c =? ch_quot)).

(** ** The attribute-order restorer *)

Record PhysAttr := mkPhysAttr {
  pa_name : jsstring;
  pa_raw : jsstring;
  pa_start : nat;
  pa_end : nat;
}.

(** The tail of the pattern of [getAttrs] at the head of [s]: white space,
    an opening quote (double or single), lazily anything, the same quote
    again (the back reference).  The result is the number of code units
    matched; the lazy part stops at the first repetition of the quote. *)
Definition matchQuoted (s : jsstring) : option nat :=
  let '(sp, s1) := span isSpace s in
  match s1 with
  | q :: s2 =>
      if (q =? ch_quot) || (q =? ch_apos) then
        let '(body, s3) := span (fun c => negb (c =? q)) s2 in
        match s3 with
        | _ :: _ => Some (length sp + 1 + length body + 1)%nat
        | [] => None
        end
      else None
  | [] => None
  end.

(** White space, [=], then [matchQuoted], at the head of [s]. *)
Definition matchEqQuoted (s : jsstring) : option nat :=
  let '(sp, s1) := span isSpace s in
  match s1 with
  | c :: s2 =>
      if c =? ch_eq then (fun n => (length sp + 1 + n)%nat) <$> matchQuoted s2
      else None
  | [] => None
  end.

(** One sticky match of [reAttr] at the head of [s]: white space (at least
    one), the name (group 1, at least one name character), white space,
    [=], white space, a quoted value.  The result is the name and the
    length of the whole match.

    Both [\s+] and the name are greedy.  [=] belongs to the name class, so
    the matcher first tries the whole run of name characters; the only
    shorter name that can still be followed by [=] and a quote is the run
    without its final [=].  The flag [i] changes nothing: no character of
    the pattern has a case variant. *)
Definition matchAttr (s : jsstring) : option (jsstring * nat) :=
  let '(ws, s1) := span isSpace s in
  let '(run, s2) := span isAttrNameChar s1 in
  match ws, run with
  | [], _ | _, [] => None
  | _ :: _, _ :: _ =>
      match matchEqQuoted s2 with
      | Some n => Some (run, (length ws + length run + n)%nat)
      | None =>
          match last run, removelast run with
          | Some c, (_ :: _) as name =>
              if c =? ch_eq then
                (fun n => (name, (length ws + length run + n)%nat))
                  <$> matchQuoted s2
              else None
          | _, _ => None
          end
      end
  end.

(** The loop of [getAttrs]: [reAttr.exec] from [lastIndex = pos] until it
    returns [null]; [s] is [svgCode.slice(pos)].  Every match is at least
    one code unit long, so [length s] steps are enough. *)
Fixpoint scanAttrs (fuel : nat) (pos : nat) (s : jsstring) : list PhysAttr :=
  match fuel with
  | O => []
  | S fuel' =>
      match matchAttr s with
      | Some (name, n) =>
          mkPhysAttr name (take n s) pos (pos + n)
            :: scanAttrs fuel' (pos + n)%nat (drop n s)
      | None => []
      end
  end.

Definition getAttrs (svgCode : jsstring) : list PhysAttr :=
  match indexOf svgCode (js "<svg") with
  | None => []
  | Some start =>
      let from := (start + 4)%nat in
      scanAttrs (length svgCode) from (drop from svgCode)
  end.

(** [Array.prototype.sort] with the comparator [key a - key b]: a stable
    sort by ascending key. *)
Section StableSort.
Context {A : Type} (key : A -> nat).

Fixpoint insertSorted (x : A) (l : list A) : list A :=
  match l with
  | [] => [x]
  | y :: l' =>
      if (key x <=? key y)%nat then x :: y :: l' else y :: insertSorted x l'
  end.

Fixpoint stableSort (l : list A) : list A :=
  match l with
  | [] => []
  | x :: l' => insertSorted x (stableSort l')
  end.
End StableSort.

(** The [attrOrder] map: [set(name, base + i)] for the attributes in order,
    a later [set] overwriting an earlier one. *)
Fixpoint setOrder (base : nat) (attrs : list PhysAttr) (i : nat)
    (m : gmap jsstring nat) : gmap jsstring nat :=
  match attrs with
  | [] => m
  | a :: rest => setOrder base rest (S i) (<[pa_name a := (base + i)%nat]> m)
  end.

Definition attrOrder (newAttrs originalAttrs : list PhysAttr) : gmap jsstring nat :=
  setOrder (length newAttrs) originalAttrs 0 (setOrder 0 newAttrs 0 ∅).

(** [attrOrder.get(a.name) as number]; every name of [newAttrs] is in the
    map, the default is never used for them. *)
Definition orderOf (m : gmap jsstring nat) (a : PhysAttr) : nat :=
  default 0%nat (m !! pa_name a).

Definition reorderAttrs (newAttrs originalAttrs : list PhysAttr) : list PhysAttr :=
  stableSort (orderOf (attrOrder newAttrs originalAttrs)) newAttrs.

Definition fixAttrOrder (svgCode : jsstring) (originalAttrs : list PhysAttr) : jsstring :=
  let newAttrs := getAttrs svgCode in
  match newAttrs, last newAttrs with
  | first :: _, Some final =>
      take (pa_start first) svgCode
        ++ concat (pa_raw <$> reorderAttrs newAttrs originalAttrs)
        ++ drop (pa_end final) svgCode
  | _, _ => svgCode
  end.

(** ** The document model *)

Record Attr := mkAttr {
  attr_name : jsstring;                  (* qualified name *)
  attr_namespaceURI : option jsstring;
  attr_localName : jsstring;
  attr_value : jsstring;
}.

(** The identity of a node object: its child-index path in the document
    as the parser built it.  It stays with the node when the tree around
    it changes, as the object reference held by an op closure does. *)
Abbreviation NodeId := (list nat).

(** An [Element], or any other node ([Text] 3, [CDATASection] 4,
    [ProcessingInstruction] 7, [Comment] 8, [DocumentType] 10); the code
    only asks whether [nodeType] is [ELEMENT_NODE]. *)
Inductive Node :=
| Element (id : NodeId) (nodeName : jsstring) (namespaceURI : option jsstring)
          (attributes : list Attr) (childNodes : list Node)
| CharData (id : NodeId) (nodeType : Z) (data : jsstring).

(** A [Document] is the list of its child nodes. *)
Abbreviation XMLDocument := (list Node).

Definition node_id (n : Node) : NodeId :=
  match n with Element id _ _ _ _ => id | CharData id _ _ => id end.

Definition isElement (n : Node) : bool :=
  match n with Element _ _ _ _ _ => true | CharData _ _ _ => false end.

(** [doc.documentElement]: the first child that is an element. *)
Definition documentElement (doc : XMLDocument) : option Node :=
  List.find isElement doc.

Fixpoint stampNode (p : NodeId) (n : Node) : Node :=
  match n with
  | Element _ nm ns attrs ch =>
      Element p nm ns attrs
        ((fix go (i : nat) (l : list Node) : list Node :=
            match l with
            | [] => []
            | c :: r => stampNode (p ++ [i]) c :: go (S i) r
            end) 0%nat ch)
  | CharData _ t d => CharData p t d
  end.

Fixpoint stampFrom (p : NodeId) (i : nat) (l : list Node) : list Node :=
  match l with
  | [] => []
  | c :: r => stampNode (p ++ [i]) c :: stampFrom p (S i) r
  end.

(** A document fresh from the parser: every node gets its identity. *)
Definition stampDocument (doc : XMLDocument) : XMLDocument := stampFrom [] 0 doc.

Definition SVG_NS : jsstring := js "http://www.w3.org/2000/svg".
Definition XLINK_NS : jsstring := js "http://www.w3.org/1999/xlink".
Definition HTML_NS : jsstring := js "http://www.w3.org/1999/xhtml".
Definition MATHML_NS : jsstring := js "http://www.w3.org/1998/Math/MathML".

(** *** Attribute lists *)

(** [el.getAttribute(name)]: the first attribute with this qualified name. *)
Definition getAttribute (attrs : list Attr) (name : jsstring) : option jsstring :=
  attr_value <$> List.find (fun a => str_eqb (attr_name a) name) attrs.

Definition hasAttribute (attrs : list Attr) (name : jsstring) : bool :=
  bool_decide (is_Some (getAttribute attrs name)).

Definition hasAttributeNS (attrs : list Attr) (ns local : jsstring) : bool :=
  existsb (fun a => bool_decide (attr_namespaceURI a = Some ns)
                    && str_eqb (attr_localName a) local) attrs.

(** [el.removeAttribute(name)] removes the first attribute with this
    qualified name. *)
Fixpoint removeAttribute (attrs : list Attr) (name : jsstring) : list Attr :=
  match attrs with
  | [] => []
  | a :: rest =>
      if str_eqb (attr_name a) name then rest else a :: removeAttribute rest name
  end.

(** [el.setAttribute(name, value)] in an XML document: the first attribute
    with this qualified name changes its value; without one, a new
    attribute in no namespace is appended. *)
Fixpoint setAttribute (attrs : list Attr) (name value : jsstring) : list Attr :=
  match attrs with
  | [] => [mkAttr name None name value]
  | a :: rest =>
      if str_eqb (attr_name a) name
      then mkAttr (attr_name a) (attr_namespaceURI a) (attr_localName a) value :: rest
      else a :: setAttribute rest name value
  end.

(** [a || b] on strings: the empty string is falsy, as is [null]. *)
Definition orElse (v : option jsstring) (d : jsstring) : jsstring :=
  match v with
  | Some ((_ :: _) as s) => s
  | _ => d
  end.

(** *** Class lists *)

(** ASCII white space, the separator of a token list. *)
Definition isAsciiSpace (c : Z) : bool :=
  (c =? 9) || (c =? 10) || (c =? 12) || (c =? 13) || (c =? 32).

(** Split on ASCII white space. *)
Fixpoint splitTokens (cur : jsstring) (s : jsstring) : list jsstring :=
  match s with
  | [] => match cur with [] => [] | _ => [reverse cur] end
  | c :: s' =>
      if isAsciiSpace c
      then match cur with [] => splitTokens [] s' | _ => reverse cur :: splitTokens [] s' end
      else splitTokens (c :: cur) s'
  end.

Fixpoint dedup (seen : list jsstring) (l : list jsstring) : list jsstring :=
  match l with
  | [] => []
  | x :: r => if bool_decide (x ∈ seen) then dedup seen r else x :: dedup (x :: seen) r
  end.

(** [Array.from(el.classList)]: the ordered token set of the [class]
    attribute. *)
Definition classList (attrs : list Attr) : list jsstring :=
  dedup [] (splitTokens [] (orElse (getAttribute attrs (js "class")) [])).

Fixpoint joinWith (sep : jsstring) (l : list jsstring) : jsstring :=
  match l with
  | [] => []
  | [x] => x
  | x :: r => x ++ sep ++ joinWith sep r
  end.

(** [el.classList.remove(className)]: the attribute is rewritten with the
    remaining tokens; without the attribute there is nothing to update. *)
Definition classListRemove (attrs : list Attr) (className : jsstring) : list Attr :=
  if hasAttribute attrs (js "class") then
    setAttribute attrs (js "class")
      (joinWith (js " ")
         (List.filter (fun t => negb (str_eqb t className)) (classList attrs)))
  else attrs.

(** *** Tree walks *)

(** The descendants of a node in document order. *)
Fixpoint descendants (n : Node) : list Node :=
  match n with
  | Element _ _ _ _ ch => List.flat_map (fun c => c :: descendants c) ch
  | CharData _ _ _ => []
  end.

(** Every node of the document in document order. *)
Definition allNodes (doc : XMLDocument) : list Node :=
  List.flat_map (fun c => c :: descendants c) doc.

(** [localName] of an element: its qualified name without the prefix. *)
Definition localNameOf (nodeName : jsstring) : jsstring :=
  match indexOf nodeName [ch_colon] with
  | Some i => drop (S i) nodeName
  | None => nodeName
  end.

(** A type selector: an element with this local name. *)
Definition isNamed (local : jsstring) (n : Node) : bool :=
  match n with
  | Element _ nm _ _ _ => str_eqb (localNameOf nm) local
  | CharData _ _ _ => false
  end.

Definition node_attributes (n : Node) : list Attr :=
  match n with Element _ _ _ attrs _ => attrs | CharData _ _ _ => [] end.

Definition node_children (n : Node) : list Node :=
  match n with Element _ _ _ _ ch => ch | CharData _ _ _ => [] end.

Definition node_namespaceURI (n : Node) : option jsstring :=
  match n with Element _ _ ns _ _ => ns | CharData _ _ _ => None end.

(** [n.textContent]: the data of the text and CDATA nodes below [n]. *)
Definition textContent (n : Node) : jsstring :=
  concat (List.map (fun d => match d with
                             | CharData _ t s => if (t =? 3) || (t =? 4) then s else []
                             | Element _ _ _ _ _ => []
                             end) (n :: descendants n)).

(** The elements below [n] that match
    [parsererror > h3:first-child + div], in document order: a [div] that
    is the second element child of a [parsererror] element whose first
    element child is an [h3]. *)
Fixpoint selectParserErrorDiv (n : Node) : list Node :=
  match n with
  | CharData _ _ _ => []
  | Element _ _ _ _ ch =>
      let hit :=
        isNamed (js "parsererror") n
        && match List.filter isElement ch with
           | h :: d :: _ => isNamed (js "h3") h && isNamed (js "div") d
           | _ => false
           end in
      (fix go (seen : nat) (l : list Node) : list Node :=
         match l with
         | [] => []
         | c :: r =>
             if isElement c then
               (if hit && (seen =? 1)%nat then [c] else [])
               ++ selectParserErrorDiv c ++ go (S seen) r
             else go seen r
         end) 0%nat ch
  end.

(** [doc.querySelector('parsererror > h3:first-child + div')] *)
Definition parserErrorDiv (doc : XMLDocument) : option Node :=
  head (List.flat_map selectParserErrorDiv doc).

(** Apply [f] to the node whose identity is [target]; [f] gives what takes
    its place in the child list of its parent.  A node that is no longer in
    the document is not found, and the document is left as it is. *)
Fixpoint updateNode (target : NodeId) (f : Node -> list Node) (n : Node) : list Node :=
  if bool_decide (node_id n = target) then f n
  else match n with
       | Element id nm ns attrs ch =>
           [Element id nm ns attrs (List.flat_map (updateNode target f) ch)]
       | CharData _ _ _ => [n]
       end.

Definition updateDocument (target : NodeId) (f : Node -> list Node)
    (doc : XMLDocument) : XMLDocument :=
  List.flat_map (updateNode target f) doc.

(** Change the attributes of an element, keep the rest. *)
Definition withAttributes (g : list Attr -> list Attr) (n : Node) : Node :=
  match n with
  | Element id nm ns attrs ch => Element id nm ns (g attrs) ch
  | CharData _ _ _ => n
  end.

(** Apply [g] to the attributes of every element of the tree. *)
Fixpoint mapElements (g : list Attr -> list Attr) (n : Node) : Node :=
  match n with
  | Element id nm ns attrs ch => Element id nm ns (g attrs) (List.map (mapElements g) ch)
  | CharData _ _ _ => n
  end.

(** ** The browser *)

(** What the page takes from the browser and the repository does not
    define.  The style functions work on the text of a [style] attribute:
    the names [Array.from(el.style)] lists, the text after
    [removeProperty], the value of [el.style[prop]] (empty when unset) and
    the text after an assignment.  [rasterDifference a b scale] rasterises
    both markups at [scale] and sums the pixel distances
    ([_compareImageData]); it is [None] when an image does not load or the
    sizes differ. *)
Class Browser := {
  parseFromString : jsstring -> XMLDocument;
  serializeToString : XMLDocument -> jsstring;
  styleProperties : jsstring -> list jsstring;
  styleRemoveProperty : jsstring -> jsstring -> jsstring;
  styleGetProperty : jsstring -> jsstring -> jsstring;
  styleSetProperty : jsstring -> jsstring -> jsstring -> jsstring;
  rasterDifference : jsstring -> jsstring -> float -> option float;
}.

(** ** Outcomes *)

Inductive Exn :=
| SyntaxError (message : jsstring)
| TypeError
| RenderError
| NotLossless (defectScore1x : float)
| AreaDefect (defectScale : float).

(** What a call comes to: a value, an exception, or no answer within the
    recursion allowance given to [parse]. *)
Inductive Outcome (A : Type) :=
| Ok (a : A)
| Throw (e : Exn)
| Diverge.
Arguments Ok {A} a.
Arguments Throw {A} e.
Arguments Diverge {A}.

#[global] Instance outcome_bind : MBind Outcome := fun A B k m =>
  match m with
  | Ok a => k a
  | Throw e => Throw e
  | Diverge => Diverge
  end.

(** ** Candidate operations *)

Inductive Backtrack := Steps (n : nat) | Infinity.

Record OpResult := mkOpResult {
  backtrack : Backtrack;
  forceLossless : bool;
}.

(** The closures the generator yields, by what they capture. *)
Inductive CleaningOp :=
| OpRemoveChild (child : NodeId)
| OpReplaceXlinkHref (el : NodeId)
| OpRemoveAttribute (el : NodeId) (attrName : jsstring)
| OpRemoveClass (el : NodeId) (className : jsstring)
| OpRemoveStyle (el : NodeId) (styleProp : jsstring)
| OpInlineGradient (grad : NodeId) (gradRef refColor refOpacity : jsstring)
| OpUnwrap (el : NodeId).

Definition doNotRemoveAttrs : list jsstring :=
  js <$> ["xmlns"; "viewBox"; "width"; "height"; "r"; "rx"; "ry"; "cx"; "cy";
          "x"; "y"; "x1"; "x2"; "y1"; "y2"; "d"; "offset"; "stop-color";
          "filterUnits"]%string.

Definition unwrapElements : list jsstring := js <$> ["g"; "svg"]%string.

(** [RE_XMLNS_ATTR.test(name)]: the pattern is [xmlns] at the start,
    followed by the empty alternative. *)
Definition RE_XMLNS_ATTR (name : jsstring) : bool := startsWith name (js "xmlns").

(** The loop of [sortAttrs], [i] counting down from the length:
    a matching name is pushed at the end and spliced out of index [i]. *)
Fixpoint sortAttrsLoop (i : nat) (attrNames : list jsstring) : list jsstring :=
  match i with
  | O => attrNames
  | S i' =>
      match attrNames !! i' with
      | Some name =>
          if RE_XMLNS_ATTR name
          then sortAttrsLoop i' (delete i' (attrNames ++ [name]))
          else sortAttrsLoop i' attrNames
      | None => sortAttrsLoop i' attrNames
      end
  end.

Definition sortAttrs (attrNames : list jsstring) : list jsstring :=
  sortAttrsLoop (length attrNames) attrNames.

(** [s.trim()] and its halves. *)
Definition trimStart (s : jsstring) : jsstring := snd (span isSpace s).
Definition trimEnd (s : jsstring) : jsstring := reverse (trimStart (reverse s)).
Definition trim (s : jsstring) : jsstring := trimEnd (trimStart s).

Definition toLowerAscii (c : Z) : Z :=
  if (65 <=? c) && (c <=? 90) then c + 32 else c.

(** [RE_URL_FUNCTION.exec(s)], group 1: optional white space, [url(] in any
    case, white space, the lazy group of characters that are not line
    terminators, white space, [)] and the end of the string.  The group is
    what lies between [url(] and the final [)] without the white space
    around it. *)
Definition RE_URL_FUNCTION (s : jsstring) : option jsstring :=
  let s1 := trimStart s in
  if str_eqb (toLowerAscii <$> take 4 s1) (js "url(") then
    let t := drop 4 s1 in
    match last t with
    | Some c =>
        if c =? ch_rpar then
          let g := trim (removelast t) in
          if existsb isLineTerminator g then None else Some g
        else None
    | None => None
    end
  else None.

(** The [[attrName]] selector: an attribute in no namespace with this
    local name. *)
Definition hasAttrSelector (attrs : list Attr) (attrName : jsstring) : bool :=
  existsb (fun a => bool_decide (attr_namespaceURI a = None)
                    && str_eqb (attr_localName a) attrName) attrs.

(** What the op of [inlineGradient] does to one element for one of [fill]
    and [stroke]. *)
Definition inlineAttr (attrName gradRef refColor refOpacity : jsstring)
    (attrs : list Attr) : list Attr :=
  if hasAttrSelector attrs attrName then
    match RE_URL_FUNCTION (orElse (getAttribute attrs attrName) []) with
    | Some m1 =>
        if str_eqb m1 gradRef then
          setAttribute (setAttribute attrs attrName refColor)
                       (attrName ++ js "-opacity") refOpacity
        else attrs
    | None => attrs
    end
  else attrs.

(** [grad.querySelector('stop')] *)
Definition querySelectorStop (grad : Node) : option Node :=
  List.find (isNamed (js "stop")) (descendants grad).

(** The generator [inlineGradient]: the ops it yields for [grad]. *)
Definition inlineGradient (grad : Node) : list CleaningOp :=
  let attrs := node_attributes grad in
  if negb (hasAttribute attrs (js "id")) then []
  else
    let gradRef := ch_hash :: orElse (getAttribute attrs (js "id")) [] in
    match querySelectorStop grad with
    | None => []
    | Some refStop =>
        let refColor :=
          orElse (getAttribute (node_attributes refStop) (js "stop-color")) (js "black") in
        let refOpacity :=
          orElse (getAttribute (node_attributes refStop) (js "stop-opacity")) (js "1") in
        [OpInlineGradient (node_id grad) gradRef refColor refOpacity]
    end.

(** [el.style] is a property of the elements that implement
    [ElementCSSInlineStyle]: those of the HTML, SVG and MathML namespaces.
    On any other element, one in no namespace included, it is
    [undefined]. *)
Definition hasStyle (namespaceURI : option jsstring) : bool :=
  bool_decide (namespaceURI ∈ [Some SVG_NS; Some HTML_NS; Some MATHML_NS]).

(** [Array.from(el.style)]: the names of the declarations of the style
    attribute; a [TypeError] when [el.style] is [undefined]. *)
Definition styleList `{Browser} (namespaceURI : option jsstring) (attrs : list Attr)
    : Outcome (list jsstring) :=
  if hasStyle namespaceURI then
    Ok (match getAttribute attrs (js "style") with
        | Some text => styleProperties text
        | None => []
        end)
  else Throw TypeError.

(** What a generator does when it is run to its end: the ops it yields,
    and then it returns ([Ok]) or throws.  A generator that throws yields
    nothing after that. *)
Record Generated := mkGenerated {
  yielded : list CleaningOp;
  finished : Outcome unit;
}.

(** An op is among those the generator yields. *)
#[global] Instance generated_elem_of : ElemOf CleaningOp Generated :=
  fun op g => op ∈ yielded g.

(** A stretch of generator code that yields [ops] and goes on. *)
Definition yieldAll (ops : list CleaningOp) : Generated := mkGenerated ops (Ok tt).

(** One stretch of generator code after another: the second runs when
    the first has not thrown. *)
Definition andThen (g k : Generated) : Generated :=
  match finished g with
  | Ok _ => mkGenerated (yielded g ++ yielded k) (finished k)
  | _ => g
  end.

(** A [for ... of] loop over [l] whose body is generator code. *)
Definition forEach {A} (body : A -> Generated) (l : list A) : Generated :=
  fold_right (fun x rest => andThen (body x) rest) (yieldAll []) l.

(** The first [yield] of the loop body of [cleaningOps]: the removal of
    [child], unless it is an element directly below the document.
    [parentIsElement] is [parentNode.nodeType === Node.ELEMENT_NODE]. *)
Definition removeChildOps (parentIsElement : bool) (child : Node) : list CleaningOp :=
  if parentIsElement || negb (isElement child) then [OpRemoveChild (node_id child)] else [].

(** The loop over [sortAttrs(Array.from(el.attributes, attr => attr.name))]. *)
Definition removeAttrOps (id : NodeId) (attrs : list Attr) : list CleaningOp :=
  OpRemoveAttribute id
    <$> List.filter (fun attrName => negb (bool_decide (attrName ∈ doNotRemoveAttrs)))
                    (sortAttrs (attr_name <$> attrs)).

(** The part of the loop body after the recursive [yield *]: the ops on
    the element [el] itself.  The loop over [Array.from(el.style)] is where
    the generator throws for an element without [style]: the ops on the
    attributes and the classes have been yielded by then, those of the
    gradient and the unwrapping are not reached. *)
Definition elementOps `{Browser} (parentIsElement : bool) (el : Node) : Generated :=
  match el with
  | CharData _ _ _ => yieldAll []
  | Element id nodeName namespaceURI attrs _ =>
      let first :=
        (if hasAttributeNS attrs XLINK_NS (js "href") then [OpReplaceXlinkHref id] else [])
        ++ removeAttrOps id attrs
        ++ (OpRemoveClass id <$> classList attrs) in
      match styleList namespaceURI attrs with
      | Ok styleProps =>
          yieldAll
            (first
             ++ (OpRemoveStyle id <$> styleProps)
             ++ (if str_eqb nodeName (js "linearGradient")
                    || str_eqb nodeName (js "radialGradient")
                 then inlineGradient el else [])
             ++ (if bool_decide (nodeName ∈ unwrapElements) && parentIsElement
                 then [OpUnwrap id] else []))
      | Throw e => mkGenerated first (Throw e)
      | Diverge => mkGenerated first Diverge
      end
  end.

(** The loop body of [cleaningOps(parentNode)] for one [child]: the
    removal, the generator of the child ([yield *]), the ops on the
    child. *)
Fixpoint childOps `{Browser} (parentIsElement : bool) (child : Node) : Generated :=
  andThen (yieldAll (removeChildOps parentIsElement child))
    match child with
    | CharData _ _ _ => yieldAll []
    | Element _ _ _ _ ch =>
        andThen (forEach (childOps true) ch) (elementOps parentIsElement child)
    end.

(** The generator [cleaningOps(doc)] run to its end.  The generator is
    lazy: it reads the children and the attributes of a node when the walk
    gets there.  What is given here is the run of a walk during which the
    tree does not change; in [unjunk] the only calls made between two
    reads are those that left the markup as it was. *)
Definition cleaningOps `{Browser} (doc : XMLDocument) : Generated :=
  forEach (childOps false) doc.

(** One turn of the loop of the [xlink:href] op.  [attrNode] is an
    [Attr] object of the element, not a copy: its [nodeValue] is the value
    the attribute has when the turn begins, which an earlier turn may have
    set (the turn of the [xlink:href] sets the value of an [href] that is
    already there).  Once removed, the object keeps its value. *)
Definition replaceXlinkStep (attrs : list Attr) (attrNode : Attr) : list Attr :=
  let nodeValue :=
    default (attr_value attrNode) (getAttribute attrs (attr_name attrNode)) in
  let attrs' := removeAttribute attrs (attr_name attrNode) in
  if bool_decide (attr_namespaceURI attrNode = Some XLINK_NS)
     && str_eqb (attr_localName attrNode) (js "href")
  then setAttribute attrs' (js "href") nodeValue
  else setAttribute attrs' (attr_name attrNode) nodeValue.

Definition replaceXlinkHref (attrs : list Attr) : list Attr :=
  fold_left replaceXlinkStep attrs attrs.

(** [el.style.removeProperty(styleProp)] *)
Definition styleRemove `{Browser} (styleProp : jsstring) (attrs : list Attr) : list Attr :=
  match getAttribute attrs (js "style") with
  | Some text =>
      if bool_decide (styleProp ∈ styleProperties text)
      then setAttribute attrs (js "style") (styleRemoveProperty text styleProp)
      else attrs
  | None => attrs
  end.

(** Calling an op: the document after it and what it returns. *)
Definition applyOp `{Browser} (op : CleaningOp) (doc : XMLDocument)
    : XMLDocument * OpResult :=
  match op with
  | OpRemoveChild child =>
      (updateDocument child (fun _ => []) doc, mkOpResult (Steps 0) false)
  | OpReplaceXlinkHref el =>
      (updateDocument el (fun n => [withAttributes replaceXlinkHref n]) doc,
       mkOpResult (Steps 0) false)
  | OpRemoveAttribute el attrName =>
      (updateDocument el (fun n => [withAttributes (fun a => removeAttribute a attrName) n]) doc,
       mkOpResult (Steps 0) (startsWith attrName (js "stroke-")))
  | OpRemoveClass el className =>
      (updateDocument el (fun n => [withAttributes (fun a => classListRemove a className) n]) doc,
       mkOpResult (Steps 0) false)
  | OpRemoveStyle el styleProp =>
      (updateDocument el (fun n => [withAttributes (styleRemove styleProp) n]) doc,
       mkOpResult (Steps 0) (startsWith styleProp (js "stroke-")))
  | OpInlineGradient grad gradRef refColor refOpacity =>
      let doc1 := mapElements (inlineAttr (js "fill") gradRef refColor refOpacity) <$> doc in
      let doc2 := mapElements (inlineAttr (js "stroke") gradRef refColor refOpacity) <$> doc1 in
      (updateDocument grad (fun _ => []) doc2, mkOpResult Infinity false)
  | OpUnwrap el =>
      (updateDocument el node_children doc, mkOpResult (Steps 1) false)
  end.

(** ** Parsing and serialising *)

Definition serialize `{Browser} (doc : XMLDocument) : jsstring := serializeToString doc.

(** Change the attributes of [doc.documentElement]. *)
Definition withRootAttributes (g : list Attr -> list Attr) (doc : XMLDocument) : XMLDocument :=
  match documentElement doc with
  | Some root => updateDocument (node_id root) (fun n => [withAttributes g n]) doc
  | None => doc
  end.

Definition parseErrorPrefix : jsstring := js "SVG parse error: ".

(** [s] between double quotes. *)
Definition quoted (s : jsstring) : jsstring := [ch_quot] ++ s ++ [ch_quot].

(** [parse(svgCode)]; [fuel] bounds the depth of the recursion through the
    recovery branch.  A document without a document element makes the
    first property access throw. *)
Fixpoint parse `{Browser} (fuel : nat) (svgCode : jsstring) : Outcome XMLDocument :=
  match fuel with
  | O => Diverge
  | S fuel' =>
      let doc := stampDocument (parseFromString svgCode) in
      match documentElement doc with
      | Some (Element _ nodeName namespaceURI _ _) =>
          if bool_decide (namespaceURI = Some SVG_NS) then
            if str_eqb nodeName (js "svg") then Ok doc
            else Throw (SyntaxError
                   (parseErrorPrefix ++ js "The document element tag should be "
                      ++ quoted (js "svg") ++ js " in lowercase"))
          else
            match textContent <$> parserErrorDiv doc with
            | Some ((_ :: _) as text) =>
                Throw (SyntaxError (parseErrorPrefix ++ take 256 text))
            | _ =>
                match namespaceURI with
                | Some _ =>
                    Throw (SyntaxError
                      (parseErrorPrefix ++ js "The namespace should be " ++ quoted SVG_NS))
                | None =>
                    parse fuel'
                      (serialize (withRootAttributes
                                    (fun a => setAttribute a (js "xmlns") SVG_NS) doc))
                end
            end
      | _ => Throw TypeError
      end
  end.

(** ** The comparison policies *)

Inductive Comparator :=
| DefaultImageComparator (baseScale : float)
| RecoloredImageComparator (baseScale : float).

Definition baseScaleOf (c : Comparator) : float :=
  match c with
  | DefaultImageComparator b => b
  | RecoloredImageComparator b => b
  end.

(** [el.style[prop]] and [el.style[prop] = value] on an attribute list. *)
Definition styleOf `{Browser} (attrs : list Attr) (prop : jsstring) : jsstring :=
  styleGetProperty (orElse (getAttribute attrs (js "style")) []) prop.

Definition setStyle `{Browser} (prop value : jsstring) (attrs : list Attr) : list Attr :=
  setAttribute attrs (js "style")
    (styleSetProperty (orElse (getAttribute attrs (js "style")) []) prop value).

Definition isEmpty (s : jsstring) : bool := match s with [] => true | _ => false end.

(** The defaults a policy gives the root element. *)
Definition recolor `{Browser} (c : Comparator) (attrs : list Attr) : list Attr :=
  match c with
  | DefaultImageComparator _ =>
      if isEmpty (styleOf attrs (js "background"))
      then setStyle (js "background") (js "#fff") attrs else attrs
  | RecoloredImageComparator _ =>
      let a1 := if isEmpty (styleOf attrs (js "background"))
                then setStyle (js "background") (js "#000") attrs else attrs in
      let fill := match styleOf a1 (js "fill") with
                  | [] => orElse (getAttribute a1 (js "fill")) []
                  | s => s
                  end in
      let a2 := if isEmpty (trim fill) then setStyle (js "fill") (js "#f0f") a1 else a1 in
      if isEmpty (styleOf a2 (js "color"))
      then setStyle (js "color") (js "#ff0") a2 else a2
  end.

(** [_transformCode(svgCode)] *)
Definition transformCode `{Browser} (fuel : nat) (c : Comparator) (svgCode : jsstring)
    : Outcome jsstring :=
  doc ← parse fuel svgCode;
  Ok (serialize (withRootAttributes (recolor c) doc)).

(** [comparator.compare(svgCodeA, svgCodeB, scale)].  The rasteriser cache
    only saves work: a cached markup was transformed by the same
    deterministic [_transformCode] before. *)
Definition compare `{Browser} (fuel : nat) (c : Comparator) (svgCodeA svgCodeB : jsstring)
    (scale : float) : Outcome float :=
  a ← transformCode fuel c svgCodeA;
  b ← transformCode fuel c svgCodeB;
  match rasterDifference a b (scale * baseScaleOf c)%float with
  | Some score => Ok score
  | None => Throw RenderError
  end.

(** [2 ** 1.5], the binary64 number 2.8284271247461903 *)
Definition areaDefectThreshold : float := 0x1.6a09e667f3bcdp+1%float.

(** A call of [compare] made by [assertVisuallySame]. *)
Record CompareCall := mkCompareCall {
  call_comparator : Comparator;
  call_scale : float;
}.

(** The body of the loop of [assertVisuallySame] for one comparator, with
    the calls of [compare] it makes. *)
Definition checkComparator `{Browser} (fuel : nat) (svgCodeA svgCodeB : jsstring)
    (lossless : bool) (c : Comparator) : Outcome unit * list CompareCall :=
  match compare fuel c svgCodeA svgCodeB 1 with
  | Ok defectScore1x =>
      if (defectScore1x <=? 0)%float then (Ok tt, [mkCompareCall c 1])
      else if lossless then (Throw (NotLossless defectScore1x), [mkCompareCall c 1])
      else
        match compare fuel c svgCodeA svgCodeB 2 with
        | Ok defectScore2x =>
            let defectScale := (defectScore2x / defectScore1x)%float in
            (if (areaDefectThreshold <=? defectScale)%float
             then Throw (AreaDefect defectScale) else Ok tt,
             [mkCompareCall c 1; mkCompareCall c 2])
        | Throw e => (Throw e, [mkCompareCall c 1; mkCompareCall c 2])
        | Diverge => (Diverge, [mkCompareCall c 1; mkCompareCall c 2])
        end
  | Throw e => (Throw e, [mkCompareCall c 1])
  | Diverge => (Diverge, [mkCompareCall c 1])
  end.

Fixpoint assertVisuallySame `{Browser} (fuel : nat) (svgCodeA svgCodeB : jsstring)
    (comparators : list Comparator) (lossless : bool) : Outcome unit * list CompareCall :=
  match comparators with
  | [] => (Ok tt, [])
  | c :: rest =>
      match checkComparator fuel svgCodeA svgCodeB lossless c with
      | (Ok _, calls) =>
          let '(r, calls') := assertVisuallySame fuel svgCodeA svgCodeB rest lossless in
          (r, calls ++ calls')
      | (r, calls) => (r, calls)
      end
  end.

(** ** The driver *)

Record Options := mkOptions {
  opt_scale : option float;
  opt_lossless : bool;
}.

(** [Math.max(opNumber - backtrack, 0)] *)
Definition backtrackTo (opNumber : nat) (b : Backtrack) : nat :=
  match b with
  | Steps n => (opNumber - n)%nat
  | Infinity => 0%nat
  end.

(** How one pass of the outer loop of [unjunk] ends. *)
Inductive Pass :=
| Exhausted                                        (* [break outer] *)
| Restart (svgCode : jsstring) (skipOps : nat)     (* [break] *)
| Failed (e : Exn)                                 (* [opGenerator.next()] throws *)
| Stalled.                                         (* a [parse] without answer *)

(** The inner loop of [unjunk] from [opNumber] on; [ops] is what the
    generator has still to yield and [finished] how it ends after that,
    [doc] is the working document.  The call of [next()] is outside the
    [try]: what the generator throws leaves the loop. *)
Fixpoint walkOps `{Browser} (fuel : nat) (comparators : list Comparator) (lossless : bool)
    (ops : list CleaningOp) (finished : Outcome unit) (opNumber skipOps : nat)
    (doc : XMLDocument) (svgCode : jsstring) : Pass :=
  match ops with
  | [] =>
      match finished with
      | Ok _ => Exhausted
      | Throw e => Failed e
      | Diverge => Stalled
      end
  | op :: rest =>
      if (opNumber <? skipOps)%nat then
        walkOps fuel comparators lossless rest finished (S opNumber) skipOps doc svgCode
      else
        let skipOps := S opNumber in
        let '(doc', r) := applyOp op doc in
        let newSvgCode := serialize doc' in
        if str_eqb newSvgCode svgCode then
          walkOps fuel comparators lossless rest finished (S opNumber) skipOps doc' svgCode
        else
          match fst (assertVisuallySame fuel newSvgCode svgCode comparators
                       (lossless || forceLossless r)) with
          | Ok _ => Restart newSvgCode (backtrackTo opNumber (backtrack r))
          | Throw _ => Restart svgCode skipOps
          | Diverge => Stalled
          end
  end.

(** The outer loop with [bound] passes left; at [0] it bails out. *)
Fixpoint unjunkLoop `{Browser} (fuel : nat) (comparators : list Comparator) (lossless : bool)
    (bound : nat) (svgCode : jsstring) (skipOps : nat) : Outcome jsstring :=
  match bound with
  | O => Ok svgCode
  | S bound' =>
      doc ← parse fuel svgCode;
      let opGenerator := cleaningOps doc in
      match walkOps fuel comparators lossless (yielded opGenerator) (finished opGenerator)
                    0 skipOps doc svgCode with
      | Exhausted => Ok svgCode
      | Restart svgCode' skipOps' =>
          unjunkLoop fuel comparators lossless bound' svgCode' skipOps'
      | Failed e => Throw e
      | Stalled => Diverge
      end
  end.

Definition iterationBound : nat := 1000.

Definition unjunk `{Browser} (fuel : nat) (svgCode : jsstring) (options : Options)
    : Outcome jsstring :=
  let scale := default 2%float (opt_scale options) in
  let lossless := opt_lossless options in
  let comparators := [DefaultImageComparator scale; RecoloredImageComparator scale] in
  let originalAttrs := getAttrs svgCode in
  svgCode' ← unjunkLoop fuel comparators lossless iterationBound svgCode 0;
  Ok (fixAttrOrder svgCode' originalAttrs).

(** ** Vocabulary of the specification *)




Definition plainAttr (name value : string) : Attr :=
  mkAttr (js name) None (js name) (js value).

(** The element with attributes [attrs] refers to the gradient [gradRef]
    through [attrName]: the selector finds the attribute and the argument
    of its [url()] value is the reference. *)
Definition references (attrs : list Attr) (attrName gradRef : jsstring) : Prop :=
  hasAttrSelector attrs attrName = true
  /\ RE_URL_FUNCTION (orElse (getAttribute attrs attrName) []) = Some gradRef.

(** What the op of [inlineGradient] does to the attributes of one element:
    the [fill] pass, then the [stroke] pass. *)
Definition inlineBoth (gradRef refColor refOpacity : jsstring) (attrs : list Attr) : list Attr :=
  inlineAttr (js "stroke") gradRef refColor refOpacity
    (inlineAttr (js "fill") gradRef refColor refOpacity attrs).

(** A node with its descendants, in document order. *)
Definition subtree (n : Node) : list Node := n :: descendants n.

(** [el.nodeName] is one of the two gradient names. *)
Definition isGradient (n : Node) : bool :=
  match n with
  | Element _ nodeName _ _ _ =>
      str_eqb nodeName (js "linearGradient") || str_eqb nodeName (js "radialGradient")
  | CharData _ _ _ => false
  end.

(** The document after the ops of a list were called one after the other. *)
Definition applyAll `{Browser} (ops : list CleaningOp) (doc : XMLDocument) : XMLDocument :=
  fold_left (fun d op => fst (applyOp op d)) ops doc.

(** The document element is [svg] in the SVG namespace. *)
Definition rootIsSvg (doc : XMLDocument) : Prop :=
  exists id attrs ch,
    documentElement doc = Some (Element id (js "svg") (Some SVG_NS) attrs ch).

(** The parser reported an error: the query of [parse] finds the [div]
    and it has text. *)
Definition parserErrorReported (doc : XMLDocument) : Prop :=
  exists c text, textContent <$> parserErrorDiv doc = Some (c :: text).

(** The document element is in no namespace and no parser error is
    reported: the case [parse] tries to recover. *)
Definition recoverable (doc : XMLDocument) : Prop :=
  (exists id name attrs ch, documentElement doc = Some (Element id name None attrs ch))
  /\ ~ parserErrorReported doc.



(** The index of the last occurrence of [name]. *)
Fixpoint lastIndex (name : jsstring) (names : list jsstring) : option nat :=
  match names with
  | [] => None
  | n :: rest =>
      match lastIndex name rest with
      | Some j => Some (S j)
      | None => if str_eqb n name then Some 0%nat else None
      end
  end.

(** The position of an attribute in the original input: that of the last
    attribute with its name there. *)
Definition originalPosition (originalAttrs : list PhysAttr) (a : PhysAttr) : option nat :=
  lastIndex (pa_name a) (pa_name <$> originalAttrs).

(** The name of the attribute occurs in the original input. *)
Definition inOriginal (originalAttrs : list PhysAttr) (a : PhysAttr) : bool :=
  bool_decide (is_Some (originalPosition originalAttrs a)).

(** The order the specification words: in [l] every attribute of the
    original input comes before every new one. *)
Definition originalsFirst (originalAttrs l : list PhysAttr) : Prop :=
  forall i j a b, l !! i = Some a -> l !! j = Some b ->
    inOriginal originalAttrs a = true -> inOriginal originalAttrs b = false ->
    (i < j)%nat.

(** The node an op was made for. *)
Definition opTarget (op : CleaningOp) : NodeId :=
  match op with
  | OpRemoveChild t | OpReplaceXlinkHref t | OpRemoveAttribute t _ | OpRemoveClass t _
  | OpRemoveStyle t _ | OpInlineGradient t _ _ _ | OpUnwrap t => t
  end.

(** The op takes its target out of the tree. *)
Definition isDestructive (op : CleaningOp) : bool :=
  match op with
  | OpRemoveChild _ | OpInlineGradient _ _ _ _ | OpUnwrap _ => true
  | _ => false
  end.

(** The working document has its root, the [svg] element in the SVG
    namespace with the identity [[k]], as its first element child. *)
Definition RootAt (k : nat) (working : XMLDocument) : Prop :=
  exists pre attrs ch post,
    working = pre ++ Element [k] (js "svg") (Some SVG_NS) attrs ch :: post
    /\ Forall (fun n => isElement n = false) pre.


Definition isHighSurrogate (c : Z) : bool := (55296 <=? c) && (c <=? 56319).
Definition isLowSurrogate (c : Z) : bool := (56320 <=? c) && (c <=? 57343).

(** [Buffer.byteLength(s)]: the length of the UTF-8 encoding.  A surrogate
    pair is one character of four bytes, a lone surrogate is encoded as
    the replacement character. *)
Fixpoint byteLength (s : jsstring) : nat :=
  match s with
  | [] => 0%nat
  | c :: rest =>
      if c <? 128 then S (byteLength rest)
      else if c <? 2048 then (2 + byteLength rest)%nat
      else if isHighSurrogate c then
        match rest with
        | d :: rest' =>
            if isLowSurrogate d then (4 + byteLength rest')%nat
            else (3 + byteLength rest)%nat
        | [] => 3%nat
        end
      else (3 + byteLength rest)%nat
  end.

(** The candidate [op] is rejected for the markup [svgCode] of [doc]: its
    call changes the markup and the validation throws. *)
Definition rejected `{Browser} (fuel : nat) (comparators : list Comparator) (lossless : bool)
    (doc : XMLDocument) (svgCode : jsstring) (op : CleaningOp) : Prop :=
  let result := applyOp op doc in
  serialize (fst result) <> svgCode
  /\ exists e, fst (assertVisuallySame fuel (serialize (fst result)) svgCode comparators
                      (lossless || forceLossless (snd result))) = Throw e.

(** A fragment of the scan begins with white space. *)
Definition spaced (raw : jsstring) : Prop := exists c r, raw = c :: r /\ isSpace c = true.

(** A fragment of the scan ends with its closing quote, which is no high
    surrogate. *)
Definition quotedEnd (raw : jsstring) : Prop :=
  exists q, last raw = Some q /\ isHighSurrogate q = false.


(** How a pass ends at the candidate with the number [opNumber], whose
    call has changed the markup to [newSvgCode] and returned [r], by the
    verdict of the validation. *)
Definition passResult (opNumber : nat) (svgCode newSvgCode : jsstring) (r : OpResult)
    (verdict : Outcome unit) : Pass :=
  match verdict with
  | Ok _ => Restart newSvgCode (backtrackTo opNumber (backtrack r))
  | Throw _ => Restart svgCode (S opNumber)
  | Diverge => Stalled
  end.

(** Every element of the document has a [style]: it is in the SVG, the
    HTML or the MathML namespace. *)
Definition allStyled (doc : XMLDocument) : bool :=
  forallb (fun m => negb (isElement m) || hasStyle (node_namespaceURI m)) (allNodes doc).

(** ** A small browser for the examples

    An instance of [Browser] to run the embedding on concrete markup.  It
    is no part of the repository: it reads and prints the plain subset of
    XML the examples use (elements, attributes, comments, text, default and
    prefixed namespaces), keeps a style attribute as a list of
    [name:value;] declarations, and its rasteriser compares what is
    painted: attributes of a stroke that is not painted, namespace
    declarations and comments do not count, text counts inside a
    [foreignObject] only, and a [g] without painted attributes counts as
    its children. *)
Module Toy.

Inductive Token :=
| TOpen (name : jsstring) (attrs : list (jsstring * jsstring)) (selfClosing : bool)
| TClose (name : jsstring)
| TText (data : jsstring)
| TComment (data : jsstring).

(** The value inside the quotes of a raw attribute match. *)
Definition rawValue (raw : jsstring) : jsstring :=
  let notQuote c := negb ((c =? ch_quot) || (c =? ch_apos)) in
  removelast (tail (snd (span notQuote raw))).

Definition rawAttrs (s : jsstring) : list (jsstring * jsstring) :=
  (fun a => (pa_name a, rawValue (pa_raw a))) <$> scanAttrs (length s) 0 s.

Definition rawAttrsEnd (s : jsstring) : nat :=
  match last (scanAttrs (length s) 0 s) with
  | Some a => pa_end a
  | None => 0%nat
  end.

Definition isTagNameChar (c : Z) : bool :=
  isAttrNameChar c && negb (c =? 47) && negb (c =? ch_eq).

(** The text up to the first occurrence of [stop], and what follows it. *)
Fixpoint splitAt (stop : jsstring) (s : jsstring) : option (jsstring * jsstring) :=
  if startsWith s stop then Some ([], drop (length stop) s)
  else match s with
       | [] => None
       | c :: s' => (fun '(a, b) => (c :: a, b)) <$> splitAt stop s'
       end.

Fixpoint tokenize (fuel : nat) (s : jsstring) : option (list Token) :=
  match fuel with
  | O => None
  | S fuel' =>
      match s with
      | [] => Some []
      | c :: rest =>
          if c =? ch_lt then
            if startsWith rest (js "!--") then
              '(data, s') ← splitAt (js "-->") (drop 3 rest);
              (fun ts => TComment data :: ts) <$> tokenize fuel' s'
            else if startsWith rest (js "/") then
              '(name, s') ← splitAt [ch_gt] (drop 1 rest);
              (fun ts => TClose name :: ts) <$> tokenize fuel' s'
            else
              let '(name, s1) := span isTagNameChar rest in
              let s2 := trimStart (drop (rawAttrsEnd s1) s1) in
              match name with
              | [] => None
              | _ =>
                  if startsWith s2 (js "/>") then
                    (fun ts => TOpen name (rawAttrs s1) true :: ts)
                      <$> tokenize fuel' (drop 2 s2)
                  else if startsWith s2 [ch_gt] then
                    (fun ts => TOpen name (rawAttrs s1) false :: ts)
                      <$> tokenize fuel' (drop 1 s2)
                  else None
              end
          else
            let '(text, s') := span (fun d => negb (d =? ch_lt)) s in
            (fun ts => TText text :: ts) <$> tokenize fuel' s'
      end
  end.

Definition XMLNS_NS : jsstring := js "http://www.w3.org/2000/xmlns/".

(** The namespaces in scope: the default one and the prefixes. *)
Record Scope := mkScope {
  scopeDefault : option jsstring;
  scopePrefixes : list (jsstring * jsstring);
}.

Definition declare (sc : Scope) (a : jsstring * jsstring) : Scope :=
  let '(name, value) := a in
  if str_eqb name (js "xmlns") then
    mkScope (match value with [] => None | _ => Some value end) (scopePrefixes sc)
  else if startsWith name (js "xmlns:") then
    mkScope (scopeDefault sc) ((drop 6 name, value) :: scopePrefixes sc)
  else sc.

Definition lookupPrefix (sc : Scope) (p : jsstring) : option jsstring :=
  snd <$> List.find (fun e => str_eqb (fst e) p) (scopePrefixes sc).

Definition resolveAttr (sc : Scope) (a : jsstring * jsstring) : Attr :=
  let '(name, value) := a in
  if str_eqb name (js "xmlns") then mkAttr name (Some XMLNS_NS) name value
  else match indexOf name [ch_colon] with
       | Some i =>
           let p := take i name in
           mkAttr name
             (if str_eqb p (js "xmlns") then Some XMLNS_NS else lookupPrefix sc p)
             (drop (S i) name) value
       | None => mkAttr name None name value
       end.

Definition resolveName (sc : Scope) (name : jsstring) : option jsstring :=
  match indexOf name [ch_colon] with
  | Some i => lookupPrefix sc (take i name)
  | None => scopeDefault sc
  end.

(** An element under construction: its name, attributes, scope, and the
    children read so far, last first. *)
Record Frame := mkFrame {
  frameName : jsstring;
  frameAttrs : list Attr;
  frameNs : option jsstring;
  frameScope : Scope;
  frameChildren : list Node;
}.

Fixpoint build (toks : list Token) (sc : Scope) (stack : list Frame) (cur : list Node)
    : option (list Node) :=
  match toks with
  | [] => match stack with [] => Some (rev cur) | _ => None end
  | TText data :: toks' => build toks' sc stack (CharData [] 3 data :: cur)
  | TComment data :: toks' => build toks' sc stack (CharData [] 8 data :: cur)
  | TOpen name attrs selfClosing :: toks' =>
      let sc' := fold_left declare attrs sc in
      let attrs' := resolveAttr sc' <$> attrs in
      if selfClosing then
        build toks' sc stack (Element [] name (resolveName sc' name) attrs' [] :: cur)
      else
        build toks' sc' (mkFrame name attrs' (resolveName sc' name) sc cur :: stack) []
  | TClose name :: toks' =>
      match stack with
      | f :: stack' =>
          if str_eqb (frameName f) name then
            build toks' (frameScope f) stack'
              (Element [] name (frameNs f) (frameAttrs f) (rev cur) :: frameChildren f)
          else None
      | [] => None
      end
  end.

Definition XHTML_NS : jsstring := js "http://www.w3.org/1999/xhtml".

(** The document a browser builds for markup it cannot parse. *)
Definition errorDocument : XMLDocument :=
  let el name ch := Element [] name (Some XHTML_NS) [] ch in
  [el (js "html") [el (js "body") [el (js "parsererror")
     [el (js "h3") [CharData [] 3 (js "This page contains the following errors:")];
      el (js "div") [CharData [] 3 (js "error: the markup is not well-formed")]]]]].

Definition isBlank (n : Node) : bool :=
  match n with
  | CharData _ 3 data => forallb isSpace data
  | _ => false
  end.

Definition parseFromString (s : jsstring) : XMLDocument :=
  match tokenize (S (length s)) s ≫= (fun toks => build toks (mkScope None []) [] []) with
  | Some nodes =>
      let top := List.filter (fun n => negb (isBlank n)) nodes in
      match List.filter isElement top with
      | [_] =>
          if existsb (fun n => match n with CharData _ 3 _ => true | _ => false end) top
          then errorDocument else top
      | _ => errorDocument
      end
  | None => errorDocument
  end.

Definition printAttr (a : Attr) : jsstring :=
  js " " ++ attr_name a ++ [ch_eq; ch_quot] ++ attr_value a ++ [ch_quot].

Fixpoint printNode (n : Node) : jsstring :=
  match n with
  | Element _ name _ attrs ch =>
      js "<" ++ name ++ concat (printAttr <$> attrs)
      ++ match ch with
         | [] => js "/>"
         | _ => js ">" ++ concat (List.map printNode ch) ++ js "</" ++ name ++ js ">"
         end
  | CharData _ t data =>
      if t =? 8 then js "<!--" ++ data ++ js "-->" else data
  end.

Definition serializeToString (doc : XMLDocument) : jsstring :=
  concat (printNode <$> doc).

(** *** Style declarations *)

Fixpoint splitOn (sep : Z) (cur : jsstring) (s : jsstring) : list jsstring :=
  match s with
  | [] => [rev cur]
  | c :: s' => if c =? sep then rev cur :: splitOn sep [] s' else splitOn sep (c :: cur) s'
  end.

(** The declarations of a style text as name and value. *)
Definition declarations (text : jsstring) : list (jsstring * jsstring) :=
  omap (fun d => match splitAt [ch_colon] d with
                 | Some (name, value) =>
                     match trim name with
                     | [] => None
                     | n => Some (n, trim value)
                     end
                 | None => None
                 end) (splitOn 59 [] text).

Definition printDeclarations (ds : list (jsstring * jsstring)) : jsstring :=
  concat ((fun '(n, v) => n ++ [ch_colon] ++ v ++ [59]) <$> ds).

Definition styleProperties (text : jsstring) : list jsstring := fst <$> declarations text.

Definition styleRemoveProperty (text prop : jsstring) : jsstring :=
  printDeclarations (List.filter (fun d => negb (str_eqb (fst d) prop)) (declarations text)).

Definition styleGetProperty (text prop : jsstring) : jsstring :=
  default [] (snd <$> List.find (fun d => str_eqb (fst d) prop) (declarations text)).

Definition styleSetProperty (text prop value : jsstring) : jsstring :=
  printDeclarations
    (List.filter (fun d => negb (str_eqb (fst d) prop)) (declarations text) ++ [(prop, value)]).

(** *** The rasteriser *)

(** The attributes that are painted. *)
Definition painted (attrs : list Attr) : list (jsstring * jsstring) :=
  let strokePainted :=
    hasAttribute attrs (js "stroke")
    && negb (bool_decide (getAttribute attrs (js "stroke-width") = Some (js "0"))) in
  (fun a => (attr_name a, attr_value a))
    <$> List.filter (fun a =>
          negb (RE_XMLNS_ATTR (attr_name a))
          && (strokePainted || negb (startsWith (attr_name a) (js "stroke")))) attrs.

(** What is painted of a tree, in painting order. *)
Inductive Paint :=
| Shape (name : jsstring) (attrs : list (jsstring * jsstring)) (inside : list Paint).

Fixpoint paintNode (inForeignObject : bool) (n : Node) : list Paint :=
  match n with
  | CharData _ t data =>
      if inForeignObject && (t =? 3) && negb (forallb isSpace data)
      then [Shape (js "#text") [(js "data", data)] []] else []
  | Element _ name _ attrs ch =>
      let inside :=
        List.flat_map (paintNode (inForeignObject || str_eqb name (js "foreignObject"))) ch in
      match painted attrs with
      | [] => if str_eqb name (js "g") then inside else [Shape name [] inside]
      | p => [Shape name p inside]
      end
  end.

Fixpoint paint_eqb (a b : Paint) {struct a} : bool :=
  match a, b with
  | Shape n1 a1 i1, Shape n2 a2 i2 =>
      str_eqb n1 n2 && bool_decide (a1 = a2)
      && (fix all (l1 l2 : list Paint) : bool :=
            match l1, l2 with
            | [], [] => true
            | x :: l1', y :: l2' => paint_eqb x y && all l1' l2'
            | _, _ => false
            end) i1 i2
  end.

Definition samePaint (a b : list Paint) : bool :=
  bool_decide (length a = length b)
  && forallb (fun '(x, y) => paint_eqb x y) (combine a b).

(** Equal paintings differ by nothing; different ones by an area, which
    grows with the square of the scale. *)
Definition rasterDifference (a b : jsstring) (scale : float) : option float :=
  let pa := List.flat_map (paintNode false) (parseFromString a) in
  let pb := List.flat_map (paintNode false) (parseFromString b) in
  match pa, pb with
  | [], _ | _, [] => None
  | _, _ => Some (if samePaint pa pb then 0 else scale * scale)%float
  end.

Definition browser : Browser :=
  Build_Browser parseFromString serializeToString styleProperties styleRemoveProperty
    styleGetProperty styleSetProperty rasterDifference.

End Toy.

(** The document [parse] returns for [svgCode] in the small browser, with
    room for one recovery; empty when [parse] throws. *)
Definition toyDocument (svgCode : jsstring) : XMLDocument :=
  match @parse Toy.browser 3 svgCode with
  | Ok doc => doc
  | _ => []
  end.

Definition gradientExample : jsstring :=
  js "<svg xmlns='http://www.w3.org/2000/svg'><linearGradient id='a'><stop offset='0'/></linearGradient><rect fill='url(#a)' stroke=' URL( #a )' width='1' height='1'/></svg>".

Definition rectPlain : jsstring :=
  js "<svg xmlns='http://www.w3.org/2000/svg'><rect width='1' height='1'/></svg>".

Definition rectRed : jsstring :=
  js "<svg xmlns='http://www.w3.org/2000/svg'><rect width='1' height='1' fill='red'/></svg>".

Definition unboundExample : jsstring := js "<svg><g/></svg>".

Definition orderOriginal : jsstring := js "<svg id='x' width='1'>".
Definition orderOutput : jsstring := js "<svg xmlns='u' width='1' id='x'>".

Definition strokeExample : jsstring :=
  js "<svg xmlns='http://www.w3.org/2000/svg'><rect stroke-width='0' stroke='red' width='1' height='1'/></svg>".

(** [strokeExample] with a size on the root. *)
Definition strokeSized : jsstring :=
  js "<svg xmlns='http://www.w3.org/2000/svg' width='10' height='10'><rect stroke-width='0' stroke='red' width='5' height='5'/></svg>".

(** Text in an element of a namespace of its own, shown through a
    [foreignObject]. *)
Definition foreignExample : jsstring :=
  js "<svg xmlns='http://www.w3.org/2000/svg' width='20' height='20'><foreignObject width='20' height='20'><x xmlns='urn:x'>Hi</x></foreignObject></svg>".

(** The markup [<svg xmlns=...>inner</svg>] as the serialiser prints it. *)
Definition svgAround (inner : jsstring) : jsstring :=
  js "<svg xmlns=" ++ quoted SVG_NS ++ js ">" ++ inner ++ js "</svg>".



(** ** Vocabulary of the further properties *)

(** A scanned attribute is the piece of the markup [full] between its two
    offsets, and is not empty. *)
Definition isSlice (full : jsstring) (a : PhysAttr) : Prop :=
  (pa_start a < pa_end a <= length full)%nat
  /\ pa_raw a = take (pa_end a - pa_start a) (drop (pa_start a) full).

(** Nothing to trim at the head of a string. *)
Definition trimmedHead (s : jsstring) : Prop :=
  match s with
  | [] => True
  | c :: _ => isSpace c = false
  end.

(** The identities of the nodes of a list of trees, in document order. *)
Definition nodeIds (l : list Node) : list NodeId :=
  node_id <$> List.flat_map subtree l.

(** The attribute the [xlink:href] op looks for. *)
Definition isXlinkHref (a : Attr) : bool :=
  bool_decide (attr_namespaceURI a = Some XLINK_NS) && str_eqb (attr_localName a) (js "href").

(** An attribute as the [xlink:href] op puts it back: under the name
    [href] if it is the [xlink:href], under its qualified name otherwise,
    in no namespace either way. *)
Definition reinserted (a : Attr) : Attr :=
  let name := if isXlinkHref a then js "href" else attr_name a in
  mkAttr name None name (attr_value a).

(** A token of a class list: not empty, without ASCII white space. *)
Definition isClassToken (t : jsstring) : Prop :=
  t <> [] /\ forallb (fun c => negb (isAsciiSpace c)) t = true.

(** ** Comparing image data *)

(** An [ImageData]: its size and its bytes, four for each pixel. *)
Record ImageData := mkImageData {
  img_width : nat;
  img_height : nat;
  img_data : list Z;
}.

(** [a[i]] of a [Uint8ClampedArray] as the number the subtraction gets:
    out of range it is [undefined], which turns into NaN. *)
Definition element (a : list Z) (i : nat) : float :=
  match a !! i with
  | Some v => PrimFloat.of_uint63 (Uint63.of_Z v)
  | None => nan
  end.

Section ImageComparison.
(** [Math.hypot] with three arguments; ECMAScript leaves its rounding to
    the implementation. *)
Variable hypot : float -> float -> float -> float.

(** The loop of [_compareImageData] from index [i] on; it makes at most
    [fuel] turns. *)
Fixpoint compareLoop (fuel i : nat) (a b : list Z) (difference : float) : float :=
  match fuel with
  | O => difference
  | S fuel' =>
      if (i <? length a)%nat then
        compareLoop fuel' (i + 4) a b
          (difference
           + hypot (element a i - element b i)
                   (element a (i + 1) - element b (i + 1))
                   (element a (i + 2) - element b (i + 2)))%float
      else difference
  end.

(** [_compareImageData(imageDataA, imageDataB)]; [None] is the [Error]
    thrown for different sizes.  The index grows by four, so
    [length a] turns are enough. *)
Definition compareImageData (imageDataA imageDataB : ImageData) : option float :=
  let a := img_data imageDataA in
  let b := img_data imageDataB in
  if negb (img_width imageDataA =? img_width imageDataB)%nat
     || negb (img_height imageDataA =? img_height imageDataB)%nat
  then None
  else Some (compareLoop (length a) 0 a b 0).
End ImageComparison.

(** [Math.hypot] computed in the obvious way, one of the roundings an
    implementation may have. *)
Definition naiveHypot (x y z : float) : float :=
  PrimFloat.sqrt (x * x + y * y + z * z).

(** The bytes of an image with [width * height] pixels. *)
Definition wellFormedImage (image : ImageData) : Prop :=
  length (img_data image) = (4 * (img_width image * img_height image))%nat
  /\ Forall (fun v => 0 <= v < 256) (img_data image).

(** Two byte arrays that agree on the red, green and blue bytes. *)
Definition sameColours (a b : list Z) : Prop :=
  forall i, (i mod 4 <> 3)%nat -> a !! i = b !! i.

(** ** The page pool of the runner *)

(** A browser page, identified by the order of its creation, and the
    [resolve] function of a promise [alloc] has returned, identified by
    the caller it belongs to. *)
Abbreviation Page := nat.
Abbreviation Resolver := nat.

(** [_maxPages]: a positive whole number or [Infinity]. *)
Inductive PageLimit := AtMost (n : nat) | NoLimit.

Definition belowLimit (poolSize : nat) (limit : PageLimit) : bool :=
  match limit with
  | AtMost n => (poolSize <? n)%nat
  | NoLimit => true
  end.

Record PagePool := mkPagePool {
  _freePages : list Page;
  _maxPages : PageLimit;
  _resolutionQueue : list Resolver;
  _poolSize : nat;
}.

(** The pool as its constructor leaves it, [_maxPages] given. *)
Definition newPagePool (limit : PageLimit) : PagePool := mkPagePool [] limit [] 0.

(** What [alloc] does besides changing the pool: it returns a promise
    resolved with a page, or a pending promise, and then it may have
    started [_createPage(reuseFirst)]. *)
Inductive Allocation :=
| Immediately (page : Page)
| Pending (createPage : option bool).

(** [alloc()]; [resolve] is the resolver of the promise it creates. *)
Definition alloc (resolve : Resolver) (pool : PagePool) : PagePool * Allocation :=
  match last (_freePages pool) with
  | Some page =>
      (mkPagePool (removelast (_freePages pool)) (_maxPages pool)
                  (_resolutionQueue pool) (_poolSize pool),
       Immediately page)
  | None =>
      let queue := _resolutionQueue pool ++ [resolve] in
      if belowLimit (_poolSize pool) (_maxPages pool) then
        (mkPagePool (_freePages pool) (_maxPages pool) queue (S (_poolSize pool)),
         Pending (Some (_poolSize pool =? 0)%nat))
      else
        (mkPagePool (_freePages pool) (_maxPages pool) queue (_poolSize pool),
         Pending None)
  end.

(** [_resolveFromPool()]: the pool after it and the calls
    [resolvers[i](pool[i])] it makes, in order. *)
Definition _resolveFromPool (pool : PagePool) : PagePool * list (Resolver * Page) :=
  let canResolve := (length (_resolutionQueue pool) `min` length (_freePages pool))%nat in
  if (canResolve =? 0)%nat then (pool, [])
  else
    (mkPagePool (drop canResolve (_freePages pool)) (_maxPages pool)
                (drop canResolve (_resolutionQueue pool)) (_poolSize pool),
     zip (take canResolve (_resolutionQueue pool)) (take canResolve (_freePages pool))).

(** [free(page)] *)
Definition free (page : Page) (pool : PagePool) : PagePool * list (Resolver * Page) :=
  _resolveFromPool
    (mkPagePool (_freePages pool ++ [page]) (_maxPages pool)
                (_resolutionQueue pool) (_poolSize pool)).

(** The pool together with what is going on around it. *)
Record Runner := mkRunner {
  pool : PagePool;
  creating : nat;                      (* calls of [_createPage] not settled yet *)
  pagesCreated : nat;                  (* pages made so far; the next one gets this number *)
  inUse : list (Resolver * Page);      (* the callers that hold a page *)
  asked : list Resolver;               (* the callers of [alloc], in order *)
  handed : list (Resolver * Page);     (* the promises resolved, in order *)
}.

Definition newRunner (limit : PageLimit) : Runner :=
  mkRunner (newPagePool limit) 0 0 [] [] [].

(** What can happen: a call of [process] reaches [alloc]; a call of
    [_createPage] resolves with a new page, which is then freed; such a
    call is rejected; the holder [i] of a page reaches the [finally] of
    [process] and frees its page. *)
Inductive Event :=
| Alloc (resolve : Resolver)
| PageCreated
| CreateFailed
| Free (i : nat).

Definition runEvent (ev : Event) (w : Runner) : option Runner :=
  match ev with
  | Alloc resolve =>
      match alloc resolve (pool w) with
      | (pool', Immediately page) =>
          Some (mkRunner pool' (creating w) (pagesCreated w)
                         (inUse w ++ [(resolve, page)]) (asked w ++ [resolve])
                         (handed w ++ [(resolve, page)]))
      | (pool', Pending started) =>
          let started := match started with Some _ => 1%nat | None => 0%nat end in
          Some (mkRunner pool' (creating w + started) (pagesCreated w)
                         (inUse w) (asked w ++ [resolve]) (handed w))
      end
  | PageCreated =>
      match creating w with
      | O => None
      | S n =>
          let '(pool', resolved) := free (pagesCreated w) (pool w) in
          Some (mkRunner pool' n (S (pagesCreated w)) (inUse w ++ resolved) (asked w)
                         (handed w ++ resolved))
      end
  | CreateFailed =>
      match creating w with
      | O => None
      | S n => Some (mkRunner (pool w) n (pagesCreated w) (inUse w) (asked w) (handed w))
      end
  | Free i =>
      match inUse w !! i with
      | None => None
      | Some (_, page) =>
          let '(pool', resolved) := free page (pool w) in
          Some (mkRunner pool' (creating w) (pagesCreated w)
                         (delete i (inUse w) ++ resolved) (asked w) (handed w ++ resolved))
      end
  end.

Fixpoint runEvents (evs : list Event) (w : Runner) : option Runner :=
  match evs with
  | [] => Some w
  | ev :: rest =>
      match runEvent ev w with
      | Some w' => runEvents rest w'
      | None => None
      end
  end.

(** The pool is within its limit. *)
Definition withinLimit (poolSize : nat) (limit : PageLimit) : Prop :=
  match limit with
  | AtMost n => (poolSize <= n)%nat
  | NoLimit => True
  end.

(** What holds of the runner whatever has happened. *)
Definition poolInvariant (limit : PageLimit) (w : Runner) : Prop :=
  _maxPages (pool w) = limit
  /\ (creating w + pagesCreated w <= _poolSize (pool w))%nat
  /\ withinLimit (_poolSize (pool w)) limit
  /\ (_freePages (pool w) = [] \/ _resolutionQueue (pool w) = [])
  /\ NoDup (_freePages (pool w) ++ (snd <$> inUse w))
  /\ (forall page, page ∈ _freePages (pool w) ++ (snd <$> inUse w) ->
                   (page < pagesCreated w)%nat)
  /\ asked w = (fst <$> handed w) ++ _resolutionQueue (pool w).

(** ** The runner and the command line *)

(** The options [process] is given: each may be left out. *)
Record ProcessOptions := mkProcessOptions {
  po_scale : option float;
  po_lossless : option bool;
}.

(** [typedOptions] as [process] builds it and [unjunk] reads it: the
    scale is passed on only when it is greater than zero. *)
Definition typedOptions (options : option ProcessOptions) : Options :=
  match options with
  | None => mkOptions None false
  | Some o =>
      mkOptions
        (match po_scale o with
         | Some scale => if (0 <? scale)%float then Some scale else None
         | None => None
         end)
        (default false (po_lossless o))
  end.

(** [process(svgCode, options)], the page taken from the pool left
    aside. *)
Definition process `{Browser} (fuel : nat) (svgCode : jsstring)
    (options : option ProcessOptions) : Outcome jsstring :=
  unjunk fuel svgCode (typedOptions options).

(** The files the command line works on, by name, each with its text as
    [readFile(filename, 'utf-8')] gives it; a name that is not there
    cannot be read. *)
Abbreviation FileSystem := (gmap jsstring jsstring).

Record CliState := mkCliState {
  files : FileSystem;
  exitCode1 : bool;              (* [process.exitCode] has been set to 1 *)
}.

(** [runForFile(filename)] of [bulkOverwrite], [run] standing for
    [svgUnjunk.process(input, options)]. *)
Definition runForFile (run : jsstring -> Outcome jsstring) (st : CliState)
    (filename : jsstring) : CliState :=
  match files st !! filename with
  | None => mkCliState (files st) true
  | Some input =>
      match run input with
      | Ok output =>
          let sizeBefore := byteLength input in
          let sizeAfter := byteLength output in
          if (sizeBefore <=? sizeAfter)%nat then st
          else mkCliState (<[filename := output]> (files st)) (exitCode1 st)
      | _ => st
      end
  end.

(** [bulkOverwrite]: the runs are started together; each reads and
    writes its own file only, so for distinct names they come to the
    same as one after the other. *)
Definition bulkOverwrite (run : jsstring -> Outcome jsstring) (filenames : list jsstring)
    (st : CliState) : CliState :=
  foldl (runForFile run) st filenames.

(** What a run of the command line leaves of a file that held [before]:
    nothing if there was nothing to read, else the text it held or a
    shorter output of [run]. *)
Definition leftBy (run : jsstring -> Outcome jsstring)
    (before : option jsstring) (after : option jsstring) : Prop :=
  match before with
  | None => after = None
  | Some input =>
      after = Some input
      \/ exists output, run input = Ok output
                        /\ (byteLength output < byteLength input)%nat
                        /\ after = Some output
  end.

(** ** The first runner ([index.ts]) *)

(** The text the pattern of [doStuff] begins with. *)
Definition xmlnsDeclaration : jsstring := js " xmlns=" ++ quoted SVG_NS.

(** [output.replace(pattern, '$2$1>')] of [doStuff]: the pattern is
    [xmlnsDeclaration] (group 1), then as many code units other than [>]
    as there are (group 2), then [>].  A [>] after a later occurrence of
    the declaration is after the first one too: the match, if there is
    one, is at the first occurrence. *)
Definition moveXmlnsLast (output : jsstring) : jsstring :=
  match indexOf output xmlnsDeclaration with
  | None => output
  | Some i =>
      let rest := drop (i + length xmlnsDeclaration) output in
      match indexOf rest [ch_gt] with
      | None => output
      | Some j =>
          take i output ++ take j rest ++ xmlnsDeclaration ++ [ch_gt] ++ drop (S j) rest
      end
  end.

(** ** Candidates and the document they come from *)

(** What the candidate [op] is about is there in the node [m]: the
    attribute, class or style property it removes, the [xlink:href] it
    replaces, the gradient it inlines, the [g] or [svg] it unwraps. *)
Definition groundedIn `{Browser} (m : Node) (op : CleaningOp) : Prop :=
  match op with
  | OpRemoveChild _ => True
  | OpReplaceXlinkHref _ => hasAttributeNS (node_attributes m) XLINK_NS (js "href") = true
  | OpRemoveAttribute _ attrName =>
      attrName ∈ attr_name <$> node_attributes m /\ attrName ∉ doNotRemoveAttrs
  | OpRemoveClass _ className => className ∈ classList (node_attributes m)
  | OpRemoveStyle _ styleProp =>
      exists styleProps,
        styleList (node_namespaceURI m) (node_attributes m) = Ok styleProps
        /\ styleProp ∈ styleProps
  | OpInlineGradient _ _ _ _ =>
      isGradient m = true /\ hasAttribute (node_attributes m) (js "id") = true
  | OpUnwrap _ =>
      match m with
      | Element _ nodeName _ _ _ => nodeName ∈ unwrapElements
      | CharData _ _ _ => False
      end
  end.

(** ** Scanning restored markup *)

(** The attributes of [l] with the offsets a scan from [pos] gives them
    when their raw texts follow one another. *)
Fixpoint relocate (pos : nat) (l : list PhysAttr) : list PhysAttr :=
  match l with
  | [] => []
  | a :: rest =>
      mkPhysAttr (pa_name a) (pa_raw a) pos (pos + length (pa_raw a))
        :: relocate (pos + length (pa_raw a)) rest
  end.

(** The raw text of [a] is matched as [a] wherever it stands. *)
Definition matchesItself (a : PhysAttr) : Prop :=
  forall rest, matchAttr (pa_raw a ++ rest) = Some (pa_name a, length (pa_raw a)).

(** ** The rasteriser cache of a comparator *)

Section RasterizerCache.
Context `{Browser}.

(** [getImageData(scale)] of the rasteriser made from a markup: the image
    data, or nothing when the image does not load.  A rasteriser is given
    by the markup it was made from; its own cache of image data only
    saves work. *)
Variable getImageData : jsstring -> float -> option ImageData.
Variable hypot : float -> float -> float -> float.

(** [this._rasterizerCache.get(svgCode)], the cache as the list of its
    entries: the markup compared and the markup its rasteriser was made
    from. *)
Definition cacheGet (cache : list (jsstring * jsstring)) (svgCode : jsstring)
    : option jsstring :=
  snd <$> List.find (fun entry => str_eqb (fst entry) svgCode) cache.

(** [cache.get(svgCode) || new SvgRasterizer(this._transformCode(svgCode))] *)
Definition rasterizerFor (fuel : nat) (c : Comparator) (cache : list (jsstring * jsstring))
    (svgCode : jsstring) : Outcome jsstring :=
  match cacheGet cache svgCode with
  | Some rasterizer => Ok rasterizer
  | None => transformCode fuel c svgCode
  end.

(** [comparator.compare(svgCodeA, svgCodeB, scale)] with its cache: the
    result and the cache after the call.  The cache is rebuilt once both
    images are there, before they are compared. *)
Definition compareCached (fuel : nat) (c : Comparator) (cache : list (jsstring * jsstring))
    (svgCodeA svgCodeB : jsstring) (scale : float)
    : Outcome float * list (jsstring * jsstring) :=
  match rasterizerFor fuel c cache svgCodeA with
  | Ok rasterizerA =>
      match rasterizerFor fuel c cache svgCodeB with
      | Ok rasterizerB =>
          match getImageData rasterizerA (scale * baseScaleOf c)%float,
                getImageData rasterizerB (scale * baseScaleOf c)%float with
          | Some imageDataA, Some imageDataB =>
              (match compareImageData hypot imageDataA imageDataB with
               | Some difference => Ok difference
               | None => Throw RenderError
               end,
               if str_eqb svgCodeA svgCodeB then [(svgCodeB, rasterizerB)]
               else [(svgCodeA, rasterizerA); (svgCodeB, rasterizerB)])
          | _, _ => (Throw RenderError, cache)
          end
      | Throw e => (Throw e, cache)
      | Diverge => (Diverge, cache)
      end
  | Throw e => (Throw e, cache)
  | Diverge => (Diverge, cache)
  end.

(** Every rasteriser of the cache was made from the transformed markup of
    its key. *)
Definition cacheSound (fuel : nat) (c : Comparator) (cache : list (jsstring * jsstring))
    : Prop :=
  forall svgCode rasterizer,
    (svgCode, rasterizer) ∈ cache -> transformCode fuel c svgCode = Ok rasterizer.

(** [rasterDifference] is the comparison of the two images. *)
Definition rasterisesWith : Prop :=
  forall a b scale,
    rasterDifference a b scale
    = match getImageData a scale, getImageData b scale with
      | Some imageDataA, Some imageDataB => compareImageData hypot imageDataA imageDataB
      | _, _ => None
      end.
End RasterizerCache.

(** The small browser with a rasteriser that gives images. *)
Definition imageBrowser (getImageData : jsstring -> float -> option ImageData) : Browser :=
  Build_Browser Toy.parseFromString Toy.serializeToString Toy.styleProperties
    Toy.styleRemoveProperty Toy.styleGetProperty Toy.styleSetProperty
    (fun a b scale =>
       match getImageData a scale, getImageData b scale with
       | Some imageDataA, Some imageDataB => compareImageData naiveHypot imageDataA imageDataB
       | _, _ => None
       end).

(** ** The test script: comparing without indentation *)

(** [s.replace(/\s+/g, ' ')]: every run of white space becomes one space;
    [inRun] tells that the code unit before was white space. *)
Fixpoint collapseSpaces (inRun : bool) (s : jsstring) : jsstring :=
  match s with
  | [] => []
  | c :: s' =>
      if isSpace c then
        if inRun then collapseSpaces true s' else 32 :: collapseSpaces true s'
      else c :: collapseSpaces false s'
  end.

(** [textContent.trim().replace(/\s+/g, ' ')] *)
Definition normalizeText (s : jsstring) : jsstring := collapseSpaces false (trim s).

(** [removeWs] on one child: it goes into an element, rewrites a text
    node whose text is not empty, and leaves any other node. *)
Fixpoint removeWs (n : Node) : Node :=
  match n with
  | Element id nodeName namespaceURI attributes childNodes =>
      Element id nodeName namespaceURI attributes (List.map removeWs childNodes)
  | CharData id nodeType data =>
      if (nodeType =? 3) && negb (isEmpty data)
      then CharData id nodeType (normalizeText data)
      else n
  end.

(** * Properties *)

(** ** The embedding on small inputs *)

Example getAttrs_names :
  pa_name <$> getAttrs (js "<svg a='1' b = '2' c=d='3' e= ='4' f>")
  = [js "a"; js "b"; js "c=d"; js "e="].
Proof. vm_compute. reflexivity. Qed.

Example RE_URL_FUNCTION_matches :
  RE_URL_FUNCTION (js " Url(  #a  )") = Some (js "#a")
  /\ RE_URL_FUNCTION (js "url(#a))") = Some (js "#a)")
  /\ RE_URL_FUNCTION (js "url(#a) ") = None.
Proof. vm_compute. done. Qed.

Example sortAttrs_moves :
  sortAttrs (js <$> ["xmlns:a"; "b"; "xmlns"; "c"]%string)
  = (js <$> ["b"; "c"; "xmlns"; "xmlns:a"]%string).
Proof. vm_compute. reflexivity. Qed.

Example classList_tokens :
  classList [plainAttr "class" " a  b a c "] = [js "a"; js "b"; js "c"].
Proof. vm_compute. reflexivity. Qed.

Example cleaningOps_gradient :
  @cleaningOps Toy.browser (toyDocument gradientExample)
  = yieldAll
      [OpRemoveChild [0; 0]%nat; OpRemoveChild [0; 0; 0]%nat;
       OpRemoveAttribute [0; 0]%nat (js "id");
       OpInlineGradient [0; 0]%nat (js "#a") (js "black") (js "1");
       OpRemoveChild [0; 1]%nat;
       OpRemoveAttribute [0; 1]%nat (js "fill");
       OpRemoveAttribute [0; 1]%nat (js "stroke")].
Proof. vm_compute. reflexivity. Qed.

Example cleaningOps_foreign :
  @cleaningOps Toy.browser (toyDocument foreignExample)
  = mkGenerated
      [OpRemoveChild [0; 0]%nat; OpRemoveChild [0; 0; 0]%nat;
       OpRemoveChild [0; 0; 0; 0]%nat]
      (Throw TypeError).
Proof. vm_compute. reflexivity. Qed.

Example replaceXlinkHref_live :
  replaceXlinkHref [mkAttr (js "xlink:href") (Some XLINK_NS) (js "href") (js "#a");
                    plainAttr "href" "#b"]
  = [plainAttr "href" "#a"].
Proof. vm_compute. reflexivity. Qed.

(** ** Generators *)

Lemma elem_of_generated (op : CleaningOp) (g : Generated) : op ∈ g <-> List.In op (yielded g).
Proof. unfold elem_of at 1, generated_elem_of. apply list_elem_of_In. Qed.

Lemma andThen_yieldAll (ops : list CleaningOp) (k : Generated) :
  andThen (yieldAll ops) k = mkGenerated (ops ++ yielded k) (finished k).
Proof. reflexivity. Qed.


Lemma finished_andThen (g k : Generated) :
  finished (andThen g k) = match finished g with Ok _ => finished k | r => r end.
Proof. unfold andThen. destruct (finished g) eqn:E; simpl; congruence. Qed.

(** What a sequence of two stretches yields comes from the first, or from
    the second when the first has returned. *)
Lemma andThen_In (op : CleaningOp) (g k : Generated) :
  List.In op (yielded (andThen g k))
  <-> List.In op (yielded g) \/ (finished g = Ok tt /\ List.In op (yielded k)).
Proof.
  unfold andThen. destruct (finished g) as [[]| |] eqn:E; simpl.
  - rewrite in_app_iff. tauto.
  - intuition discriminate.
  - intuition discriminate.
Qed.

Lemma finished_andThen_ok (g k : Generated) :
  finished (andThen g k) = Ok tt <-> finished g = Ok tt /\ finished k = Ok tt.
Proof.
  rewrite finished_andThen. destruct (finished g) as [[]| |]; intuition discriminate.
Qed.

Lemma forEach_cons {A} (body : A -> Generated) (x : A) (l : list A) :
  forEach body (x :: l) = andThen (body x) (forEach body l).
Proof. reflexivity. Qed.

Lemma forEach_In {A} (body : A -> Generated) (l : list A) (op : CleaningOp) :
  List.In op (yielded (forEach body l)) -> exists x, List.In x l /\ List.In op (yielded (body x)).
Proof.
  induction l as [|x l IH]; [done|]. rewrite forEach_cons, andThen_In.
  intros [Hx|[_ Hl]].
  - exists x. split; [by left|done].
  - destruct (IH Hl) as (y & Hy & Hop). exists y. split; [by right|done].
Qed.

Lemma forEach_finished_ok {A} (body : A -> Generated) (l : list A) :
  finished (forEach body l) = Ok tt <-> forall x, List.In x l -> finished (body x) = Ok tt.
Proof.
  induction l as [|x l IH]; [by split|].
  rewrite forEach_cons, finished_andThen_ok, IH. split.
  - intros [Hx Hl] y [<-|Hy]; [done|by apply Hl].
  - intros Hall. split; [apply Hall; by left|]. intros y Hy. apply Hall. by right.
Qed.


(** A generator ends in one way. *)
Lemma finished_forEach_throw {A} (body : A -> Generated) (l : list A) (e : Exn) :
  finished (forEach body l) = Throw e -> exists x, List.In x l /\ finished (body x) = Throw e.
Proof.
  induction l as [|x l IH]; [done|]. rewrite forEach_cons, finished_andThen.
  destruct (finished (body x)) as [[]|e'|] eqn:Ex.
  - intros Hl. destruct (IH Hl) as (y & Hy & He). exists y. split; [by right|done].
  - intros [= ->]. exists x. split; [by left|done].
  - done.
Qed.

Lemma finished_forEach_diverge {A} (body : A -> Generated) (l : list A) :
  finished (forEach body l) = Diverge -> exists x, List.In x l /\ finished (body x) = Diverge.
Proof.
  induction l as [|x l IH]; [done|]. rewrite forEach_cons, finished_andThen.
  destruct (finished (body x)) as [[]|e'|] eqn:Ex.
  - intros Hl. destruct (IH Hl) as (y & Hy & He). exists y. split; [by right|done].
  - done.
  - intros _. exists x. split; [by left|done].
Qed.



(** ** The order of the attribute removals *)

Lemma sortAttrsLoop_spec (a b : list jsstring) :
  sortAttrsLoop (length a) (a ++ b)
  = List.filter (fun n => negb (RE_XMLNS_ATTR n)) a ++ b ++ rev (List.filter RE_XMLNS_ATTR a).
Proof.
  revert b. induction a as [|n a IH] using rev_ind; intros b.
  - simpl. by rewrite app_nil_r.
  - rewrite length_app, Nat.add_1_r. simpl.
    rewrite <- app_assoc. simpl.
    rewrite list_lookup_middle by done.
    rewrite !List.filter_app. simpl.
    destruct (RE_XMLNS_ATTR n) eqn:E; simpl.
    + replace (delete (length a) ((a ++ n :: b) ++ [n])) with (a ++ (b ++ [n])).
      2:{ rewrite <- app_assoc, <- app_comm_cons. by rewrite delete_middle. }
      rewrite IH. rewrite rev_app_distr. simpl.
      by rewrite !app_nil_r, <- !app_assoc.
    + rewrite (IH (n :: b)). rewrite app_nil_r. by rewrite <- !app_assoc.
Qed.

Lemma sortAttrs_spec (names : list jsstring) :
  sortAttrs names
  = List.filter (fun n => negb (RE_XMLNS_ATTR n)) names ++ rev (List.filter RE_XMLNS_ATTR names).
Proof.
  unfold sortAttrs.
  rewrite <- (app_nil_r names) at 2.
  by rewrite sortAttrsLoop_spec.
Qed.


Lemma filter_split_Permutation {A} (p : A -> bool) (l : list A) :
  List.filter (fun x => negb (p x)) l ++ List.filter p l ≡ₚ l.
Proof.
  induction l as [|x l IH]; [done|]. simpl.
  destruct (p x); simpl.
  - rewrite <- Permutation_middle. by rewrite IH.
  - by rewrite IH.
Qed.








(** ** Attribute lists *)

Lemma str_eqb_eq (a b : jsstring) : str_eqb a b = true <-> a = b.
Proof. unfold str_eqb. apply bool_decide_eq_true. Qed.

Lemma str_eqb_refl (a : jsstring) : str_eqb a a = true.
Proof. by apply str_eqb_eq. Qed.

Lemma str_eqb_ne (a b : jsstring) : a <> b -> str_eqb a b = false.
Proof. unfold str_eqb. apply bool_decide_eq_false. Qed.

Lemma getAttribute_setAttribute (attrs : list Attr) (name value : jsstring) :
  getAttribute (setAttribute attrs name value) name = Some value.
Proof.
  unfold getAttribute.
  induction attrs as [|a attrs IH]; simpl.
  - by rewrite str_eqb_refl.
  - destruct (str_eqb (attr_name a) name) eqn:E; simpl; rewrite E; [done|exact IH].
Qed.

Lemma getAttribute_setAttribute_ne (attrs : list Attr) (name value other : jsstring) :
  name <> other ->
  getAttribute (setAttribute attrs name value) other = getAttribute attrs other.
Proof.
  intros Hne. unfold getAttribute.
  induction attrs as [|a attrs IH]; simpl.
  - by rewrite (str_eqb_ne _ _ Hne).
  - destruct (str_eqb (attr_name a) name) eqn:E; simpl.
    + apply str_eqb_eq in E. rewrite E, (str_eqb_ne _ _ Hne). done.
    + destruct (str_eqb (attr_name a) other); [done|exact IH].
Qed.

Lemma hasAttrSelector_setAttribute_ne (attrs : list Attr) (name value other : jsstring) :
  name <> other ->
  hasAttrSelector (setAttribute attrs name value) other = hasAttrSelector attrs other.
Proof.
  intros Hne. unfold hasAttrSelector.
  induction attrs as [|a attrs IH]; simpl.
  - by rewrite (str_eqb_ne _ _ Hne).
  - destruct (str_eqb (attr_name a) name); simpl; [done|by rewrite IH].
Qed.

Lemma opacity_name_ne (attrName : jsstring) : attrName <> attrName ++ js "-opacity".
Proof.
  intros H. apply (f_equal length) in H. rewrite length_app in H.
  simpl in H. lia.
Qed.

(** An element that refers to the gradient gets the flat colour and the
    opacity; any other element is left as it is. *)
Lemma inlineAttr_references (attrName gradRef refColor refOpacity : jsstring)
    (attrs : list Attr) :
  references attrs attrName gradRef ->
  let attrs' := inlineAttr attrName gradRef refColor refOpacity attrs in
  getAttribute attrs' attrName = Some refColor
  /\ getAttribute attrs' (attrName ++ js "-opacity") = Some refOpacity.
Proof.
  intros [Hsel Hurl]. unfold inlineAttr. rewrite Hsel, Hurl, str_eqb_refl. simpl.
  split.
  - rewrite getAttribute_setAttribute_ne by (symmetry; apply opacity_name_ne).
    apply getAttribute_setAttribute.
  - apply getAttribute_setAttribute.
Qed.

Lemma inlineAttr_other (attrName gradRef refColor refOpacity : jsstring)
    (attrs : list Attr) :
  ~ references attrs attrName gradRef ->
  inlineAttr attrName gradRef refColor refOpacity attrs = attrs.
Proof.
  unfold references, inlineAttr. intros Hn.
  destruct (hasAttrSelector attrs attrName); [|done].
  destruct (RE_URL_FUNCTION _) as [m|]; [|done].
  destruct (str_eqb m gradRef) eqn:E; [|done].
  apply str_eqb_eq in E. subst. by destruct Hn.
Qed.

Lemma inlineAttr_getAttribute_ne (attrName gradRef refColor refOpacity other : jsstring)
    (attrs : list Attr) :
  attrName <> other -> attrName ++ js "-opacity" <> other ->
  getAttribute (inlineAttr attrName gradRef refColor refOpacity attrs) other
  = getAttribute attrs other.
Proof.
  intros H1 H2. unfold inlineAttr.
  destruct (hasAttrSelector attrs attrName); [|done].
  destruct (RE_URL_FUNCTION _) as [m|]; [|done].
  destruct (str_eqb m gradRef); [|done].
  by rewrite !getAttribute_setAttribute_ne.
Qed.

Lemma inlineAttr_hasAttrSelector_ne (attrName gradRef refColor refOpacity other : jsstring)
    (attrs : list Attr) :
  attrName <> other -> attrName ++ js "-opacity" <> other ->
  hasAttrSelector (inlineAttr attrName gradRef refColor refOpacity attrs) other
  = hasAttrSelector attrs other.
Proof.
  intros H1 H2. unfold inlineAttr.
  destruct (hasAttrSelector attrs attrName) eqn:E; [|done].
  destruct (RE_URL_FUNCTION _) as [m|]; [|done].
  destruct (str_eqb m gradRef); [|done].
  by rewrite !hasAttrSelector_setAttribute_ne.
Qed.

Lemma inlineBoth_references (gradRef refColor refOpacity : jsstring) (attrs : list Attr) :
  let attrs' := inlineBoth gradRef refColor refOpacity attrs in
  (references attrs (js "fill") gradRef ->
     getAttribute attrs' (js "fill") = Some refColor
     /\ getAttribute attrs' (js "fill-opacity") = Some refOpacity)
  /\ (references attrs (js "stroke") gradRef ->
     getAttribute attrs' (js "stroke") = Some refColor
     /\ getAttribute attrs' (js "stroke-opacity") = Some refOpacity)
  /\ (~ references attrs (js "fill") gradRef ->
      ~ references attrs (js "stroke") gradRef -> attrs' = attrs).
Proof.
  unfold inlineBoth. split; [|split].
  - intros Href.
    destruct (inlineAttr_references _ _ refColor refOpacity _ Href) as [H1 H2].
    split.
    + rewrite inlineAttr_getAttribute_ne by (by vm_compute). exact H1.
    + rewrite inlineAttr_getAttribute_ne by (by vm_compute). exact H2.
  - intros [Hsel Hurl].
    apply (inlineAttr_references (js "stroke")). split.
    + by rewrite inlineAttr_hasAttrSelector_ne by (by vm_compute).
    + by rewrite inlineAttr_getAttribute_ne by (by vm_compute).
  - intros Hf Hs. rewrite (inlineAttr_other (js "fill")) by done.
    by apply inlineAttr_other.
Qed.

(** ** Trees *)

Lemma Node_tree_ind (P : Node -> Prop) :
  (forall id nm ns attrs ch, Forall P ch -> P (Element id nm ns attrs ch)) ->
  (forall id t d, P (CharData id t d)) ->
  forall n, P n.
Proof.
  intros Hel Hcd. fix IH 1.
  intros [id nm ns attrs ch|id t d]; [|apply Hcd].
  apply Hel. induction ch as [|c ch IHch]; constructor; [apply IH|apply IHch].
Qed.

Lemma allNodes_subtree (doc : XMLDocument) : allNodes doc = List.flat_map subtree doc.
Proof. reflexivity. Qed.

Lemma descendants_children (n : Node) :
  descendants n = List.flat_map subtree (node_children n).
Proof. by destruct n. Qed.

Lemma in_subtree_child (n c m : Node) :
  List.In c (node_children n) -> List.In m (subtree c) -> List.In m (subtree n).
Proof.
  intros Hc Hm. right. rewrite descendants_children.
  apply in_flat_map. eauto.
Qed.

Lemma node_id_mapElements g n : node_id (mapElements g n) = node_id n.
Proof. by destruct n. Qed.

Lemma descendants_mapElements g (n : Node) :
  descendants (mapElements g n) = List.map (mapElements g) (descendants n).
Proof.
  induction n as [id nm ns attrs ch IH|] using Node_tree_ind; [|done].
  simpl. induction IH as [|c ch Hc _ IHch]; [done|].
  simpl. rewrite List.map_app. simpl. by rewrite Hc, IHch.
Qed.

Lemma allNodes_mapElements g (doc : XMLDocument) :
  allNodes (mapElements g <$> doc) = List.map (mapElements g) (allNodes doc).
Proof.
  unfold allNodes. induction doc as [|c doc IH]; [done|].
  simpl. rewrite List.map_app. simpl.
  rewrite descendants_mapElements. f_equal. apply (f_equal (app _)), IH.
Qed.

Lemma mapElements_compose g1 g2 (n : Node) :
  mapElements g2 (mapElements g1 n) = mapElements (fun a => g2 (g1 a)) n.
Proof.
  induction n as [id nm ns attrs ch IH|] using Node_tree_ind; [|done].
  simpl. f_equal. rewrite List.map_map.
  induction IH as [|c ch Hc _ IHch]; [done|]. simpl. by rewrite Hc, IHch.
Qed.

(** After a removal no node has the target's identity, and every node
    left is a node of the document before, with its attributes. *)
Lemma updateNode_remove_subtree (target : NodeId) (n m' : Node) :
  List.In m' (List.flat_map subtree (updateNode target (fun _ => []) n)) ->
  exists m, List.In m (subtree n) /\ node_id m' = node_id m /\ node_id m <> target
            /\ node_attributes m' = node_attributes m.
Proof.
  revert m'. induction n as [id nm ns attrs ch IH|id t d] using Node_tree_ind; intros m'.
  - simpl. case_bool_decide as Hid; [done|]. simpl. rewrite app_nil_r.
    intros [<-|Hin].
    + eexists. split; [by left|]. done.
    + apply in_flat_map in Hin as (c' & Hc' & Hm').
      apply in_flat_map in Hc' as (c & Hc & Hc'').
      rewrite Forall_forall in IH.
      destruct (IH c (proj2 (list_elem_of_In _ _) Hc) m') as (m & Hm & ?).
      { apply in_flat_map. eauto. }
      exists m. split; [|done].
      apply (in_subtree_child (Element id nm ns attrs ch) c); done.
  - simpl. case_bool_decide as Hid; [done|]. simpl.
    intros [<-|[]]. eexists. split; [by left|]. done.
Qed.

Lemma updateDocument_remove_allNodes (target : NodeId) (doc : XMLDocument) (m' : Node) :
  List.In m' (allNodes (updateDocument target (fun _ => []) doc)) ->
  exists m, List.In m (allNodes doc) /\ node_id m' = node_id m /\ node_id m <> target
            /\ node_attributes m' = node_attributes m.
Proof.
  unfold allNodes, updateDocument. fold subtree.
  intros Hin. apply in_flat_map in Hin as (c' & Hc' & Hm').
  apply in_flat_map in Hc' as (c & Hc & Hc'').
  destruct (updateNode_remove_subtree target c m') as (m & Hm & ?).
  { apply in_flat_map. eauto. }
  exists m. split; [|done]. apply in_flat_map. eauto.
Qed.

Lemma subtree_mapElements g (n : Node) :
  subtree (mapElements g n) = List.map (mapElements g) (subtree n).
Proof. unfold subtree. simpl. by rewrite descendants_mapElements. Qed.

(** A removal keeps, with its attributes, every node whose identity is
    not that of a node at or below a node with the target's identity. *)
Lemma updateNode_remove_keeps (target : NodeId) (n m : Node) :
  List.In m (subtree n) ->
  (forall g x, List.In g (subtree n) -> node_id g = target -> List.In x (subtree g) ->
               node_id x <> node_id m) ->
  exists m', List.In m' (List.flat_map subtree (updateNode target (fun _ => []) n))
             /\ node_id m' = node_id m /\ node_attributes m' = node_attributes m.
Proof.
  induction n as [id nm ns attrs ch IH|id t d] using Node_tree_ind; intros Hm Hout.
  - simpl. case_bool_decide as Hid.
    { exfalso. apply (Hout (Element id nm ns attrs ch) m); [by left|done..]. }
    simpl. rewrite app_nil_r. destruct Hm as [<-|Hm].
    { eexists. split; [by left|done]. }
    simpl in Hm. apply in_flat_map in Hm as (c & Hc & Hm).
    rewrite Forall_forall in IH.
    destruct (IH c (proj2 (list_elem_of_In _ _) Hc) Hm) as (m' & Hm' & Hids).
    { intros g x Hg. apply Hout.
      by apply (in_subtree_child (Element id nm ns attrs ch) c). }
    exists m'. split; [|done]. right.
    apply in_flat_map in Hm' as (c' & Hc' & Hm').
    apply in_flat_map. exists c'. split; [|done].
    apply in_flat_map. by exists c.
  - simpl. case_bool_decide as Hid.
    { exfalso. apply (Hout (CharData id t d) m); [by left|done..]. }
    destruct Hm as [<-|[]]. eexists. split; [by left|done].
Qed.

Lemma updateDocument_remove_keeps (target : NodeId) (doc : XMLDocument) (m : Node) :
  List.In m (allNodes doc) ->
  (forall g x, List.In g (allNodes doc) -> node_id g = target -> List.In x (subtree g) ->
               node_id x <> node_id m) ->
  exists m', List.In m' (allNodes (updateDocument target (fun _ => []) doc))
             /\ node_id m' = node_id m /\ node_attributes m' = node_attributes m.
Proof.
  unfold allNodes, updateDocument. fold subtree. intros Hm Hout.
  apply in_flat_map in Hm as (c & Hc & Hm).
  destruct (updateNode_remove_keeps target c m Hm) as (m' & Hm' & Hids).
  { intros g x Hg. apply Hout. apply in_flat_map. by exists c. }
  exists m'. split; [|done].
  apply in_flat_map in Hm' as (c' & Hc' & Hm').
  apply in_flat_map. exists c'. split; [|done].
  apply in_flat_map. by exists c.
Qed.

(** ** What the generator yields *)

Section Generator.
Context `{Browser}.

Lemma childOps_unfold (parentIsElement : bool) (child : Node) :
  childOps parentIsElement child
  = andThen (yieldAll (removeChildOps parentIsElement child))
      match child with
      | CharData _ _ _ => yieldAll []
      | Element _ _ _ _ ch =>
          andThen (forEach (childOps true) ch) (elementOps parentIsElement child)
      end.
Proof. by destruct child. Qed.

(** The ops on an element, one kind after the other. *)
Lemma elementOps_In (b : bool) (id : NodeId) nm ns attrs ch (op : CleaningOp) :
  List.In op (yielded (elementOps b (Element id nm ns attrs ch))) ->
  (hasAttributeNS attrs XLINK_NS (js "href") = true /\ op = OpReplaceXlinkHref id)
  \/ List.In op (removeAttrOps id attrs)
  \/ (exists c, List.In c (classList attrs) /\ op = OpRemoveClass id c)
  \/ (exists styleProps p,
        styleList ns attrs = Ok styleProps /\ List.In p styleProps /\ op = OpRemoveStyle id p)
  \/ ((str_eqb nm (js "linearGradient") || str_eqb nm (js "radialGradient")) = true
      /\ List.In op (inlineGradient (Element id nm ns attrs ch)))
  \/ (nm ∈ unwrapElements /\ b = true /\ op = OpUnwrap id).
Proof.
  assert (Hfirst : List.In op
            ((if hasAttributeNS attrs XLINK_NS (js "href") then [OpReplaceXlinkHref id] else [])
             ++ removeAttrOps id attrs ++ (OpRemoveClass id <$> classList attrs)) ->
          (hasAttributeNS attrs XLINK_NS (js "href") = true /\ op = OpReplaceXlinkHref id)
          \/ List.In op (removeAttrOps id attrs)
          \/ (exists c, List.In c (classList attrs) /\ op = OpRemoveClass id c)).
  { intros Hin. apply in_app_or in Hin as [Hin|Hin].
    - destruct (hasAttributeNS _ _ _); [|done]. destruct Hin as [<-|[]]. by left.
    - apply in_app_or in Hin as [Hin|Hin]; [by right; left|].
      apply in_map_iff in Hin as (c & <- & Hc). right. right. by exists c. }
  unfold elementOps, yieldAll.
  destruct (styleList ns attrs) as [styleProps|e|] eqn:Es; cbn [yielded].
  - intros Hin. apply in_app_or in Hin as [Hin|Hin].
    { destruct (Hfirst Hin) as [?|[?|?]]; tauto. }
    do 3 right. apply in_app_or in Hin as [Hin|Hin].
    { apply in_map_iff in Hin as (p & <- & Hp). left. by exists styleProps, p. }
    right. apply in_app_or in Hin as [Hin|Hin].
    + left. destruct (_ || _); [done|by destruct Hin].
    + right. destruct (bool_decide (nm ∈ unwrapElements)) eqn:E; [|done].
      destruct b; [|done]. destruct Hin as [<-|[]].
      by apply bool_decide_eq_true in E.
  - intros Hin. destruct (Hfirst Hin) as [?|[?|?]]; tauto.
  - intros Hin. destruct (Hfirst Hin) as [?|[?|?]]; tauto.
Qed.

(** An element with a style: the loop body yields all its ops and goes
    on. *)
Lemma elementOps_styled (b : bool) (id : NodeId) nm ns attrs ch :
  hasStyle ns = true ->
  exists styleProps,
    styleList ns attrs = Ok styleProps
    /\ elementOps b (Element id nm ns attrs ch)
       = yieldAll
           (((if hasAttributeNS attrs XLINK_NS (js "href") then [OpReplaceXlinkHref id] else [])
             ++ removeAttrOps id attrs ++ (OpRemoveClass id <$> classList attrs))
            ++ (OpRemoveStyle id <$> styleProps)
            ++ (if str_eqb nm (js "linearGradient") || str_eqb nm (js "radialGradient")
                then inlineGradient (Element id nm ns attrs ch) else [])
            ++ (if bool_decide (nm ∈ unwrapElements) && b then [OpUnwrap id] else [])).
Proof.
  intros Hs. unfold elementOps, styleList. rewrite Hs. by eexists.
Qed.

(** How the loop body of an element ends: it returns when the element has
    a style, and throws a [TypeError] when it has none. *)
Lemma finished_elementOps (b : bool) (m : Node) :
  finished (elementOps b m)
  = if isElement m && negb (hasStyle (node_namespaceURI m)) then Throw TypeError else Ok tt.
Proof.
  destruct m as [id nm ns attrs ch|]; [|done]. unfold elementOps, styleList. simpl.
  by destruct (hasStyle ns).
Qed.

(** An op of the walk comes from the loop body of some node of the tree:
    the root of the walk with the flag of the walk, or a node below, whose
    parent is an element. *)
Lemma childOps_origin (b : bool) (n : Node) (op : CleaningOp) :
  List.In op (yielded (childOps b n)) ->
  exists m b', List.In m (subtree n)
    /\ List.In op (removeChildOps b' m ++ yielded (elementOps b' m)).
Proof.
  revert b. induction n as [id nm ns attrs ch IH|id t d] using Node_tree_ind; intros b.
  - rewrite childOps_unfold, andThen_yieldAll. cbn [yielded]. intros Hin.
    apply in_app_or in Hin as [Hin|Hin].
    { exists (Element id nm ns attrs ch), b. split; [by left|].
      apply in_or_app. by left. }
    apply andThen_In in Hin as [Hin|[_ Hin]].
    + apply forEach_In in Hin as (c & Hc & Hop).
      rewrite Forall_forall in IH.
      destruct (IH c (proj2 (list_elem_of_In _ _) Hc) true Hop) as (m & b' & Hm & Hm').
      exists m, b'. split; [|done].
      by apply (in_subtree_child (Element id nm ns attrs ch) c).
    + exists (Element id nm ns attrs ch), b. split; [by left|].
      apply in_or_app. by right.
  - rewrite childOps_unfold, andThen_yieldAll. cbn [yielded yieldAll].
    rewrite app_nil_r. intros Hin.
    exists (CharData id t d), b. split; [by left|]. by rewrite app_nil_r.
Qed.


(** A walk that returns has gone through every loop body below it. *)
Lemma childOps_finished (b : bool) (n : Node) :
  finished (childOps b n) = Ok tt
  <-> finished (elementOps b n) = Ok tt
      /\ forall c, List.In c (node_children n) -> finished (childOps true c) = Ok tt.
Proof.
  rewrite childOps_unfold, andThen_yieldAll. cbn [finished].
  destruct n as [id nm ns attrs ch|]; [|by split].
  rewrite finished_andThen_ok, forEach_finished_ok. simpl. tauto.
Qed.



Lemma cleaningOps_origin (doc : XMLDocument) (op : CleaningOp) :
  List.In op (yielded (cleaningOps doc)) ->
  exists m b', List.In m (allNodes doc)
    /\ List.In op (removeChildOps b' m ++ yielded (elementOps b' m)).
Proof.
  unfold cleaningOps. intros Hin. apply forEach_In in Hin as (c & Hc & Hop).
  destruct (childOps_origin _ _ _ Hop) as (m & b' & Hm & Hm').
  exists m, b'. split; [|done]. unfold allNodes. apply in_flat_map. eauto.
Qed.

(** The generator returns exactly when every element of the document has
    a style; if not, it throws a [TypeError]. *)
Lemma childOps_finished_styled (b : bool) (n : Node) :
  finished (childOps b n) = Ok tt
  <-> forall m, List.In m (subtree n) -> isElement m = true ->
        hasStyle (node_namespaceURI m) = true.
Proof.
  revert b. induction n as [id nm ns attrs ch IH|id t d] using Node_tree_ind; intros b.
  - rewrite childOps_finished, finished_elementOps. simpl. rewrite Forall_forall in IH.
    split.
    + intros [Hown Hch] m [<-|Hm] Hel.
      * simpl. by destruct (hasStyle ns).
      * apply in_flat_map in Hm as (c & Hc & Hm).
        apply (IH c (proj2 (list_elem_of_In _ _) Hc) true); [by apply Hch|done..].
    + intros Hall. split.
      * pose proof (Hall (Element id nm ns attrs ch) (or_introl eq_refl) eq_refl) as Hs.
        simpl in Hs. by rewrite Hs.
      * intros c Hc. apply (IH c (proj2 (list_elem_of_In _ _) Hc)).
        intros m Hm Hel. apply Hall; [|done]. right.
        apply in_flat_map. by exists c.
  - rewrite childOps_finished. simpl. split; [|done].
    by intros _ m [<-|[]] ?.
Qed.

Lemma childOps_finished_cases (b : bool) (n : Node) :
  finished (childOps b n) = Ok tt \/ finished (childOps b n) = Throw TypeError.
Proof.
  revert b. induction n as [id nm ns attrs ch IH|id t d] using Node_tree_ind; intros b.
  - rewrite childOps_unfold, andThen_yieldAll. cbn [finished].
    rewrite finished_andThen.
    destruct (finished (forEach (childOps true) ch)) as [[]|e|] eqn:E.
    + rewrite finished_elementOps. destruct (_ && _); [by right|by left].
    + apply finished_forEach_throw in E as (c & Hc & He).
      rewrite Forall_forall in IH.
      destruct (IH c (proj2 (list_elem_of_In _ _) Hc) true); [congruence|].
      right. congruence.
    + apply finished_forEach_diverge in E as (c & Hc & He).
      rewrite Forall_forall in IH.
      destruct (IH c (proj2 (list_elem_of_In _ _) Hc) true); congruence.
  - by left.
Qed.

Lemma inlineGradient_inv (el : Node) (op : CleaningOp) :
  List.In op (inlineGradient el) ->
  hasAttribute (node_attributes el) (js "id") = true
  /\ exists refStop,
       querySelectorStop el = Some refStop
       /\ op = OpInlineGradient (node_id el)
                 (ch_hash :: orElse (getAttribute (node_attributes el) (js "id")) [])
                 (orElse (getAttribute (node_attributes refStop) (js "stop-color")) (js "black"))
                 (orElse (getAttribute (node_attributes refStop) (js "stop-opacity")) (js "1")).
Proof.
  unfold inlineGradient.
  destruct (hasAttribute _ _); simpl; [|done].
  destruct (querySelectorStop el) as [refStop|]; [|done].
  intros [<-|[]]. split; [done|]. by exists refStop.
Qed.

(** The op of [inlineGradient] is in the sequence only through the branch
    that tests the node name. *)
Lemma elementOps_inlineGradient (b : bool) (m : Node) grad gradRef refColor refOpacity :
  List.In (OpInlineGradient grad gradRef refColor refOpacity)
          (removeChildOps b m ++ yielded (elementOps b m)) ->
  isGradient m = true
  /\ List.In (OpInlineGradient grad gradRef refColor refOpacity) (inlineGradient m).
Proof.
  intros Hin. apply in_app_or in Hin as [Hin|Hin].
  { unfold removeChildOps in Hin. destruct (_ || _); [|done]. by destruct Hin. }
  destruct m as [id nm ns attrs ch|]; [|done].
  apply elementOps_In in Hin
    as [[_ ?]|[Hin|[(? & _ & ?)|[(? & ? & _ & _ & ?)|[[Hg Hin]|(_ & _ & ?)]]]]]; try done.
  unfold removeAttrOps in Hin. by apply in_map_iff in Hin as (? & ? & _).
Qed.

End Generator.

(** The generator of a document returns exactly when every element of
    the document has a style; when one has none it throws a
    [TypeError]. *)
Lemma cleaningOps_finished `{Browser} (doc : XMLDocument) :
  (finished (cleaningOps doc) = Ok tt <-> allStyled doc = true)
  /\ (allStyled doc = false -> finished (cleaningOps doc) = Throw TypeError).
Proof.
  assert (Hiff : finished (cleaningOps doc) = Ok tt <-> allStyled doc = true).
  { unfold cleaningOps, allStyled. rewrite forEach_finished_ok, forallb_forall. split.
    - intros Hall m Hm. apply in_flat_map in Hm as (c & Hc & Hm).
      destruct (isElement m) eqn:Em; [|done]. simpl.
      by apply (proj1 (childOps_finished_styled false c) (Hall c Hc) m).
    - intros Hall c Hc. apply childOps_finished_styled. intros m Hm Hel.
      specialize (Hall m). rewrite Hel in Hall. apply Hall.
      apply in_flat_map. by exists c. }
  split; [exact Hiff|]. intros Hns.
  assert (Hne : finished (cleaningOps doc) <> Ok tt) by (intros E%Hiff; congruence).
  clear Hiff. destruct (finished (cleaningOps doc)) as [[]|e|] eqn:E.
  - done.
  - unfold cleaningOps in E. apply finished_forEach_throw in E as (c & _ & Hc).
    destruct (childOps_finished_cases false c); congruence.
  - unfold cleaningOps in E. apply finished_forEach_diverge in E as (c & _ & Hc).
    destruct (childOps_finished_cases false c); congruence.
Qed.

Lemma node_attributes_mapElements g (n : Node) :
  g [] = [] -> node_attributes (mapElements g n) = g (node_attributes n).
Proof. by destruct n. Qed.

Lemma applyOp_inlineGradient `{Browser} grad gradRef refColor refOpacity (doc : XMLDocument) :
  fst (applyOp (OpInlineGradient grad gradRef refColor refOpacity) doc)
  = updateDocument grad (fun _ => [])
      (mapElements (inlineBoth gradRef refColor refOpacity) <$> doc).
Proof.
  simpl. f_equal. rewrite <- list_fmap_compose. apply list_fmap_ext.
  intros _ n _. simpl.
  exact (mapElements_compose (inlineAttr (js "fill") gradRef refColor refOpacity)
           (inlineAttr (js "stroke") gradRef refColor refOpacity) n).
Qed.

(** Every node left by the op of [inlineGradient] is a node of the
    document before, not the gradient, with its attributes rewritten. *)
Lemma applyOp_inlineGradient_nodes `{Browser} grad gradRef refColor refOpacity
    (working : XMLDocument) (m' : Node) :
  m' ∈ allNodes (fst (applyOp (OpInlineGradient grad gradRef refColor refOpacity) working)) ->
  exists m, m ∈ allNodes working /\ node_id m' = node_id m /\ node_id m <> grad
    /\ (references (node_attributes m) (js "fill") gradRef ->
          getAttribute (node_attributes m') (js "fill") = Some refColor
          /\ getAttribute (node_attributes m') (js "fill-opacity") = Some refOpacity)
    /\ (references (node_attributes m) (js "stroke") gradRef ->
          getAttribute (node_attributes m') (js "stroke") = Some refColor
          /\ getAttribute (node_attributes m') (js "stroke-opacity") = Some refOpacity)
    /\ (~ references (node_attributes m) (js "fill") gradRef ->
        ~ references (node_attributes m) (js "stroke") gradRef ->
        node_attributes m' = node_attributes m).
Proof.
  intros Hm'%list_elem_of_In. rewrite applyOp_inlineGradient in Hm'.
  apply updateDocument_remove_allNodes in Hm' as (m1 & Hm1 & Hid & Hne & Hattrs).
  rewrite allNodes_mapElements in Hm1.
  apply in_map_iff in Hm1 as (m & <- & Hm).
  rewrite node_id_mapElements in Hid, Hne.
  rewrite node_attributes_mapElements in Hattrs by done.
  exists m. rewrite list_elem_of_In. rewrite Hattrs.
  pose proof (inlineBoth_references gradRef refColor refOpacity (node_attributes m))
    as (Hf & Hs & Ho).
  done.
Qed.

(** C7: the op of [inlineGradient] is in the sequence only for an element
    named [linearGradient] or [radialGradient] that has an [id] attribute
    and a descendant [stop], and it carries the reference [#id] and the
    colour and opacity of the first [stop].  Applied to a document, it
    gives every element that refers to the gradient through [fill] or
    [stroke] that colour and the matching opacity attribute, leaves the
    other attributes alone, removes the gradient, and returns the
    [Infinity] backtrack. *)
Theorem inlineGradient_op `{Browser} (doc : XMLDocument) (grad : NodeId)
    (gradRef refColor refOpacity : jsstring) :
  OpInlineGradient grad gradRef refColor refOpacity ∈ cleaningOps doc ->
  (exists el refStop,
      el ∈ allNodes doc /\ node_id el = grad /\ isGradient el = true
      /\ hasAttribute (node_attributes el) (js "id") = true
      /\ List.find (isNamed (js "stop")) (descendants el) = Some refStop
      /\ gradRef = ch_hash :: orElse (getAttribute (node_attributes el) (js "id")) []
      /\ refColor = orElse (getAttribute (node_attributes refStop) (js "stop-color")) (js "black")
      /\ refOpacity = orElse (getAttribute (node_attributes refStop) (js "stop-opacity")) (js "1"))
  /\ forall working : XMLDocument,
      let result := applyOp (OpInlineGradient grad gradRef refColor refOpacity) working in
      backtrack (snd result) = Infinity
      /\ fst result
         = updateDocument grad (fun _ => [])
             (mapElements (inlineBoth gradRef refColor refOpacity) <$> working)
      /\ forall m', m' ∈ allNodes (fst result) ->
           exists m, m ∈ allNodes working /\ node_id m' = node_id m /\ node_id m <> grad
             /\ (references (node_attributes m) (js "fill") gradRef ->
                   getAttribute (node_attributes m') (js "fill") = Some refColor
                   /\ getAttribute (node_attributes m') (js "fill-opacity") = Some refOpacity)
             /\ (references (node_attributes m) (js "stroke") gradRef ->
                   getAttribute (node_attributes m') (js "stroke") = Some refColor
                   /\ getAttribute (node_attributes m') (js "stroke-opacity") = Some refOpacity)
             /\ (~ references (node_attributes m) (js "fill") gradRef ->
                 ~ references (node_attributes m) (js "stroke") gradRef ->
                 node_attributes m' = node_attributes m).
Proof.
  intros Hin%elem_of_generated. split.
  - destruct (cleaningOps_origin _ _ Hin) as (m & b & Hm & Hop).
    apply elementOps_inlineGradient in Hop as [Hgrad Hop].
    apply inlineGradient_inv in Hop as (Hid & refStop & Hstop & [= -> -> -> ->]).
    exists m, refStop. rewrite list_elem_of_In. done.
  - intros working result. split; [done|].
    assert (Hres : fst result
      = updateDocument grad (fun _ => [])
          (mapElements (inlineBoth gradRef refColor refOpacity) <$> working))
      by apply applyOp_inlineGradient.
    split; [exact Hres|].
    intros m' Hm'. by apply applyOp_inlineGradient_nodes.
Qed.

Lemma inlineGradient_op_witness :
  let op := OpInlineGradient [0; 0]%nat (js "#a") (js "black") (js "1") in
  (let result := @applyOp Toy.browser op (toyDocument gradientExample) in
   backtrack (snd result) = Infinity
   /\ Toy.serializeToString (fst result)
      = js "<svg xmlns=" ++ quoted SVG_NS
        ++ js "><rect fill=" ++ quoted (js "black") ++ js " stroke=" ++ quoted (js "black")
        ++ js " width=" ++ quoted (js "1") ++ js " height=" ++ quoted (js "1")
        ++ js " fill-opacity=" ++ quoted (js "1")
        ++ js " stroke-opacity=" ++ quoted (js "1") ++ js "/></svg>").
Proof.
  intros op.
  destruct (@inlineGradient_op Toy.browser (toyDocument gradientExample)
              [0; 0]%nat (js "#a") (js "black") (js "1")) as [_ Happ].
  - apply elem_of_generated. vm_compute.
    repeat (first [left; reflexivity | right]).
  - destruct (Happ (toyDocument gradientExample)) as (Hb & Hres & _).
    split; [exact Hb|]. vm_compute. reflexivity.
Defined.

(** The op of [inlineGradient] keeps every node that is not at or below
    the gradient, and gives it the rewritten attributes. *)
Lemma applyOp_inlineGradient_keeps `{Browser} grad gradRef refColor refOpacity
    (working : XMLDocument) (m : Node) :
  m ∈ allNodes working ->
  (forall g x, g ∈ allNodes working -> node_id g = grad -> x ∈ subtree g ->
               node_id x <> node_id m) ->
  exists m',
    m' ∈ allNodes (fst (applyOp (OpInlineGradient grad gradRef refColor refOpacity) working))
    /\ node_id m' = node_id m
    /\ node_attributes m' = inlineBoth gradRef refColor refOpacity (node_attributes m).
Proof.
  intros Hm%list_elem_of_In Hout. rewrite applyOp_inlineGradient.
  destruct (updateDocument_remove_keeps grad
              (mapElements (inlineBoth gradRef refColor refOpacity) <$> working)
              (mapElements (inlineBoth gradRef refColor refOpacity) m))
    as (m' & Hm' & Hid & Hattrs).
  - rewrite allNodes_mapElements. by apply in_map.
  - intros g x Hg Hgid Hx. rewrite allNodes_mapElements in Hg.
    apply in_map_iff in Hg as (g0 & <- & Hg0).
    rewrite subtree_mapElements in Hx. apply in_map_iff in Hx as (x0 & <- & Hx0).
    rewrite !node_id_mapElements in *.
    apply (Hout g0 x0); [by apply list_elem_of_In|done|by apply list_elem_of_In].
  - exists m'. rewrite list_elem_of_In. split; [done|].
    rewrite node_id_mapElements in Hid.
    rewrite node_attributes_mapElements in Hattrs by done. done.
Qed.

(** C10: when the first [stop] of the gradient has no [stop-color]
    attribute (or an empty one) the op carries the colour [black], and
    without a [stop-opacity] attribute the opacity [1].  Applied to a
    document, the op writes these values: every element that refers to
    the gradient through [fill] or [stroke] and is not at or below the
    gradient is in the document after the call, with this colour in that
    attribute and this opacity in the matching opacity attribute; and
    every node of the document after the call is such a node of the
    document before. *)
Theorem inlineGradient_defaults (grad refStop : Node) :
  hasAttribute (node_attributes grad) (js "id") = true ->
  querySelectorStop grad = Some refStop ->
  exists gradRef refColor refOpacity,
    inlineGradient grad = [OpInlineGradient (node_id grad) gradRef refColor refOpacity]
    /\ (getAttribute (node_attributes refStop) (js "stop-color") = None
        \/ getAttribute (node_attributes refStop) (js "stop-color") = Some [] ->
        refColor = js "black")
    /\ (getAttribute (node_attributes refStop) (js "stop-opacity") = None
        \/ getAttribute (node_attributes refStop) (js "stop-opacity") = Some [] ->
        refOpacity = js "1")
    /\ forall (B : Browser) (working : XMLDocument),
        let result :=
          fst (applyOp (OpInlineGradient (node_id grad) gradRef refColor refOpacity) working) in
        (forall m, m ∈ allNodes working ->
           (forall g x, g ∈ allNodes working -> node_id g = node_id grad -> x ∈ subtree g ->
                        node_id x <> node_id m) ->
           exists m', m' ∈ allNodes result /\ node_id m' = node_id m
             /\ (references (node_attributes m) (js "fill") gradRef ->
                   getAttribute (node_attributes m') (js "fill") = Some refColor
                   /\ getAttribute (node_attributes m') (js "fill-opacity") = Some refOpacity)
             /\ (references (node_attributes m) (js "stroke") gradRef ->
                   getAttribute (node_attributes m') (js "stroke") = Some refColor
                   /\ getAttribute (node_attributes m') (js "stroke-opacity")
                      = Some refOpacity))
        /\ (forall m', m' ∈ allNodes result ->
             exists m, m ∈ allNodes working /\ node_id m' = node_id m
               /\ (references (node_attributes m) (js "fill") gradRef ->
                     getAttribute (node_attributes m') (js "fill") = Some refColor
                     /\ getAttribute (node_attributes m') (js "fill-opacity")
                        = Some refOpacity)
               /\ (references (node_attributes m) (js "stroke") gradRef ->
                     getAttribute (node_attributes m') (js "stroke") = Some refColor
                     /\ getAttribute (node_attributes m') (js "stroke-opacity")
                        = Some refOpacity)).
Proof.
  intros Hid Hstop.
  exists (ch_hash :: orElse (getAttribute (node_attributes grad) (js "id")) []),
    (orElse (getAttribute (node_attributes refStop) (js "stop-color")) (js "black")),
    (orElse (getAttribute (node_attributes refStop) (js "stop-opacity")) (js "1")).
  split; [|split; [|split]].
  - unfold inlineGradient. by rewrite Hid, Hstop.
  - by intros [->| ->].
  - by intros [->| ->].
  - intros B working result. split.
    + intros m Hm Hout.
      destruct (applyOp_inlineGradient_keeps (node_id grad)
                  (ch_hash :: orElse (getAttribute (node_attributes grad) (js "id")) [])
                  (orElse (getAttribute (node_attributes refStop) (js "stop-color"))
                          (js "black"))
                  (orElse (getAttribute (node_attributes refStop) (js "stop-opacity"))
                          (js "1"))
                  working m Hm Hout) as (m' & Hm' & Hmid & Hattrs).
      exists m'. split; [done|]. split; [done|]. rewrite Hattrs.
      pose proof (inlineBoth_references
                    (ch_hash :: orElse (getAttribute (node_attributes grad) (js "id")) [])
                    (orElse (getAttribute (node_attributes refStop) (js "stop-color"))
                            (js "black"))
                    (orElse (getAttribute (node_attributes refStop) (js "stop-opacity"))
                            (js "1"))
                    (node_attributes m)) as (Hf & Hs & _).
      done.
    + intros m' Hm'.
      destruct (applyOp_inlineGradient_nodes _ _ _ _ _ _ Hm') as (m & ? & ? & ? & ? & ? & ?).
      by exists m.
Qed.

Lemma inlineGradient_defaults_witness :
  let stop := Element [0; 0; 0]%nat (js "stop") (Some SVG_NS) [plainAttr "offset" "0"] [] in
  let grad := Element [0; 0]%nat (js "linearGradient") (Some SVG_NS) [plainAttr "id" "a"] [stop] in
  let op := OpInlineGradient [0; 0]%nat (js "#a") (js "black") (js "1") in
  inlineGradient grad = [op]
  /\ exists rect,
       rect ∈ allNodes (fst (@applyOp Toy.browser op (toyDocument gradientExample)))
       /\ node_id rect = [0; 1]%nat
       /\ getAttribute (node_attributes rect) (js "fill") = Some (js "black")
       /\ getAttribute (node_attributes rect) (js "fill-opacity") = Some (js "1")
       /\ getAttribute (node_attributes rect) (js "stroke") = Some (js "black")
       /\ getAttribute (node_attributes rect) (js "stroke-opacity") = Some (js "1").
Proof.
  intros stop grad op.
  destruct (inlineGradient_defaults grad stop) as (r & c & o & Heq & Hc & Ho & Happ);
    [reflexivity|reflexivity|].
  pose proof (Hc (or_introl eq_refl)) as ->. pose proof (Ho (or_introl eq_refl)) as ->.
  assert (Hr : r = js "#a") by (vm_compute in Heq; by injection Heq as <-). subst r.
  split; [exact Heq|].
  destruct (Happ Toy.browser (toyDocument gradientExample)) as [Hkeep _].
  destruct (Hkeep (Element [0; 1]%nat (js "rect") (Some SVG_NS)
                     [plainAttr "fill" "url(#a)"; plainAttr "stroke" " URL( #a )";
                      plainAttr "width" "1"; plainAttr "height" "1"] []))
    as (rect & Hin & Hrid & Hfill & Hstroke).
  - apply list_elem_of_In. vm_compute. do 3 right. left. reflexivity.
  - intros g x Hg Hgid Hx.
    apply list_elem_of_In in Hg. vm_compute in Hg.
    repeat (destruct Hg as [<-|Hg]; [try (vm_compute in Hgid; discriminate)|]);
      [|destruct Hg].
    apply list_elem_of_In in Hx. vm_compute in Hx.
    repeat (destruct Hx as [<-|Hx]; [vm_compute; discriminate|]). destruct Hx.
  - exists rect. split; [exact Hin|]. split; [exact Hrid|].
    destruct Hfill as [-> ->]; [split; vm_compute; reflexivity|].
    destruct Hstroke as [-> ->]; [split; vm_compute; reflexivity|]. done.
Defined.

(** ** Validation *)

Lemma SFcompare_antisym (a b : SpecFloat.spec_float) :
  SpecFloat.SFcompare b a = option_map CompOpp (SpecFloat.SFcompare a b).
Proof.
  destruct a as [sa|sa| |sa ma ea], b as [sb|sb| |sb mb eb]; simpl; try done;
    try (by destruct sa); try (by destruct sb); try (by destruct sa, sb).
  destruct sa, sb; simpl; try done.
  - rewrite (Z.compare_antisym ea eb).
    destruct (Z.compare ea eb); simpl; try done.
    pose proof (Pos.compare_cont_antisym ma mb Eq) as Hp. simpl in Hp.
    rewrite <- Hp. by rewrite CompOpp_involutive.
  - rewrite (Z.compare_antisym ea eb).
    destruct (Z.compare ea eb); simpl; try done.
    pose proof (Pos.compare_cont_antisym ma mb Eq) as Hp. simpl in Hp.
    by rewrite <- Hp.
Qed.

Lemma is_nan_false_compare (x y : float) :
  PrimFloat.is_nan x = false -> PrimFloat.is_nan y = false ->
  exists c, SpecFloat.SFcompare (Prim2SF x) (Prim2SF y) = Some c.
Proof.
  unfold PrimFloat.is_nan. intros Hx%negb_false_iff Hy%negb_false_iff.
  rewrite FloatAxioms.eqb_spec in Hx, Hy. unfold SpecFloat.SFeqb in Hx, Hy.
  destruct (Prim2SF x) as [| |  |], (Prim2SF y) as [| | |]; simpl in *; try done; eauto.
Qed.

(** On numbers, not below the threshold is the negation of below it. *)
Lemma leb_ltb_number (x y : float) :
  PrimFloat.is_nan x = false -> PrimFloat.is_nan y = false ->
  (x <=? y)%float = negb (y <? x)%float.
Proof.
  intros Hx Hy. rewrite FloatAxioms.leb_spec, FloatAxioms.ltb_spec.
  unfold SpecFloat.SFleb, SpecFloat.SFltb.
  rewrite (SFcompare_antisym (Prim2SF x) (Prim2SF y)).
  destruct (is_nan_false_compare x y Hx Hy) as [c ->]. by destruct c.
Qed.

Section Validation.
Context `{Browser}.

(** One policy lets the candidate pass exactly when the score at 1x is not
    positive, or the check is not strict and the score grows by less than
    the threshold from 1x to 2x. *)
Lemma checkComparator_ok (fuel : nat) (a b : jsstring) (strict : bool) (c : Comparator) :
  (strict = false ->
   forall s1 s2, compare fuel c a b 1 = Ok s1 -> (s1 <=? 0)%float = false ->
                 compare fuel c a b 2 = Ok s2 -> PrimFloat.is_nan (s2 / s1) = false) ->
  fst (checkComparator fuel a b strict c) = Ok tt
  <-> exists s1, compare fuel c a b 1 = Ok s1
        /\ ((s1 <=? 0)%float = true
            \/ (strict = false
                /\ exists s2, compare fuel c a b 2 = Ok s2
                     /\ (s2 / s1 <? areaDefectThreshold)%float = true)).
Proof.
  intros Hnum. unfold checkComparator.
  destruct (compare fuel c a b 1) as [s1| |] eqn:E1; simpl.
  2,3: split; [done|by intros (? & ? & _)].
  destruct (s1 <=? 0)%float eqn:Ele; simpl.
  { split; [|done]. intros _. exists s1. split; [done|by left]. }
  destruct strict; simpl.
  { split; [done|]. intros (s & [= <-] & [?|[? _]]); congruence. }
  destruct (compare fuel c a b 2) as [s2| |] eqn:E2; simpl.
  2,3: split; [done|]; intros (s & [= <-] & [?|(_ & ? & ? & _)]); congruence.
  rewrite (leb_ltb_number areaDefectThreshold (s2 / s1)) by (done || by apply Hnum).
  destruct (s2 / s1 <? areaDefectThreshold)%float eqn:Elt; simpl.
  - split; [|done]. intros _. exists s1. split; [done|]. right. split; [done|]. by exists s2.
  - split; [done|]. intros (s & [= <-] & [?|(_ & s' & [= <-] & ?)]); congruence.
Qed.

(** A strict check never asks for the 2x rendering. *)
Lemma checkComparator_strict_calls (fuel : nat) (a b : jsstring) (c : Comparator) :
  snd (checkComparator fuel a b true c) = [mkCompareCall c 1].
Proof.
  unfold checkComparator.
  destruct (compare fuel c a b 1) as [s1| |]; simpl; [|done|done].
  by destruct (s1 <=? 0)%float.
Qed.

Lemma assertVisuallySame_ok (fuel : nat) (a b : jsstring) (strict : bool)
    (comparators : list Comparator) :
  fst (assertVisuallySame fuel a b comparators strict) = Ok tt
  <-> forall c, c ∈ comparators -> fst (checkComparator fuel a b strict c) = Ok tt.
Proof.
  induction comparators as [|c cs IH]; simpl.
  - split; [|done]. by intros _ c ?%elem_of_nil.
  - destruct (checkComparator fuel a b strict c) as [r calls] eqn:E.
    destruct r as [[]| |]; simpl.
    + destruct (assertVisuallySame fuel a b cs strict) as [r' calls'] eqn:E'. simpl in *.
      rewrite IH.
      split.
      * intros Hcs c' [->|Hin]%elem_of_cons; [by rewrite E|by apply Hcs].
      * intros Hall c' Hin. apply Hall. by right.
    + split; [done|]. intros Hall. specialize (Hall c (list_elem_of_here _ _)).
      by rewrite E in Hall.
    + split; [done|]. intros Hall. specialize (Hall c (list_elem_of_here _ _)).
      by rewrite E in Hall.
Qed.

Lemma assertVisuallySame_strict_calls (fuel : nat) (a b : jsstring)
    (comparators : list Comparator) :
  Forall (fun call => call_scale call = 1%float)
         (snd (assertVisuallySame fuel a b comparators true)).
Proof.
  induction comparators as [|c cs IH]; simpl; [done|].
  pose proof (checkComparator_strict_calls fuel a b c) as Hc.
  destruct (checkComparator fuel a b true c) as [r calls]. simpl in Hc. subst calls.
  destruct r as [[]| |]; simpl.
  - destruct (assertVisuallySame fuel a b cs true) as [r' calls']. simpl in *.
    by constructor.
  - by repeat constructor.
  - by repeat constructor.
Qed.

End Validation.

(** C3: with the two policies of [unjunk], a candidate is accepted exactly
    when under each policy the score at 1x is at most 0, or the check is
    not strict (neither the global lossless flag nor the op asks for it)
    and the score at 2x divided by the score at 1x is below [2 ** 1.5]; a
    strict check never renders at 2x and rejects as soon as a score at 1x
    is positive.  The code tests the quotient with [>=]; the hypothesis
    says that where the code computes the quotient (the check is not
    strict and the score at 1x is not at most 0) it is a number, as a
    quotient of two sums of distances is.  Nothing is asked where no
    quotient is computed: two renderings that score 0 are accepted. *)
Theorem assertVisuallySame_policy `{Browser} (fuel : nat) (a b : jsstring) (scale : float)
    (lossless forceStrict : bool) :
  let comparators := [DefaultImageComparator scale; RecoloredImageComparator scale] in
  let strict := lossless || forceStrict in
  (strict = false ->
   forall c s1 s2, c ∈ comparators ->
     compare fuel c a b 1 = Ok s1 -> (s1 <=? 0)%float = false ->
     compare fuel c a b 2 = Ok s2 ->
     PrimFloat.is_nan (s2 / s1) = false) ->
  (fst (assertVisuallySame fuel a b comparators strict) = Ok tt
   <-> forall c, c ∈ comparators ->
         exists s1, compare fuel c a b 1 = Ok s1
           /\ ((s1 <=? 0)%float = true
               \/ (strict = false
                   /\ exists s2, compare fuel c a b 2 = Ok s2
                        /\ (s2 / s1 <? areaDefectThreshold)%float = true)))
  /\ (strict = true ->
      Forall (fun call => call_scale call = 1%float)
             (snd (assertVisuallySame fuel a b comparators strict))
      /\ forall c s1, c ∈ comparators -> compare fuel c a b 1 = Ok s1 ->
           (s1 <=? 0)%float = false ->
           fst (assertVisuallySame fuel a b comparators strict) <> Ok tt).
Proof.
  intros comparators strict Hnum.
  assert (Hiff : fst (assertVisuallySame fuel a b comparators strict) = Ok tt
   <-> forall c, c ∈ comparators ->
         exists s1, compare fuel c a b 1 = Ok s1
           /\ ((s1 <=? 0)%float = true
               \/ (strict = false
                   /\ exists s2, compare fuel c a b 2 = Ok s2
                        /\ (s2 / s1 <? areaDefectThreshold)%float = true))).
  { rewrite assertVisuallySame_ok.
    split; intros Hall c Hc.
    + apply checkComparator_ok; [|by apply Hall]. intros Hs s1 s2. by apply Hnum.
    + apply checkComparator_ok; [|by apply Hall]. intros Hs s1 s2. by apply Hnum. }
  split; [exact Hiff|]. intros Hstrict. split.
  - rewrite Hstrict. apply assertVisuallySame_strict_calls.
  - intros c s1 Hc H1 Hpos Hok. destruct Hiff as [Hfwd _].
    destruct (Hfwd Hok c Hc) as (s & Hs & [Hle|[Hns _]]); congruence.
Qed.

(** Two equal renderings are accepted, a rendering with another fill is
    not. *)
Lemma assertVisuallySame_policy_witness :
  fst (@assertVisuallySame Toy.browser 3 rectPlain rectPlain
         [DefaultImageComparator 2; RecoloredImageComparator 2] (false || false))
  = Ok tt
  /\ fst (@assertVisuallySame Toy.browser 3 rectPlain rectRed
            [DefaultImageComparator 2; RecoloredImageComparator 2] (false || false))
     <> Ok tt.
Proof.
  split.
  - destruct (@assertVisuallySame_policy Toy.browser 3 rectPlain rectPlain 2 false false)
      as [[_ Hbwd] _].
    + intros _ c s1 s2 Hc H1 Hpos H2.
      apply elem_of_cons in Hc as [->|Hc];
        [|apply elem_of_cons in Hc as [->|Hc]; [|by apply elem_of_nil in Hc]];
        vm_compute in H1; injection H1 as <-; vm_compute in Hpos; discriminate.
    + apply Hbwd. intros c Hc.
      apply elem_of_cons in Hc as [->|Hc];
        [|apply elem_of_cons in Hc as [->|Hc]; [|by apply elem_of_nil in Hc]];
        (exists 0%float; split; [vm_compute; reflexivity|left; vm_compute; reflexivity]).
  - destruct (@assertVisuallySame_policy Toy.browser 3 rectPlain rectRed 2 false false)
      as [Hiff _].
    + intros _ c s1 s2 Hc H1 Hpos H2.
      apply elem_of_cons in Hc as [->|Hc];
        [|apply elem_of_cons in Hc as [->|Hc]; [|by apply elem_of_nil in Hc]];
        vm_compute in H1, H2; injection H1 as <-; injection H2 as <-;
        vm_compute; reflexivity.
    + intros Hok. destruct Hiff as [Hfwd _]. specialize (Hfwd Hok).
      destruct (Hfwd (DefaultImageComparator 2)) as (s1 & H1 & Hcase); [by left|].
      vm_compute in H1. injection H1 as <-.
      destruct Hcase as [Hle|(_ & s2 & H2 & Hlt)].
      * vm_compute in Hle. discriminate.
      * vm_compute in H2. injection H2 as <-. vm_compute in Hlt. discriminate.
Defined.
(** ** The driver *)

Section Driver.
Context `{Browser}.

Lemma applyAll_cons (op : CleaningOp) (ops : list CleaningOp) (doc : XMLDocument) :
  applyAll (op :: ops) doc = applyAll ops (fst (applyOp op doc)).
Proof. reflexivity. Qed.

(** A pass goes to the first candidate at or after [skipOps] whose call
    changes the markup, and ends by the verdict on it. *)
Lemma walkOps_reaches (fuel : nat) (comparators : list Comparator) (lossless : bool)
    (ops : list CleaningOp) (fin : Outcome unit) (opNumber skipOps : nat) (doc : XMLDocument)
    (svgCode : jsstring) (i : nat) (op : CleaningOp) :
  let d := (skipOps - opNumber)%nat in
  let before := take (i - d) (drop d ops) in
  let result := applyOp op (applyAll before doc) in
  let newSvgCode := serialize (fst result) in
  ops !! i = Some op -> (d <= i)%nat ->
  (forall k, (k < i - d)%nat ->
     serialize (applyAll (take (S k) (drop d ops)) doc) = svgCode) ->
  newSvgCode <> svgCode ->
  walkOps fuel comparators lossless ops fin opNumber skipOps doc svgCode
  = passResult (opNumber + i) svgCode newSvgCode (snd result)
      (fst (assertVisuallySame fuel newSvgCode svgCode comparators
              (lossless || forceLossless (snd result)))).
Proof.
  cbv zeta. revert opNumber skipOps doc i.
  induction ops as [|op0 ops IH]; intros opNumber skipOps doc i Hi Hd Hnoop Hne; [done|].
  simpl walkOps. destruct (opNumber <? skipOps)%nat eqn:Elt.
  - apply Nat.ltb_lt in Elt.
    destruct i as [|i]; [lia|]. simpl in Hi.
    replace (skipOps - opNumber)%nat with (S (skipOps - S opNumber)) in * by lia.
    simpl in Hnoop, Hne |- *.
    replace (opNumber + S i)%nat with (S opNumber + i)%nat by lia.
    apply IH; [done|lia|exact Hnoop|exact Hne].
  - apply Nat.ltb_ge in Elt.
    replace (skipOps - opNumber)%nat with 0%nat in * by lia.
    rewrite drop_0, Nat.sub_0_r in *.
    destruct i as [|i].
    + simpl in Hi. injection Hi as ->. simpl in Hne |- *.
      change (applyAll [] doc) with doc in *.
      destruct (applyOp op doc) as [doc' r] eqn:Eop. simpl in *.
      rewrite (str_eqb_ne _ _ Hne), Nat.add_0_r. done.
    + simpl in Hi.
      pose proof (Hnoop 0%nat ltac:(lia)) as H0.
      change (take 1 (op0 :: ops)) with [op0] in H0.
      rewrite applyAll_cons in H0. change (applyAll [] ?x) with x in H0.
      destruct (applyOp op0 doc) as [doc' r] eqn:Eop. simpl in H0.
      apply str_eqb_eq in H0. rewrite H0.
      change (take (S i) (op0 :: ops)) with (op0 :: take i ops) in *.
      rewrite applyAll_cons, Eop in *. simpl fst in *.
      replace (opNumber + S i)%nat with (S opNumber + i)%nat by lia.
      specialize (IH (S opNumber) (S opNumber) doc' i).
      replace (S opNumber - S opNumber)%nat with 0%nat in IH by lia.
      rewrite drop_0, Nat.sub_0_r in IH.
      apply IH; [done|lia| |exact Hne].
      intros k Hk. specialize (Hnoop (S k) ltac:(lia)).
      change (take (S (S k)) (op0 :: ops)) with (op0 :: take (S k) ops) in Hnoop.
      by rewrite applyAll_cons, Eop in Hnoop.
Qed.

(** A pass that ends in a restart validated one candidate: the first one
    at or after [skipOps] whose call changed the markup. *)
Lemma walkOps_restart (fuel : nat) (comparators : list Comparator) (lossless : bool)
    (ops : list CleaningOp) (fin : Outcome unit) (opNumber skipOps : nat) (doc : XMLDocument)
    (svgCode svgCode' : jsstring) (skipOps' : nat) :
  walkOps fuel comparators lossless ops fin opNumber skipOps doc svgCode
    = Restart svgCode' skipOps' ->
  exists (i : nat) (op : CleaningOp),
    let d := (skipOps - opNumber)%nat in
    let before := take (i - d) (drop d ops) in
    let result := applyOp op (applyAll before doc) in
    let newSvgCode := serialize (fst result) in
    let verdict := fst (assertVisuallySame fuel newSvgCode svgCode comparators
                          (lossless || forceLossless (snd result))) in
    ops !! i = Some op /\ (d <= i)%nat
    /\ (forall k, (k < i - d)%nat ->
          serialize (applyAll (take (S k) (drop d ops)) doc) = svgCode)
    /\ newSvgCode <> svgCode
    /\ ((verdict = Ok tt /\ svgCode' = newSvgCode
         /\ skipOps' = match backtrack (snd result) with
                       | Steps n => Nat.max (opNumber + i - n) 0
                       | Infinity => 0%nat
                       end)
        \/ (exists e, verdict = Throw e /\ svgCode' = svgCode
                      /\ skipOps' = S (opNumber + i))).
Proof.
  revert opNumber skipOps doc. cbv zeta.
  induction ops as [|op ops IH]; intros opNumber skipOps doc.
  { simpl. by destruct fin. }
  simpl. destruct (opNumber <? skipOps)%nat eqn:Elt.
  - apply Nat.ltb_lt in Elt. intros Hw.
    destruct (IH _ _ _ Hw) as (i & op' & Hi & Hd & Hnoop & Hne & Hcase).
    exists (S i), op'.
    replace (skipOps - opNumber)%nat with (S (skipOps - S opNumber)) by lia.
    simpl. replace (opNumber + S i)%nat with (S opNumber + i)%nat by lia.
    repeat split; [done|lia|exact Hnoop|exact Hne|exact Hcase].
  - apply Nat.ltb_ge in Elt.
    replace (skipOps - opNumber)%nat with 0%nat by lia.
    destruct (applyOp op doc) as [doc' r] eqn:Eop.
    destruct (str_eqb (serialize doc') svgCode) eqn:Eser.
    + intros Hw. apply str_eqb_eq in Eser.
      destruct (IH _ _ _ Hw) as (i & op' & Hi & Hd & Hnoop & Hne & Hcase).
      replace (S opNumber - S opNumber)%nat with 0%nat in * by lia.
      rewrite ?drop_0, ?Nat.sub_0_r in *.
      exists (S i), op'. rewrite ?drop_0, ?Nat.sub_0_r. simpl.
      unfold applyAll in *. simpl. rewrite Eop. simpl.
      replace (opNumber + S i)%nat with (S opNumber + i)%nat by lia.
      repeat split; [done|lia| |exact Hne|exact Hcase].
      intros [|k] Hk; simpl; rewrite ?Eop; simpl; [done|].
      apply Hnoop. lia.
    + assert (Hne : serialize doc' <> svgCode).
      { intros Heq. apply str_eqb_eq in Heq. congruence. }
      intros Hw. exists 0%nat, op. rewrite ?drop_0. simpl.
      unfold applyAll. simpl. rewrite Eop. simpl. rewrite Nat.add_0_r.
      repeat split; [lia|intros k Hk; lia|exact Hne|].
      destruct (assertVisuallySame fuel (serialize doc') svgCode comparators
                  (lossless || forceLossless r)) as [v calls]. simpl in *.
      destruct v as [[]|e|]; [left|right|done].
      * injection Hw as <- <-. repeat split.
        destruct (backtrack r); simpl; [lia|done].
      * injection Hw as <- <-. by exists e.
Qed.

End Driver.

(** C4: a pass of the driver goes to the first candidate at an index that
    is at least [skipOps] and whose call changes the markup; the
    candidates between [skipOps] and this index are called and leave the
    markup as it was.  When this candidate is accepted the pass restarts
    with the new markup and [skipOps] is the index minus the backtrack of
    the op, not below 0; the [Infinity] backtrack, which the op of
    [inlineGradient] returns, gives 0.  When it is rejected the pass
    restarts with the markup as it was and [skipOps] is the index plus
    one, the value set before the op was called.  Conversely a pass that
    restarts has reached such a candidate. *)
Theorem walkOps_skip `{Browser} (fuel : nat) (comparators : list Comparator) (lossless : bool)
    (ops : list CleaningOp) (finished : Outcome unit) (skipOps : nat) (doc : XMLDocument)
    (svgCode : jsstring) :
  let pass := walkOps fuel comparators lossless ops finished 0 skipOps doc svgCode in
  let reached (index : nat) (op : CleaningOp) :=
    ops !! index = Some op /\ (skipOps <= index)%nat
    /\ (forall k, (k < index - skipOps)%nat ->
          serialize (applyAll (take (S k) (drop skipOps ops)) doc) = svgCode)
    /\ serialize (fst (applyOp op (applyAll (take (index - skipOps) (drop skipOps ops)) doc)))
       <> svgCode in
  (forall index op, reached index op ->
     let result := applyOp op (applyAll (take (index - skipOps) (drop skipOps ops)) doc) in
     let newSvgCode := serialize (fst result) in
     let verdict := fst (assertVisuallySame fuel newSvgCode svgCode comparators
                           (lossless || forceLossless (snd result))) in
     (verdict = Ok tt ->
        pass = Restart newSvgCode
                 match backtrack (snd result) with
                 | Steps n => Nat.max (index - n) 0
                 | Infinity => 0%nat
                 end)
     /\ (forall grad gradRef refColor refOpacity,
           op = OpInlineGradient grad gradRef refColor refOpacity ->
           verdict = Ok tt -> pass = Restart newSvgCode 0)
     /\ (forall e, verdict = Throw e -> pass = Restart svgCode (S index)))
  /\ (forall svgCode' skipOps', pass = Restart svgCode' skipOps' ->
        exists index op, reached index op).
Proof.
  intros pass reached. split.
  - intros index op (Hi & Hle & Hnoop & Hne) result newSvgCode verdict.
    pose proof (walkOps_reaches fuel comparators lossless ops finished 0 skipOps doc svgCode
                  index op) as Hw.
    cbv zeta in Hw. rewrite Nat.sub_0_r in Hw. specialize (Hw Hi Hle Hnoop Hne).
    fold result newSvgCode verdict pass in Hw. simpl in Hw.
    split; [|split].
    + intros Hv. rewrite Hw, Hv. simpl. f_equal.
      destruct (backtrack (snd result)); simpl; lia.
    + intros grad gradRef refColor refOpacity -> Hv. rewrite Hw, Hv. done.
    + intros e Hv. by rewrite Hw, Hv.
  - intros svgCode' skipOps' Hw. apply walkOps_restart in Hw as (i & op & Hw).
    cbv zeta in Hw. rewrite Nat.sub_0_r in Hw.
    destruct Hw as (Hi & Hd & Hnoop & Hne & _). by exists i, op.
Qed.

(** On the markup with a stroke of no width: the removal of the [rect]
    and of [stroke-width] have been rejected, the pass that starts at 2
    reaches the removal of [stroke], which is accepted, and restarts at
    2. *)
Lemma walkOps_skip_witness :
  let doc := toyDocument strokeSized in
  let svgCode := strokeSized in
  let opGenerator := @cleaningOps Toy.browser doc in
  @walkOps Toy.browser 3 [DefaultImageComparator 2; RecoloredImageComparator 2] false
    (yielded opGenerator) (finished opGenerator) 0 2 doc svgCode
  = Restart
      (Toy.serializeToString
         (fst (@applyOp Toy.browser (OpRemoveAttribute [0; 0]%nat (js "stroke")) doc)))
      2.
Proof.
  intros doc svgCode opGenerator.
  destruct (@walkOps_skip Toy.browser 3
              [DefaultImageComparator 2; RecoloredImageComparator 2] false
              (yielded opGenerator) (finished opGenerator) 2 doc svgCode) as [Hfwd _].
  destruct (Hfwd 2%nat (OpRemoveAttribute [0; 0]%nat (js "stroke"))) as (Hok & _).
  - split; [vm_compute; reflexivity|]. split; [lia|]. split; [intros k Hk; lia|].
    vm_compute. discriminate.
  - apply Hok. vm_compute. reflexivity.
Defined.

(** ** Parsing *)

Section Parsing.
Context `{Browser}.


Lemma rootIsSvg_not_recoverable (doc : XMLDocument) : rootIsSvg doc -> ~ recoverable doc.
Proof. intros (? & ? & ? & Hr) [(? & ? & ? & ? & Hr') _]. congruence. Qed.




(** More allowance does not change an answer. *)
Lemma parse_fuel_mono (fuel : nat) (svgCode : jsstring) :
  parse fuel svgCode <> Diverge -> parse (S fuel) svgCode = parse fuel svgCode.
Proof.
  revert svgCode. induction fuel as [|fuel IH]; intros svgCode; [done|].
  intros Hnd. remember (S fuel) as f eqn:Hf. simpl. subst f. simpl in Hnd |- *.
  destruct (documentElement _) as [[id name ns attrs ch|]|]; try done.
  case_bool_decide; [done|].
  destruct (textContent <$> parserErrorDiv _) as [[|c text]|]; try done.
  - destruct ns; [done|]. by apply IH.
  - destruct ns; [done|]. by apply IH.
Qed.

End Parsing.

Section Surfacing.
Context `{Browser}.















End Surfacing.



(** C6 as stated fails: the input parses, its three candidates are
    rejected one after the other, and the fourth pass runs the generator
    to the loop over the style of the element [x], which has none:
    [unjunk] throws a [TypeError]. *)
Lemma unjunk_throws_TypeError :
  (exists doc, @parse Toy.browser 3 foreignExample = Ok doc)
  /\ @unjunk Toy.browser 3 foreignExample (mkOptions None false) = Throw TypeError.
Proof. split; [eexists|]; vm_compute; reflexivity. Qed.

(** ** Stable sorting *)

Section StableSortFacts.
Context {A : Type} (key : A -> nat).

Lemma insertSorted_Permutation (x : A) (l : list A) : insertSorted key x l ≡ₚ x :: l.
Proof.
  induction l as [|y l IH]; simpl; [done|].
  destruct (key x <=? key y)%nat; [done|].
  rewrite IH. apply perm_swap.
Qed.

Lemma stableSort_Permutation (l : list A) : stableSort key l ≡ₚ l.
Proof.
  induction l as [|x l IH]; simpl; [done|].
  by rewrite insertSorted_Permutation, IH.
Qed.

Lemma insertSorted_sorted (x : A) (l : list A) :
  StronglySorted (fun a b => key a <= key b)%nat l ->
  StronglySorted (fun a b => key a <= key b)%nat (insertSorted key x l).
Proof.
  induction 1 as [|y l Hs IH Hall]; simpl; [repeat constructor|].
  destruct (key x <=? key y)%nat eqn:E.
  - apply Nat.leb_le in E. constructor; [by constructor|].
    constructor; [done|]. eapply Forall_impl; [exact Hall|]. simpl. intros; lia.
  - apply Nat.leb_gt in E. constructor; [exact IH|].
    rewrite insertSorted_Permutation. constructor; [lia|done].
Qed.

Lemma stableSort_sorted (l : list A) :
  StronglySorted (fun a b => key a <= key b)%nat (stableSort key l).
Proof.
  induction l as [|x l IH]; simpl; [constructor|]. by apply insertSorted_sorted.
Qed.

(** A sorted list is left as it is. *)
Lemma stableSort_id (l : list A) :
  StronglySorted (fun a b => key a <= key b)%nat l -> stableSort key l = l.
Proof.
  induction 1 as [|x l Hs IH Hall]; simpl; [done|].
  rewrite IH. destruct l as [|y l]; simpl; [done|].
  apply Forall_cons in Hall as [Hxy _].
  by rewrite (proj2 (Nat.leb_le _ _) Hxy).
Qed.

Lemma insertSorted_app_l (x : A) (l k : list A) :
  Forall (fun b => key x <= key b)%nat k ->
  insertSorted key x (l ++ k) = insertSorted key x l ++ k.
Proof.
  intros Hk. induction l as [|y l IH]; simpl.
  - destruct k as [|b k]; simpl; [done|].
    apply Forall_cons in Hk as [Hb _]. by rewrite (proj2 (Nat.leb_le _ _) Hb).
  - destruct (key x <=? key y)%nat; [done|]. by rewrite IH.
Qed.

Lemma insertSorted_app_r (x : A) (l k : list A) :
  Forall (fun a => key a < key x)%nat l ->
  insertSorted key x (l ++ k) = l ++ insertSorted key x k.
Proof.
  induction 1 as [|y l Hy _ IH]; simpl; [done|].
  rewrite (proj2 (Nat.leb_gt _ _) Hy). by rewrite IH.
Qed.

(** When the elements that satisfy [p] have the smaller keys, sorting
    sorts them and the others apart. *)
Lemma stableSort_split (p : A -> bool) (l : list A) :
  (forall a b, a ∈ l -> b ∈ l -> p a = true -> p b = false -> (key a < key b)%nat) ->
  stableSort key l
  = stableSort key (List.filter p l)
    ++ stableSort key (List.filter (fun a => negb (p a)) l).
Proof.
  induction l as [|x l IH]; intros Hsep; simpl; [done|].
  rewrite IH by (intros a b Ha Hb; apply Hsep; by right).
  destruct (p x) eqn:Epx; simpl.
  - apply insertSorted_app_l.
    rewrite stableSort_Permutation. apply Forall_forall.
    intros b Hb%list_elem_of_In%filter_In. destruct Hb as [Hb Hpb].
    apply negb_true_iff in Hpb. apply list_elem_of_In in Hb.
    apply Nat.lt_le_incl, Hsep; [by left|by right|done..].
  - apply insertSorted_app_r.
    rewrite stableSort_Permutation. apply Forall_forall.
    intros a Ha%list_elem_of_In%filter_In. destruct Ha as [Ha Hpa].
    apply list_elem_of_In in Ha.
    apply Hsep; [by right|by left|done..].
Qed.

Lemma StronglySorted_filter (R : A -> A -> Prop) (p : A -> bool) (l : list A) :
  StronglySorted R l -> StronglySorted R (List.filter p l).
Proof.
  induction 1 as [|x l Hs IH Hall]; simpl; [constructor|].
  destruct (p x); [|done]. constructor; [done|].
  apply Forall_forall. intros y Hy%list_elem_of_In%filter_In.
  destruct Hy as [Hy _]. rewrite Forall_forall in Hall.
  by apply Hall, list_elem_of_In.
Qed.

(** Keys that grow with the index make the list sorted. *)
Lemma StronglySorted_by_index (k : A -> nat) (base : nat) (l : list A) :
  (forall i x, l !! i = Some x -> k x = (base + i)%nat) ->
  StronglySorted (fun a b => k a < k b)%nat l.
Proof.
  revert base. induction l as [|x l IH]; intros base Hk; [constructor|].
  constructor.
  - apply (IH (S base)). intros i y Hy. rewrite (Hk (S i) y Hy). lia.
  - apply Forall_forall. intros y Hy.
    apply list_elem_of_lookup in Hy as [i Hi].
    rewrite (Hk 0%nat x eq_refl), (Hk (S i) y Hi). lia.
Qed.

End StableSortFacts.

(** ** The order of the restored attributes *)

Lemma setOrder_lookup (base : nat) (attrs : list PhysAttr) (i : nat)
    (m : gmap jsstring nat) (name : jsstring) :
  setOrder base attrs i m !! name
  = match lastIndex name (pa_name <$> attrs) with
    | Some j => Some (base + i + j)%nat
    | None => m !! name
    end.
Proof.
  revert i m. induction attrs as [|a attrs IH]; intros i m; simpl; [done|].
  rewrite IH. change (list_fmap PhysAttr jsstring pa_name attrs) with (pa_name <$> attrs).
  destruct (lastIndex name (pa_name <$> attrs)) as [j|].
  - apply (f_equal Some). lia.
  - destruct (str_eqb (pa_name a) name) eqn:E.
    + apply str_eqb_eq in E. subst. rewrite lookup_insert_eq. apply (f_equal Some). lia.
    + rewrite lookup_insert_ne; [done|]. intros Heq.
      apply str_eqb_eq in Heq. congruence.
Qed.

(** The sort key of an attribute of the output. *)
Lemma orderOf_attrOrder (newAttrs originalAttrs : list PhysAttr) (a : PhysAttr) :
  orderOf (attrOrder newAttrs originalAttrs) a
  = match originalPosition originalAttrs a with
    | Some j => (length newAttrs + j)%nat
    | None => default 0%nat (lastIndex (pa_name a) (pa_name <$> newAttrs))
    end.
Proof.
  unfold orderOf, attrOrder, originalPosition. rewrite setOrder_lookup.
  destruct (lastIndex (pa_name a) (pa_name <$> originalAttrs)) as [j|]; simpl.
  - lia.
  - rewrite setOrder_lookup. rewrite lookup_empty.
    by destruct (lastIndex (pa_name a) (pa_name <$> newAttrs)).
Qed.

Lemma lastIndex_lt (name : jsstring) (names : list jsstring) (j : nat) :
  lastIndex name names = Some j -> (j < length names)%nat.
Proof.
  revert j. induction names as [|n names IH]; intros j; simpl; [done|].
  destruct (lastIndex name names) as [j'|].
  - intros [= <-]. specialize (IH j' eq_refl). lia.
  - destruct (str_eqb n name); [|done]. intros [= <-]. lia.
Qed.

Lemma lastIndex_None (name : jsstring) (names : list jsstring) :
  lastIndex name names = None <-> name ∉ names.
Proof.
  induction names as [|n names IH]; simpl.
  - split; [intros _; apply not_elem_of_nil|done].
  - rewrite not_elem_of_cons. destruct (lastIndex name names) as [j|].
    + split; [done|]. intros [_ Hn]. by apply IH in Hn.
    + destruct (str_eqb n name) eqn:E.
      * apply str_eqb_eq in E. split; [done|]. intros [Hne _]. congruence.
      * split; [|done]. intros _. split; [|by apply IH].
        intros ->. by rewrite str_eqb_refl in E.
Qed.

(** With distinct names the last occurrence of a name is its only one. *)
Lemma lastIndex_NoDup (names : list jsstring) (i : nat) (name : jsstring) :
  NoDup names -> names !! i = Some name -> lastIndex name names = Some i.
Proof.
  intros Hnd. revert i. induction Hnd as [|n names Hn Hnd IH]; intros i; [done|].
  destruct i as [|i]; simpl.
  - intros [= ->]. apply lastIndex_None in Hn. by rewrite Hn, str_eqb_refl.
  - intros Hi. by rewrite (IH i Hi).
Qed.

Lemma originalPosition_inOriginal (originalAttrs : list PhysAttr) (a : PhysAttr) :
  inOriginal originalAttrs a = false <-> originalPosition originalAttrs a = None.
Proof.
  unfold inOriginal. rewrite bool_decide_eq_false.
  destruct (originalPosition originalAttrs a); split; try done.
  intros Hn. destruct Hn. by eexists.
Qed.

(** The reordered attributes: the new ones, then those of the original. *)
Lemma reorderAttrs_split (newAttrs originalAttrs : list PhysAttr) :
  let key := orderOf (attrOrder newAttrs originalAttrs) in
  reorderAttrs newAttrs originalAttrs
  = stableSort key (List.filter (fun a => negb (inOriginal originalAttrs a)) newAttrs)
    ++ stableSort key (List.filter (inOriginal originalAttrs) newAttrs).
Proof.
  intros key. unfold reorderAttrs. fold key.
  rewrite (stableSort_split key (fun a => negb (inOriginal originalAttrs a))).
  - f_equal. f_equal. apply List.filter_ext. intros a. apply negb_involutive.
  - intros a b Ha Hb Hpa Hpb. unfold key. rewrite !orderOf_attrOrder.
    apply negb_true_iff, originalPosition_inOriginal in Hpa.
    apply negb_false_iff in Hpb. unfold inOriginal in Hpb.
    apply bool_decide_eq_true in Hpb as [j Hj]. rewrite Hpa, Hj.
    destruct (lastIndex (pa_name a) (pa_name <$> newAttrs)) as [i|] eqn:Ei; simpl.
    + apply lastIndex_lt in Ei. rewrite length_fmap in Ei. lia.
    + apply lastIndex_None in Ei. destruct Ei.
      apply list_elem_of_fmap. by exists a.
Qed.

Lemma StronglySorted_weaken {A} (R R' : A -> A -> Prop) (l : list A) :
  (forall x y, x ∈ l -> y ∈ l -> R x y -> R' x y) ->
  StronglySorted R l -> StronglySorted R' l.
Proof.
  intros Himp Hs. induction Hs as [|x l Hs IH Hall]; [constructor|].
  constructor.
  - apply IH. intros a b Ha Hb. apply Himp; by right.
  - rewrite Forall_forall in Hall |- *. intros y Hy.
    apply Himp; [by left|by right|by apply Hall].
Qed.

(** C1 (amended): the attributes of the root tag of the output, their
    names distinct, are put in this order: first those whose name does not
    occur in the original input, in their order in the output; after them
    those whose name occurs in the original input, ordered by the position
    of that name there.  The restored markup is the output with the
    attribute span of its root tag replaced by these fragments. *)
Theorem fixAttrOrder_order (original output : jsstring) :
  let originalAttrs := getAttrs original in
  let newAttrs := getAttrs output in
  NoDup (pa_name <$> newAttrs) ->
  exists news olds,
    reorderAttrs newAttrs originalAttrs = news ++ olds
    /\ news = List.filter (fun a => negb (inOriginal originalAttrs a)) newAttrs
    /\ olds ≡ₚ List.filter (inOriginal originalAttrs) newAttrs
    /\ StronglySorted
         (fun a b => exists i j, originalPosition originalAttrs a = Some i
                                 /\ originalPosition originalAttrs b = Some j
                                 /\ (i <= j)%nat) olds
    /\ fixAttrOrder output originalAttrs
       = match newAttrs, last newAttrs with
         | first :: _, Some final =>
             take (pa_start first) output
               ++ concat (pa_raw <$> (news ++ olds))
               ++ drop (pa_end final) output
         | _, _ => output
         end.
Proof.
  intros originalAttrs newAttrs Hnd.
  set (key := orderOf (attrOrder newAttrs originalAttrs)).
  exists (List.filter (fun a => negb (inOriginal originalAttrs a)) newAttrs),
    (stableSort key (List.filter (inOriginal originalAttrs) newAttrs)).
  assert (Hsplit : reorderAttrs newAttrs originalAttrs
    = List.filter (fun a => negb (inOriginal originalAttrs a)) newAttrs
      ++ stableSort key (List.filter (inOriginal originalAttrs) newAttrs)).
  { rewrite reorderAttrs_split. fold key. f_equal.
    apply stableSort_id.
    set (k0 := fun a => default 0%nat (lastIndex (pa_name a) (pa_name <$> newAttrs))).
    apply (StronglySorted_weaken (fun a b => k0 a < k0 b)%nat).
    - intros a b Ha%list_elem_of_In%filter_In Hb%list_elem_of_In%filter_In Hlt.
      destruct Ha as [_ Ha], Hb as [_ Hb].
      apply negb_true_iff, originalPosition_inOriginal in Ha, Hb.
      unfold key. rewrite !orderOf_attrOrder, Ha, Hb. fold (k0 a) (k0 b). lia.
    - apply StronglySorted_filter.
      apply (StronglySorted_by_index k0 0). intros i a Hi. unfold k0.
      rewrite (lastIndex_NoDup _ i); [done|done|].
      by rewrite list_lookup_fmap, Hi. }
  split; [exact Hsplit|]. split; [done|].
  split; [apply stableSort_Permutation|]. split.
  - apply (StronglySorted_weaken (fun a b => key a <= key b)%nat);
      [|apply stableSort_sorted].
    intros a b Ha Hb Hle.
    rewrite stableSort_Permutation in Ha, Hb.
    apply list_elem_of_In, filter_In in Ha as [_ Ha].
    apply list_elem_of_In, filter_In in Hb as [_ Hb].
    unfold inOriginal in Ha, Hb.
    apply bool_decide_eq_true in Ha as [i Hi], Hb as [j Hj].
    exists i, j. split; [done|]. split; [done|].
    unfold key in Hle. rewrite !orderOf_attrOrder, Hi, Hj in Hle. lia.
  - unfold fixAttrOrder. fold newAttrs. by rewrite Hsplit.
Qed.

Lemma fixAttrOrder_order_witness :
  fixAttrOrder orderOutput (getAttrs orderOriginal) = js "<svg xmlns='u' id='x' width='1'>".
Proof.
  destruct (fixAttrOrder_order orderOriginal orderOutput)
    as (news & olds & _ & _ & _ & _ & Hfix).
  - apply (bool_decide_unpack _). vm_compute. exact I.
  - vm_compute. reflexivity.
Defined.

(** C1 as stated fails: the restored root tag begins with the new
    attribute [xmlns], before the attributes [id] and [width] of the
    original input. *)
Lemma fixAttrOrder_new_attributes_first :
  fixAttrOrder orderOutput (getAttrs orderOriginal) = js "<svg xmlns='u' id='x' width='1'>"
  /\ ~ originalsFirst (getAttrs orderOriginal)
         (reorderAttrs (getAttrs orderOutput) (getAttrs orderOriginal)).
Proof.
  split; [vm_compute; reflexivity|].
  intros Hc. enough (1 < 0)%nat by lia.
  eapply Hc; vm_compute; reflexivity.
Qed.

(** ** Node identities *)

Lemma stampNode_Element (p id : NodeId) nm ns attrs ch :
  stampNode p (Element id nm ns attrs ch) = Element p nm ns attrs (stampFrom p 0 ch).
Proof.
  simpl. f_equal. generalize 0%nat.
  induction ch as [|c ch IH]; intros i; [done|]. simpl. by rewrite IH.
Qed.

Lemma node_id_stampNode (p : NodeId) (n : Node) : node_id (stampNode p n) = p.
Proof. by destruct n. Qed.

Lemma isElement_stampNode (p : NodeId) (n : Node) : isElement (stampNode p n) = isElement n.
Proof. by destruct n. Qed.

Lemma stampFrom_lookup (p : NodeId) (i j : nat) (l : list Node) (m : Node) :
  stampFrom p i l !! j = Some m ->
  exists n, l !! j = Some n /\ m = stampNode (p ++ [(i + j)%nat]) n.
Proof.
  revert i j. induction l as [|c l IH]; intros i j; [done|].
  destruct j as [|j]; simpl.
  - intros [= <-]. exists c. by rewrite Nat.add_0_r.
  - intros Hm. destruct (IH (S i) j Hm) as (n & Hn & ->).
    exists n. split; [done|]. do 3 f_equal. lia.
Qed.

(** Below a stamped node every identity is longer than that of the node. *)
Lemma descendants_stampNode_id (p : NodeId) (n m : Node) :
  List.In m (descendants (stampNode p n)) -> (length p < length (node_id m))%nat.
Proof.
  revert p. induction n as [id nm ns attrs ch IH|] using Node_tree_ind; intros p; [|done].
  rewrite stampNode_Element. simpl. intros Hin.
  apply in_flat_map in Hin as (c' & Hc' & Hm).
  apply list_elem_of_In, list_elem_of_lookup in Hc' as [j Hj].
  apply stampFrom_lookup in Hj as (c & Hc & ->).
  rewrite Forall_forall in IH.
  assert (Hcin : c ∈ ch) by (apply list_elem_of_lookup; by exists j).
  destruct Hm as [<-|Hm].
  - rewrite node_id_stampNode, length_app. simpl. lia.
  - apply (IH c Hcin) in Hm. rewrite length_app in Hm. simpl in Hm. lia.
Qed.

Lemma stampDocument_lookup (raw : XMLDocument) (j : nat) (m : Node) :
  stampDocument raw !! j = Some m -> node_id m = [j].
Proof.
  unfold stampDocument. intros Hm.
  apply stampFrom_lookup in Hm as (n & _ & ->). by rewrite node_id_stampNode.
Qed.

Lemma stampDocument_descendants (raw : XMLDocument) (c m : Node) :
  c ∈ stampDocument raw -> List.In m (descendants c) -> (1 < length (node_id m))%nat.
Proof.
  unfold stampDocument. intros [j Hj]%list_elem_of_lookup Hm.
  apply stampFrom_lookup in Hj as (n & _ & ->).
  apply descendants_stampNode_id in Hm. simpl in Hm. lia.
Qed.

Section Origins.
Context `{Browser}.

(** Every op of a loop body targets the node of that loop body. *)
Lemma loopBody_target (b : bool) (m : Node) (op : CleaningOp) :
  List.In op (removeChildOps b m ++ yielded (elementOps b m)) -> opTarget op = node_id m.
Proof.
  intros Hin. apply in_app_or in Hin as [Hin|Hin].
  { unfold removeChildOps in Hin. destruct (_ || _); [|done]. by destruct Hin as [<-|[]]. }
  destruct m as [id nm ns attrs ch|]; [|done].
  apply elementOps_In in Hin
    as [[_ ->]|[Hin|[(? & _ & ->)|[(? & ? & _ & _ & ->)|[[_ Hin]|(_ & _ & ->)]]]]]; try done.
  - unfold removeAttrOps in Hin. by apply in_map_iff in Hin as (? & <- & _).
  - apply inlineGradient_inv in Hin as (_ & ? & _ & ->). done.
Qed.

(** An op of the walk comes from the loop body of the node the walk is at,
    with the flag of the walk, or from the loop body of a node below. *)
Lemma childOps_origin_strong (b : bool) (n : Node) (op : CleaningOp) :
  List.In op (yielded (childOps b n)) ->
  List.In op (removeChildOps b n ++ yielded (elementOps b n))
  \/ exists m, List.In m (descendants n)
       /\ List.In op (removeChildOps true m ++ yielded (elementOps true m)).
Proof.
  revert b. induction n as [id nm ns attrs ch IH|id t d] using Node_tree_ind; intros b.
  - rewrite childOps_unfold, andThen_yieldAll. cbn [yielded]. intros Hin.
    apply in_app_or in Hin as [Hin|Hin]; [left; apply in_or_app; by left|].
    apply andThen_In in Hin as [Hin|[_ Hin]]; [|left; apply in_or_app; by right].
    right. apply forEach_In in Hin as (c & Hc & Hop).
    rewrite Forall_forall in IH.
    destruct (IH c (proj2 (list_elem_of_In _ _) Hc) true Hop) as [Hself|(m & Hm & Hop')].
    + exists c. split; [|done]. simpl. apply in_flat_map. exists c. split; [done|by left].
    + exists m. split; [|done]. simpl. apply in_flat_map. exists c. split; [done|by right].
  - rewrite childOps_unfold, andThen_yieldAll. cbn [yielded yieldAll].
    rewrite app_nil_r. intros Hin. left. by rewrite app_nil_r.
Qed.

End Origins.

(** ** The root element stays *)

Lemma find_split {A} (p : A -> bool) (l : list A) (x : A) :
  List.find p l = Some x ->
  exists pre post, l = pre ++ x :: post /\ Forall (fun y => p y = false) pre /\ p x = true.
Proof.
  induction l as [|y l IH]; simpl; [done|].
  destruct (p y) eqn:E.
  - intros [= ->]. by exists [], l.
  - intros Hf. destruct (IH Hf) as (pre & post & -> & Hpre & Hx).
    exists (y :: pre), post. split; [done|]. split; [by constructor|done].
Qed.

Lemma find_app_skip {A} (p : A -> bool) (pre l : list A) :
  Forall (fun y => p y = false) pre -> List.find p (pre ++ l) = List.find p l.
Proof. induction 1 as [|y pre Hy _ IH]; simpl; [done|]. by rewrite Hy. Qed.

Lemma RootAt_rootIsSvg (k : nat) (working : XMLDocument) :
  RootAt k working -> rootIsSvg working.
Proof.
  intros (pre & attrs & ch & post & -> & Hpre).
  exists [k], attrs, ch. unfold documentElement. by rewrite find_app_skip.
Qed.

Lemma stamped_RootAt (raw : XMLDocument) :
  rootIsSvg (stampDocument raw) -> exists k, RootAt k (stampDocument raw).
Proof.
  intros (id & attrs & ch & Hr).
  apply find_split in Hr as (pre & post & Hd & Hpre & _).
  exists (length pre), pre, attrs, ch, post. split; [|done].
  assert (Hid : id = [length pre]).
  { apply (stampDocument_lookup raw (length pre)
             (Element id (js "svg") (Some SVG_NS) attrs ch)).
    rewrite Hd. by rewrite list_lookup_middle. }
  by rewrite <- Hid.
Qed.

Lemma RootAt_lookup (raw : XMLDocument) (k : nat) :
  RootAt k (stampDocument raw) ->
  exists attrs ch, stampDocument raw !! k = Some (Element [k] (js "svg") (Some SVG_NS) attrs ch).
Proof.
  intros (pre & attrs & ch & post & Hd & Hpre). exists attrs, ch.
  assert (Hk : stampDocument raw !! length pre
               = Some (Element [k] (js "svg") (Some SVG_NS) attrs ch))
    by (rewrite Hd; by rewrite list_lookup_middle).
  pose proof (stampDocument_lookup _ _ _ Hk) as Hid. simpl in Hid.
  injection Hid as ->. exact Hk.
Qed.

Lemma updateDocument_RootAt (k : nat) (target : NodeId) (f : Node -> list Node)
    (working : XMLDocument) :
  RootAt k working ->
  (forall n, isElement n = false -> Forall (fun x => isElement x = false) (f n)) ->
  (target <> [k]
   \/ forall id nm ns attrs ch,
        exists attrs', f (Element id nm ns attrs ch) = [Element id nm ns attrs' ch]) ->
  RootAt k (updateDocument target f working).
Proof.
  intros (pre & attrs & ch & post & -> & Hpre) Hf Hcase.
  unfold updateDocument. rewrite flat_map_app. simpl.
  assert (Hpre' : Forall (fun n => isElement n = false)
                    (List.flat_map (updateNode target f) pre)).
  { apply Forall_forall. intros x Hx%list_elem_of_In%in_flat_map.
    destruct Hx as (n & Hn & Hx). rewrite Forall_forall in Hpre.
    specialize (Hpre n (proj2 (list_elem_of_In _ _) Hn)).
    destruct n as [|id t d]; [done|]. simpl in Hx.
    case_bool_decide.
    - specialize (Hf (CharData id t d) eq_refl). rewrite Forall_forall in Hf.
      by apply Hf, list_elem_of_In.
    - by destruct Hx as [<-|[]]. }
  case_bool_decide as Ht.
  - destruct Hcase as [Hne|Hshape]; [by destruct Hne|].
    destruct (Hshape [k] (js "svg") (Some SVG_NS) attrs ch) as (attrs' & ->).
    simpl. by eexists _, attrs', ch, _.
  - simpl. by eexists _, attrs, _, _.
Qed.

Lemma mapElements_RootAt (k : nat) g (working : XMLDocument) :
  RootAt k working -> RootAt k (mapElements g <$> working).
Proof.
  intros (pre & attrs & ch & post & -> & Hpre).
  rewrite fmap_app. simpl. eexists _, (g attrs), _, _. split; [done|].
  apply Forall_fmap. eapply Forall_impl; [exact Hpre|].
  intros n Hn. by destruct n.
Qed.

Section RootStays.
Context `{Browser}.

(** An op keeps the root where it is, unless it takes the root itself out
    of the tree. *)
Lemma applyOp_RootAt (k : nat) (op : CleaningOp) (working : XMLDocument) :
  RootAt k working ->
  (isDestructive op = true -> opTarget op <> [k]) ->
  RootAt k (fst (applyOp op working)).
Proof.
  intros Hroot Hsafe.
  assert (Hattr : forall t g, RootAt k
            (updateDocument t (fun n => [withAttributes g n]) working)).
  { intros t g. apply updateDocument_RootAt; [done| |].
    - intros n Hn. constructor; [by destruct n|constructor].
    - right. intros. by eexists. }
  destruct op as [t|t|t a|t c|t p|t r c o|t]; simpl; try apply Hattr.
  - apply updateDocument_RootAt; [done|by constructor|]. left. by apply Hsafe.
  - apply updateDocument_RootAt; [|by constructor|left; by apply Hsafe].
    by do 2 apply mapElements_RootAt.
  - apply updateDocument_RootAt; [done| |left; by apply Hsafe].
    intros n Hn. by destruct n.
Qed.

Lemma applyAll_RootAt (k : nat) (ops : list CleaningOp) (working : XMLDocument) :
  RootAt k working ->
  Forall (fun op => isDestructive op = true -> opTarget op <> [k]) ops ->
  RootAt k (applyAll ops working).
Proof.
  intros Hroot Hops. revert working Hroot.
  induction Hops as [|op ops Hop _ IH]; intros working Hroot; [done|].
  unfold applyAll. simpl. apply IH. by apply applyOp_RootAt.
Qed.

(** The ops on an [svg] element below the document change attributes
    only. *)
Lemma svg_elementOps_keep (id : NodeId) ns attrs ch (op : CleaningOp) :
  List.In op (yielded (elementOps false (Element id (js "svg") ns attrs ch))) ->
  isDestructive op = false.
Proof.
  intros Hel. apply elementOps_In in Hel
    as [[_ ->]|[Hin|[(? & _ & ->)|[(? & ? & _ & _ & ->)|[[Hg _]|(_ & ? & _)]]]]]; try done.
  unfold removeAttrOps in Hin. by apply in_map_iff in Hin as (? & <- & _).
Qed.

(** No op of the sequence takes the root out of the tree. *)
Lemma cleaningOps_safe (raw : XMLDocument) (k : nat) (op : CleaningOp) :
  RootAt k (stampDocument raw) ->
  List.In op (yielded (cleaningOps (stampDocument raw))) ->
  isDestructive op = true -> opTarget op <> [k].
Proof.
  intros Hroot Hin Hdes.
  unfold cleaningOps in Hin.
  apply forEach_In in Hin as (c & Hc & Hop).
  apply list_elem_of_In in Hc.
  apply childOps_origin_strong in Hop as [Hself|(m & Hm & Hop)].
  - pose proof (loopBody_target _ _ _ Hself) as Ht. rewrite Ht.
    pose proof Hc as [j Hj]%list_elem_of_lookup.
    rewrite (stampDocument_lookup _ _ _ Hj). intros [= ->].
    destruct (RootAt_lookup _ _ Hroot) as (attrs & ch & Hk).
    rewrite Hk in Hj. injection Hj as <-.
    apply in_app_or in Hself as [Hrm|Hel]; [done|].
    apply svg_elementOps_keep in Hel. congruence.
  - pose proof (loopBody_target _ _ _ Hop) as Ht. rewrite Ht.
    pose proof (stampDocument_descendants _ _ _ Hc Hm) as Hlen.
    intros Heq. rewrite Heq in Hlen. simpl in Hlen. lia.
Qed.

End RootStays.



Section RootInvariant.
Context `{Browser}.






Lemma parse_stamped (fuel : nat) (svgCode : jsstring) (doc : XMLDocument) :
  parse fuel svgCode = Ok doc -> (exists raw, doc = stampDocument raw) /\ rootIsSvg doc.
Proof.
  revert svgCode. induction fuel as [|fuel IH]; intros svgCode; [done|].
  simpl.
  destruct (documentElement _) as [[id name ns attrs ch|]|] eqn:Hr; try done.
  case_bool_decide as Hns.
  - destruct (str_eqb name (js "svg")) eqn:En; [|done].
    apply str_eqb_eq in En. subst. intros [= <-].
    split; [by eexists|]. by exists id, attrs, ch.
  - destruct (textContent <$> parserErrorDiv _) as [[|c text]|]; try done.
    + destruct ns; [done|]. apply IH.
    + destruct ns; [done|]. apply IH.
Qed.

Lemma walkOps_root (raw : XMLDocument) (k : nat) (fuel : nat)
    (comparators : list Comparator) (lossless : bool) (skipOps : nat)
    (svgCode svgCode' : jsstring) (skipOps' : nat) :
  RootAt k (stampDocument raw) ->
  walkOps fuel comparators lossless (yielded (cleaningOps (stampDocument raw)))
    (finished (cleaningOps (stampDocument raw))) 0 skipOps
    (stampDocument raw) svgCode = Restart svgCode' skipOps' ->
  svgCode' = svgCode \/ exists doc', rootIsSvg doc' /\ svgCode' = serialize doc'.
Proof.
  intros Hroot Hw. apply walkOps_restart in Hw as (i & op & Hw). cbv zeta in Hw.
  destruct Hw as (Hi & _ & _ & _ & [(_ & -> & _)|(e & _ & -> & _)]); [|by left].
  right. eexists. split; [|done].
  apply (RootAt_rootIsSvg k), applyOp_RootAt.
  - apply applyAll_RootAt; [done|]. apply Forall_forall. intros op' Hop'.
    apply (cleaningOps_safe raw); [done|]. apply list_elem_of_In.
    by apply subseteq_take, subseteq_drop in Hop'.
  - apply (cleaningOps_safe raw); [done|]. apply list_elem_of_In.
    by eapply list_elem_of_lookup_2.
Qed.

Lemma unjunkLoop_root (fuel : nat) (comparators : list Comparator) (lossless : bool)
    (bound : nat) (svgCode : jsstring) (skipOps : nat) (out : jsstring) :
  unjunkLoop fuel comparators lossless bound svgCode skipOps = Ok out ->
  out = svgCode \/ exists doc', rootIsSvg doc' /\ out = serialize doc'.
Proof.
  revert svgCode skipOps. induction bound as [|bound IH]; intros svgCode skipOps; simpl.
  { intros [= <-]. by left. }
  unfold mbind, outcome_bind.
  destruct (parse fuel svgCode) as [d| |] eqn:Hp; [|done|done].
  apply parse_stamped in Hp as [[raw ->] Hsvg].
  destruct (stamped_RootAt raw Hsvg) as [k Hroot].
  destruct (walkOps _ _ _ _ _ _ _ _ _) as [|svgCode' skipOps'|e|] eqn:Hw; [| |done|done].
  - intros [= <-]. by left.
  - intros Hl. apply IH in Hl.
    apply (walkOps_root raw k) in Hw; [|done].
    destruct Hl as [->|Hl]; [exact Hw|by right].
Qed.

End RootInvariant.



(** ** The scan of the root tag *)

Lemma span_app (p : Z -> bool) (s a b : jsstring) : span p s = (a, b) -> s = a ++ b.
Proof.
  revert a b. induction s as [|c s IH]; intros a b; simpl.
  - by intros [= <- <-].
  - destruct (p c); [|by intros [= <- <-]].
    destruct (span p s) as [a' b'] eqn:E. intros [= <- <-].
    simpl. f_equal. by apply IH.
Qed.

Lemma span_head (p : Z -> bool) (s : jsstring) (c : Z) (a b : jsstring) :
  span p s = (c :: a, b) -> p c = true.
Proof.
  destruct s as [|d s]; simpl; [done|].
  destruct (p d) eqn:E; [|done].
  destruct (span p s). by intros [= <- _ _].
Qed.

Lemma matchQuoted_length (s : jsstring) (n : nat) :
  matchQuoted s = Some n -> (n <= length s)%nat.
Proof.
  unfold matchQuoted. destruct (span isSpace s) as [sp s1] eqn:E1.
  apply span_app in E1 as ->. destruct s1 as [|q s2]; [done|].
  destruct (_ || _); [|done].
  destruct (span _ s2) as [body s3] eqn:E2. apply span_app in E2 as ->.
  destruct s3; [done|]. intros [= <-].
  rewrite !length_app. simpl. rewrite length_app. simpl. lia.
Qed.

Lemma matchEqQuoted_length (s : jsstring) (n : nat) :
  matchEqQuoted s = Some n -> (n <= length s)%nat.
Proof.
  unfold matchEqQuoted. destruct (span isSpace s) as [sp s1] eqn:E1.
  apply span_app in E1 as ->. destruct s1 as [|c s2]; [done|].
  destruct (c =? ch_eq); [|done].
  destruct (matchQuoted s2) as [m|] eqn:E2; [|done].
  apply matchQuoted_length in E2. intros [= <-].
  rewrite length_app. simpl. lia.
Qed.

(** A match begins with a white space character and lies within the
    text. *)
Lemma matchAttr_inv (s : jsstring) (name : jsstring) (n : nat) :
  matchAttr s = Some (name, n) ->
  (exists c s', s = c :: s' /\ isSpace c = true) /\ (1 <= n <= length s)%nat.
Proof.
  unfold matchAttr. destruct (span isSpace s) as [ws s1] eqn:E1.
  destruct (span isAttrNameChar s1) as [run s2] eqn:E2.
  destruct ws as [|c ws]; [done|]. destruct run as [|r run]; [done|].
  pose proof (span_head _ _ _ _ _ E1) as Hc.
  apply span_app in E1 as ->. apply span_app in E2 as ->.
  assert (Hlen : forall m, (m <= length s2)%nat ->
            (1 <= length (c :: ws) + length (r :: run) + m
               <= length ((c :: ws) ++ (r :: run) ++ s2))%nat).
  { intros m Hm. rewrite !length_app. simpl. lia. }
  intros Hm. split; [by exists c, (ws ++ (r :: run) ++ s2)|].
  destruct (matchEqQuoted s2) as [m|] eqn:E3.
  - injection Hm as <- <-. by apply Hlen, matchEqQuoted_length.
  - destruct (last (r :: run)); [|done].
    destruct (removelast (r :: run)); [done|].
    destruct (_ =? ch_eq); [|done].
    destruct (matchQuoted s2) as [m|] eqn:E4; [|done].
    injection Hm as <- <-. by apply Hlen, matchQuoted_length.
Qed.

Lemma scanAttrs_None (fuel pos : nat) (s : jsstring) :
  matchAttr s = None -> scanAttrs fuel pos s = [].
Proof. intros Hm. destruct fuel; [done|]. simpl. by rewrite Hm. Qed.

Lemma scanAttrs_Some (fuel pos : nat) (s name : jsstring) (n : nat) :
  matchAttr s = Some (name, n) ->
  scanAttrs (S fuel) pos s
  = mkPhysAttr name (take n s) pos (pos + n) :: scanAttrs fuel (pos + n) (drop n s).
Proof. intros Hm. simpl. by rewrite Hm. Qed.

(** The fragments of a scan are adjacent: together they are a prefix of
    the text scanned, each begins with white space, and the positions
    count from [pos]. *)
Lemma scanAttrs_fragments (fuel pos : nat) (s : jsstring) :
  let attrs := scanAttrs fuel pos s in
  let total := length (concat (pa_raw <$> attrs)) in
  concat (pa_raw <$> attrs) = take total s
  /\ (total <= length s)%nat
  /\ Forall (fun raw => exists c r, raw = c :: r /\ isSpace c = true) (pa_raw <$> attrs)
  /\ (forall first, head attrs = Some first -> pa_start first = pos)
  /\ (forall final, last attrs = Some final -> pa_end final = (pos + total)%nat).
Proof.
  cbv zeta. revert pos s. induction fuel as [|fuel IH]; intros pos s; simpl.
  { repeat split; try done. lia. }
  destruct (matchAttr s) as [[name n]|] eqn:Em; simpl.
  2:{ repeat split; try done. lia. }
  apply matchAttr_inv in Em as [(c & s' & -> & Hc) Hn].
  destruct (IH (pos + n)%nat (drop n (c :: s'))) as (Hcat & Htot & Hall & Hfirst & Hlast).
  set (rest := scanAttrs fuel (pos + n) (drop n (c :: s'))) in *.
  set (total := length (concat (pa_raw <$> rest))) in *.
  rewrite length_drop in Htot.
  rewrite length_app, length_take, Nat.min_l by lia.
  change (list_fmap PhysAttr jsstring pa_raw rest) with (pa_raw <$> rest). fold total.
  split; [|split; [lia|split; [|split]]].
  - rewrite Hcat. rewrite <- (take_drop n (c :: s')) at 3.
    rewrite take_app_ge; rewrite length_take, Nat.min_l by lia; [|lia].
    by replace (n + total - n)%nat with total by lia.
  - constructor; [|exact Hall].
    destruct n as [|n]; [lia|]. simpl. by eexists _, _.
  - by intros first [= <-].
  - intros final Hfin. destruct rest as [|a rest'] eqn:Er.
    + simpl in Hfin. injection Hfin as <-. simpl. subst total. simpl. lia.
    + rewrite last_cons in Hfin.
      destruct (last (a :: rest')) as [f|] eqn:El; [|by rewrite last_cons in El; destruct (last rest')].
      injection Hfin as <-. rewrite (Hlast f eq_refl). lia.
Qed.

(** The scan is not cut short: a match takes at least one code unit, so
    the length of the text is allowance enough. *)
Lemma scanAttrs_enough (fuel pos : nat) (s : jsstring) :
  (length s <= fuel)%nat -> scanAttrs (S fuel) pos s = scanAttrs fuel pos s.
Proof.
  revert pos s. induction fuel as [|fuel IH]; intros pos s Hlen.
  - destruct s; [done|simpl in Hlen; lia].
  - remember (S fuel) as f eqn:Hf. simpl. subst f.
    destruct (matchAttr s) as [[name n]|] eqn:Em; [|by rewrite scanAttrs_None].
    rewrite (scanAttrs_Some _ _ _ _ _ Em). f_equal.
    apply matchAttr_inv in Em as [_ Hn]. apply IH. rewrite length_drop. lia.
Qed.

(** ** Byte lengths *)

(** The encoding of a text is the encoding of its parts where the cut
    does not separate a surrogate pair: here, where the second part
    begins with a code unit that is no low surrogate. *)
Lemma byteLength_app_head (a b : jsstring) :
  match head b with Some y => isLowSurrogate y = false | None => True end ->
  byteLength (a ++ b) = (byteLength a + byteLength b)%nat.
Proof.
  intros Hb. remember (length a) as n eqn:Hn. revert a Hn.
  induction n as [n IH] using lt_wf_ind. intros a Hn.
  destruct a as [|c a]; [done|]. simpl in Hn.
  change ((c :: a) ++ b) with (c :: (a ++ b)).
  cbn [byteLength].
  destruct (c <? 128); [rewrite (IH (length a)) by (done || lia); done|].
  destruct (c <? 2048); [rewrite (IH (length a)) by (done || lia); done|].
  destruct (isHighSurrogate c); [|rewrite (IH (length a)) by (done || lia); done].
  destruct a as [|d a].
  - simpl. destruct b as [|y b]; [done|]. simpl in Hb. by rewrite Hb.
  - change ((d :: a) ++ b) with (d :: (a ++ b)). cbv iota.
    destruct (isLowSurrogate d).
    + simpl in Hn. rewrite (IH (length a)) by (done || lia). done.
    + change (d :: (a ++ b)) with ((d :: a) ++ b).
      rewrite (IH (length (d :: a))) by (done || lia). done.
Qed.

(** The same where the first part ends with a code unit that is no high
    surrogate. *)
Lemma byteLength_app_last (a b : jsstring) :
  match last a with Some x => isHighSurrogate x = false | None => True end ->
  byteLength (a ++ b) = (byteLength a + byteLength b)%nat.
Proof.
  remember (length a) as n eqn:Hn. revert a Hn.
  induction n as [n IH] using lt_wf_ind. intros a Hn Ha.
  destruct a as [|c a]; [done|]. simpl in Hn.
  assert (Hlast : match last a with Some x => isHighSurrogate x = false | None => True end).
  { destruct a as [|d a]; [done|]. by rewrite last_cons_cons in Ha. }
  change ((c :: a) ++ b) with (c :: (a ++ b)).
  cbn [byteLength].
  destruct (c <? 128); [rewrite (IH (length a)) by (done || lia); done|].
  destruct (c <? 2048); [rewrite (IH (length a)) by (done || lia); done|].
  destruct (isHighSurrogate c) eqn:Ehc; [|rewrite (IH (length a)) by (done || lia); done].
  destruct a as [|d a].
  - simpl in Ha. congruence.
  - change ((d :: a) ++ b) with (d :: (a ++ b)). cbv iota.
    destruct (isLowSurrogate d).
    + simpl in Hn.
      assert (Hlast' : match last a with
                       | Some x => isHighSurrogate x = false | None => True end).
      { destruct a as [|e a]; [done|]. by rewrite last_cons_cons in Hlast. }
      rewrite (IH (length a)) by (done || lia). done.
    + change (d :: (a ++ b)) with ((d :: a) ++ b).
      rewrite (IH (length (d :: a))) by (done || lia). done.
Qed.

Lemma isSpace_not_low (c : Z) : isSpace c = true -> isLowSurrogate c = false.
Proof.
  unfold isSpace, isLowSurrogate. intros Hs.
  repeat (apply orb_true_iff in Hs as [Hs|Hs]);
    try apply andb_true_iff in Hs as [Hs Hs'];
    apply andb_false_iff; lia.
Qed.

Lemma byteLength_concat_spaced (raws : list jsstring) :
  Forall spaced raws ->
  byteLength (concat raws) = sum_list (byteLength <$> raws).
Proof.
  induction 1 as [|raw raws Hraw Hall IH]; [done|].
  simpl. rewrite byteLength_app_head, IH; [done|].
  destruct raws as [|r2 raws]; [done|].
  apply Forall_cons in Hall as [(c & r & -> & Hc) _]. simpl.
  by apply isSpace_not_low.
Qed.

Lemma byteLength_concat_Permutation (raws raws' : list jsstring) :
  Forall spaced raws -> raws ≡ₚ raws' ->
  byteLength (concat raws) = byteLength (concat raws').
Proof.
  intros Hall Hperm.
  rewrite !byteLength_concat_spaced; [|by rewrite <- Hperm|done].
  by rewrite Hperm.
Qed.

Lemma span_stop (p : Z -> bool) (s a : jsstring) (c : Z) (b : jsstring) :
  span p s = (a, c :: b) -> p c = false.
Proof.
  revert a. induction s as [|d s IH]; intros a; simpl; [done|].
  destruct (p d) eqn:E.
  - destruct (span p s) as [a' b'] eqn:Es. intros [= <- ->]. by eapply IH.
  - by intros [= <- <- <-].
Qed.

Lemma matchQuoted_last (s : jsstring) (n : nat) :
  matchQuoted s = Some n -> quotedEnd (take n s).
Proof.
  unfold matchQuoted. destruct (span isSpace s) as [sp s1] eqn:E1.
  apply span_app in E1 as ->. destruct s1 as [|q s2]; [done|].
  destruct ((q =? ch_quot) || (q =? ch_apos)) eqn:Eq; [|done].
  destruct (span _ s2) as [body s3] eqn:E2.
  pose proof E2 as Hstop. apply span_app in E2 as ->.
  destruct s3 as [|q' s3]; [done|]. intros [= <-].
  apply span_stop in Hstop. apply negb_false_iff, Z.eqb_eq in Hstop. subst q'.
  exists q. split.
  - replace (length sp + 1 + length body + 1)%nat
      with (length (sp ++ q :: body ++ [q])) by (rewrite !length_app; simpl; rewrite length_app; simpl; lia).
    replace (sp ++ q :: body ++ q :: s3) with ((sp ++ q :: body ++ [q]) ++ s3)
      by (rewrite <- !app_assoc; simpl; by rewrite <- app_assoc).
    rewrite take_app_length.
    change (sp ++ q :: body ++ [q]) with (sp ++ (q :: body) ++ [q]).
    rewrite app_assoc. apply last_snoc.
  - apply orb_true_iff in Eq as [->%Z.eqb_eq| ->%Z.eqb_eq]; done.
Qed.

Lemma matchEqQuoted_last (s : jsstring) (n : nat) :
  matchEqQuoted s = Some n -> quotedEnd (take n s).
Proof.
  unfold matchEqQuoted. destruct (span isSpace s) as [sp s1] eqn:E1.
  apply span_app in E1 as ->. destruct s1 as [|c s2]; [done|].
  destruct (c =? ch_eq); [|done].
  destruct (matchQuoted s2) as [m|] eqn:E2; [|done]. intros [= <-].
  pose proof (matchQuoted_length _ _ E2) as Hlen.
  apply matchQuoted_last in E2 as (q & Hq & Hhigh).
  exists q. split; [|done].
  replace (length sp + 1 + m)%nat with (length (sp ++ [c]) + m)%nat
    by (rewrite length_app; simpl; lia).
  replace (sp ++ c :: s2) with ((sp ++ [c]) ++ s2) by (by rewrite <- app_assoc).
  rewrite take_app_add. destruct (take m s2) as [|x t] eqn:Et; [done|].
  rewrite <- Hq. by rewrite last_app_cons.
Qed.

Lemma take_prefix_quoted (pre s : jsstring) (m : nat) :
  quotedEnd (take m s) -> quotedEnd (take (length pre + m) (pre ++ s)).
Proof.
  intros (q & Hq & Hhigh). exists q. split; [|done].
  rewrite take_app_add. destruct (take m s) as [|x t] eqn:Et; [done|].
  rewrite <- Hq. by rewrite last_app_cons.
Qed.

Lemma matchAttr_last (s : jsstring) (name : jsstring) (n : nat) :
  matchAttr s = Some (name, n) -> quotedEnd (take n s).
Proof.
  unfold matchAttr. destruct (span isSpace s) as [ws s1] eqn:E1.
  destruct (span isAttrNameChar s1) as [run s2] eqn:E2.
  destruct ws as [|c ws]; [done|]. destruct run as [|r run]; [done|].
  apply span_app in E1 as ->. apply span_app in E2 as ->.
  assert (Hpre : forall m, quotedEnd (take m s2) ->
            quotedEnd (take (length (c :: ws) + length (r :: run) + m)
                            ((c :: ws) ++ (r :: run) ++ s2))).
  { intros m Hm. rewrite app_assoc, <- length_app. by apply take_prefix_quoted. }
  destruct (matchEqQuoted s2) as [m|] eqn:E3.
  - intros [= <- <-]. by apply Hpre, matchEqQuoted_last.
  - destruct (last (r :: run)); [|done].
    destruct (removelast (r :: run)); [done|].
    destruct (_ =? ch_eq); [|done].
    destruct (matchQuoted s2) as [m|] eqn:E4; [|done].
    intros [= <- <-]. by apply Hpre, matchQuoted_last.
Qed.

Lemma scanAttrs_quoted (fuel pos : nat) (s : jsstring) :
  Forall quotedEnd (pa_raw <$> scanAttrs fuel pos s).
Proof.
  revert pos s. induction fuel as [|fuel IH]; intros pos s; simpl; [done|].
  destruct (matchAttr s) as [[name n]|] eqn:Em; [|done].
  simpl. constructor; [by eapply matchAttr_last|apply IH].
Qed.

(** ** The restoration pass *)

(** The markup is its part before the attributes of the root tag, their
    fragments, and the rest; the restoration pass permutes the fragments. *)
Lemma fixAttrOrder_shape (svgCode : jsstring) (originalAttrs : list PhysAttr) :
  getAttrs svgCode <> [] ->
  exists before after,
    svgCode = before ++ concat (pa_raw <$> getAttrs svgCode) ++ after
    /\ fixAttrOrder svgCode originalAttrs
       = before ++ concat (pa_raw <$> reorderAttrs (getAttrs svgCode) originalAttrs) ++ after.
Proof.
  unfold fixAttrOrder. unfold getAttrs at 1 2 3 4 5.
  destruct (indexOf svgCode (js "<svg")) as [start|]; [|done].
  set (from := (start + 4)%nat).
  pose proof (scanAttrs_fragments (length svgCode) from (drop from svgCode)) as Hfr.
  cbv zeta in Hfr. destruct Hfr as (Hcat & Htot & _ & Hfirst & Hlast).
  set (attrs := scanAttrs (length svgCode) from (drop from svgCode)) in *.
  set (total := length (concat (pa_raw <$> attrs))) in *.
  intros Hne. destruct attrs as [|first rest] eqn:Eattrs; [done|].
  destruct (last (first :: rest)) as [final|] eqn:El.
  2:{ rewrite last_cons in El. by destruct (last rest). }
  rewrite (Hfirst first eq_refl), (Hlast final eq_refl).
  exists (take from svgCode), (drop (from + total) svgCode). split; [|done].
  rewrite Hcat. rewrite <- drop_drop. rewrite take_drop. by rewrite take_drop.
Qed.

Lemma getAttrs_spaced (svgCode : jsstring) : Forall spaced (pa_raw <$> getAttrs svgCode).
Proof.
  unfold getAttrs. destruct (indexOf _ _) as [start|]; [|done].
  pose proof (scanAttrs_fragments (length svgCode) (start + 4)
                (drop (start + 4) svgCode)) as Hfr.
  cbv zeta in Hfr. by destruct Hfr as (_ & _ & Hall & _).
Qed.

Lemma getAttrs_quoted (svgCode : jsstring) : Forall quotedEnd (pa_raw <$> getAttrs svgCode).
Proof.
  unfold getAttrs. destruct (indexOf _ _) as [start|]; [|done]. apply scanAttrs_quoted.
Qed.

Lemma reorderAttrs_Permutation (newAttrs originalAttrs : list PhysAttr) :
  reorderAttrs newAttrs originalAttrs ≡ₚ newAttrs.
Proof. apply stableSort_Permutation. Qed.

Lemma last_concat_quoted (raws : list jsstring) :
  raws <> [] -> Forall spaced raws -> Forall quotedEnd raws -> quotedEnd (concat raws).
Proof.
  induction raws as [|raw raws IH]; [done|]. intros _ Hsp Hq.
  apply Forall_cons in Hsp as [Hraw Hsp]. apply Forall_cons in Hq as [Hrawq Hq].
  simpl. destruct raws as [|r2 raws].
  - by rewrite app_nil_r.
  - destruct (IH ltac:(done) Hsp Hq) as (q & Hlast & Hhigh).
    exists q. split; [|done].
    destruct (concat (r2 :: raws)) as [|x t] eqn:Ec; [done|].
    rewrite <- Hlast. by rewrite last_app_cons.
Qed.

(** The byte length of the markup with [raws] as the attribute span. *)
Lemma byteLength_spliced (before after : jsstring) (raws : list jsstring) :
  raws <> [] -> Forall spaced raws -> Forall quotedEnd raws ->
  byteLength (before ++ concat raws ++ after)
  = (byteLength before + sum_list (byteLength <$> raws) + byteLength after)%nat.
Proof.
  intros Hne Hsp Hq.
  rewrite byteLength_app_head.
  - rewrite byteLength_app_last.
    + rewrite byteLength_concat_spaced by done. lia.
    + destruct (last_concat_quoted raws Hne Hsp Hq) as (q & -> & Hhigh). done.
  - destruct raws as [|raw raws]; [done|].
    apply Forall_cons in Hsp as [(c & r & -> & Hc) _]. simpl.
    by apply isSpace_not_low.
Qed.

(** The restoration pass keeps the byte length. *)
Lemma fixAttrOrder_byteLength (svgCode : jsstring) (originalAttrs : list PhysAttr) :
  byteLength (fixAttrOrder svgCode originalAttrs) = byteLength svgCode.
Proof.
  destruct (getAttrs svgCode) as [|first rest] eqn:Eattrs.
  { unfold fixAttrOrder. by rewrite Eattrs. }
  destruct (fixAttrOrder_shape svgCode originalAttrs) as (before & after & Hs & Hfix).
  { by rewrite Eattrs. }
  rewrite Hfix.
  transitivity (byteLength (before ++ concat (pa_raw <$> getAttrs svgCode) ++ after));
    [|by rewrite <- Hs].
  pose proof (reorderAttrs_Permutation (getAttrs svgCode) originalAttrs) as Hperm.
  assert (Hraws : pa_raw <$> reorderAttrs (getAttrs svgCode) originalAttrs
                  ≡ₚ pa_raw <$> getAttrs svgCode) by (by rewrite Hperm).
  rewrite !byteLength_spliced.
  - by rewrite Hraws.
  - rewrite Eattrs. done.
  - apply getAttrs_spaced.
  - apply getAttrs_quoted.
  - intros Hnil. rewrite Hnil in Hraws. apply Permutation_nil_l in Hraws.
    by rewrite Eattrs in Hraws.
  - rewrite Hraws. apply getAttrs_spaced.
  - rewrite Hraws. apply getAttrs_quoted.
Qed.

(** With distinct names the attributes of a markup are in their own
    order: the pass leaves the markup as it is. *)
Lemma fixAttrOrder_self (svgCode : jsstring) :
  NoDup (pa_name <$> getAttrs svgCode) ->
  fixAttrOrder svgCode (getAttrs svgCode) = svgCode.
Proof.
  intros Hnd. destruct (decide (getAttrs svgCode = [])) as [Hnil|Hne].
  { unfold fixAttrOrder. by rewrite Hnil. }
  destruct (fixAttrOrder_shape svgCode (getAttrs svgCode) Hne)
    as (before & after & Hs & Hfix).
  rewrite Hfix.
  transitivity (before ++ concat (pa_raw <$> getAttrs svgCode) ++ after); [|by rewrite <- Hs].
  do 3 f_equal. clear Hs Hfix.
  set (attrs := getAttrs svgCode) in *.
  unfold reorderAttrs. apply (f_equal (fmap pa_raw)). apply stableSort_id.
  apply (StronglySorted_weaken
           (fun a b => orderOf (attrOrder attrs attrs) a < orderOf (attrOrder attrs attrs) b)%nat).
  { intros; lia. }
  apply (StronglySorted_by_index _ (length attrs)). intros i a Hi.
  rewrite orderOf_attrOrder. unfold originalPosition.
  rewrite (lastIndex_NoDup _ i); [done|done|].
  by rewrite list_lookup_fmap, Hi.
Qed.

(** ** Runs without an accepted candidate *)

Section Rejected.
Context `{Browser}.

(** How a pass ends that finds nothing to try. *)
Lemma walkOps_nil (fuel : nat) (comparators : list Comparator) (lossless : bool)
    (fin : Outcome unit) (opNumber skipOps : nat) (doc : XMLDocument) (svgCode : jsstring) :
  walkOps fuel comparators lossless [] fin opNumber skipOps doc svgCode
  = match fin with
    | Ok _ => Exhausted
    | Throw e => Failed e
    | Diverge => Stalled
    end.
Proof. reflexivity. Qed.

(** When every candidate is rejected, a pass rejects the candidate at
    [skipOps]; with no candidate left there it runs the generator to its
    end. *)
Lemma walkOps_all_rejected (fuel : nat) (comparators : list Comparator) (lossless : bool)
    (ops : list CleaningOp) (fin : Outcome unit) (opNumber skipOps : nat) (doc : XMLDocument)
    (svgCode : jsstring) :
  (forall op, op ∈ ops -> rejected fuel comparators lossless doc svgCode op) ->
  walkOps fuel comparators lossless ops fin opNumber skipOps doc svgCode
  = if (skipOps - opNumber <? length ops)%nat
    then Restart svgCode (S (opNumber + (skipOps - opNumber)))
    else walkOps fuel comparators lossless [] fin opNumber skipOps doc svgCode.
Proof.
  revert opNumber. induction ops as [|op ops IH]; intros opNumber Hrej; [done|].
  simpl walkOps. destruct (opNumber <? skipOps)%nat eqn:Elt.
  - apply Nat.ltb_lt in Elt. rewrite IH by (intros op' Hop'; apply Hrej; by right).
    replace (skipOps - opNumber)%nat with (S (skipOps - S opNumber)) by lia.
    change (length (op :: ops)) with (S (length ops)).
    change (S (skipOps - S opNumber) <? S (length ops))%nat
      with (skipOps - S opNumber <? length ops)%nat.
    destruct (skipOps - S opNumber <? length ops)%nat; [|done].
    f_equal. lia.
  - apply Nat.ltb_ge in Elt.
    replace (skipOps - opNumber)%nat with 0%nat by lia.
    destruct (Hrej op (list_elem_of_here _ _)) as [Hne (e & He)].
    destruct (applyOp op doc) as [doc' r]. simpl in *.
    rewrite (str_eqb_ne _ _ Hne), He. f_equal. lia.
Qed.

(** When every candidate of the markup is rejected, the loop rejects them
    one pass after the other, and then ends as the generator ends: it
    returns the markup, or throws what the generator throws.  With more
    candidates than passes it bails out with the markup. *)
Lemma unjunkLoop_all_rejected (fuel : nat) (comparators : list Comparator) (lossless : bool)
    (bound : nat) (svgCode : jsstring) (skipOps : nat) (doc : XMLDocument) :
  parse fuel svgCode = Ok doc ->
  (forall op, op ∈ cleaningOps doc -> rejected fuel comparators lossless doc svgCode op) ->
  unjunkLoop fuel comparators lossless bound svgCode skipOps
  = if (length (yielded (cleaningOps doc)) - skipOps <? bound)%nat
    then match finished (cleaningOps doc) with
         | Ok _ => Ok svgCode
         | Throw e => Throw e
         | Diverge => Diverge
         end
    else Ok svgCode.
Proof.
  intros Hp Hrej. revert skipOps.
  induction bound as [|bound IH]; intros skipOps; simpl unjunkLoop; [done|].
  unfold mbind, outcome_bind. rewrite Hp.
  rewrite (walkOps_all_rejected fuel comparators lossless (yielded (cleaningOps doc)))
    by exact Hrej.
  rewrite Nat.sub_0_r.
  destruct (skipOps <? length (yielded (cleaningOps doc)))%nat eqn:Elt.
  - apply Nat.ltb_lt in Elt. rewrite IH. simpl.
    replace (length (yielded (cleaningOps doc)) - skipOps)%nat
      with (S (length (yielded (cleaningOps doc)) - S skipOps)) by lia.
    done.
  - apply Nat.ltb_ge in Elt.
    replace (length (yielded (cleaningOps doc)) - skipOps)%nat with 0%nat by lia.
    rewrite walkOps_nil. simpl. by destruct (finished (cleaningOps doc)).
Qed.

End Rejected.




(** C2 (amended): the restoration pass keeps the byte length, so the
    output of [unjunk] has the byte length of the last markup the driver
    committed.  That markup is the input when no candidate was accepted:
    when every candidate is rejected and every element has a style (so
    that the generator does not throw), [unjunk] returns an output as long
    as the input.  Otherwise the markup is the serialisation of an
    accepted document, which the length of the input does not bound. *)
Theorem unjunk_byteLength `{Browser} (fuel : nat) (svgCode : jsstring) (options : Options) :
  let scale := default 2%float (opt_scale options) in
  let comparators := [DefaultImageComparator scale; RecoloredImageComparator scale] in
  (forall committed originalAttrs,
     byteLength (fixAttrOrder committed originalAttrs) = byteLength committed)
  /\ (forall out, unjunk fuel svgCode options = Ok out ->
        exists committed,
          out = fixAttrOrder committed (getAttrs svgCode)
          /\ byteLength out = byteLength committed
          /\ (committed = svgCode
              \/ exists doc', rootIsSvg doc' /\ committed = serialize doc'))
  /\ (forall doc, parse fuel svgCode = Ok doc ->
        (forall op, op ∈ cleaningOps doc ->
           rejected fuel comparators (opt_lossless options) doc svgCode op) ->
        allStyled doc = true ->
        unjunk fuel svgCode options = Ok (fixAttrOrder svgCode (getAttrs svgCode))
        /\ byteLength (fixAttrOrder svgCode (getAttrs svgCode)) = byteLength svgCode).
Proof.
  intros scale comparators. split; [apply fixAttrOrder_byteLength|]. split.
  - intros out. unfold unjunk, mbind, outcome_bind.
    destruct (unjunkLoop _ _ _ _ _ _) as [committed| |] eqn:Hl; [|done|done].
    intros [= <-]. exists committed. split; [done|].
    split; [apply fixAttrOrder_byteLength|].
    by apply unjunkLoop_root in Hl.
  - intros doc Hp Hrej Hs. split; [|apply fixAttrOrder_byteLength].
    unfold unjunk, mbind, outcome_bind. fold scale. fold comparators.
    rewrite (unjunkLoop_all_rejected _ _ _ _ _ _ doc Hp Hrej).
    rewrite (proj2 (proj1 (cleaningOps_finished doc)) Hs).
    by destruct (_ <? _)%nat.
Qed.

(** C2 as stated fails: the input parses, a candidate is accepted, and the
    output, with the namespace declaration the recovery of [parse] put on
    the root, has 41 bytes where the input has 15. *)
Lemma unjunk_output_longer :
  let out := js "<svg xmlns=" ++ quoted SVG_NS ++ js "/>" in
  (exists doc, @parse Toy.browser 3 unboundExample = Ok doc)
  /\ @unjunk Toy.browser 3 unboundExample (mkOptions None false) = Ok out
  /\ byteLength unboundExample = 15%nat
  /\ byteLength out = 41%nat
  /\ ~ (byteLength out <= byteLength unboundExample)%nat.
Proof.
  split; [eexists; vm_compute; reflexivity|]. vm_compute.
  repeat split. lia.
Qed.

(** * Further properties *)

(** ** What [getAttrs] returns *)

Lemma span_forallb (p : Z -> bool) (s a b : jsstring) :
  span p s = (a, b) -> forallb p a = true.
Proof.
  revert a b. induction s as [|c s IH]; intros a b Hs; simpl in Hs.
  - by injection Hs as <- <-.
  - destruct (p c) eqn:Ec.
    + destruct (span p s) as [a' b']. injection Hs as <- <-.
      simpl. rewrite Ec. by apply (IH a' b').
    + by injection Hs as <- <-.
Qed.

Lemma forallb_removelast {A} (p : A -> bool) (l : list A) :
  forallb p l = true -> forallb p (removelast l) = true.
Proof.
  induction l as [|x l IH]; [done|]. simpl. intros [Hx Hl]%andb_true_iff.
  destruct l as [|y l]; [done|]. simpl in *. rewrite Hx. by apply IH.
Qed.

Lemma last_removelast_snoc {A} (l : list A) (c : A) :
  last l = Some c -> l = removelast l ++ [c].
Proof.
  induction l as [|x l IH]; [done|]. destruct l as [|y l].
  - simpl. by intros [= ->].
  - intros Hl. change (removelast (x :: y :: l)) with (x :: removelast (y :: l)).
    simpl. f_equal. by apply IH.
Qed.

(** A match of [reAttr] is white space, the name, and the rest up to the
    closing quote. *)
Lemma matchAttr_name (s name : jsstring) (n : nat) :
  matchAttr s = Some (name, n) ->
  name <> [] /\ forallb isAttrNameChar name = true
  /\ exists ws rest, take n s = ws ++ name ++ rest
                     /\ ws <> [] /\ forallb isSpace ws = true.
Proof.
  unfold matchAttr.
  destruct (span isSpace s) as [ws s1] eqn:E1.
  destruct (span isAttrNameChar s1) as [run s2] eqn:E2.
  pose proof (span_app _ _ _ _ E1) as ->. pose proof (span_app _ _ _ _ E2) as ->.
  pose proof (span_forallb _ _ _ _ E1) as Hws.
  pose proof (span_forallb _ _ _ _ E2) as Hrun.
  destruct ws as [|w ws]; [done|]. destruct run as [|r run]; [done|].
  assert (Htake : forall m, (m <= length s2)%nat ->
            take (length (w :: ws) + length (r :: run) + m) ((w :: ws) ++ (r :: run) ++ s2)
            = (w :: ws) ++ (r :: run) ++ take m s2).
  { intros m _. rewrite <- Nat.add_assoc, take_app_add'; [|done].
    f_equal. by rewrite take_app_add'. }
  destruct (matchEqQuoted s2) as [m|] eqn:Em.
  - intros [= <- <-]. split; [done|]. split; [done|].
    exists (w :: ws), (take m s2). split; [|done].
    apply Htake. by apply matchEqQuoted_length.
  - destruct (last (r :: run)) as [c|] eqn:El; [|done].
    destruct (removelast (r :: run)) as [|x nm] eqn:Er; [done|].
    destruct (c =? ch_eq) eqn:Ec; [|done].
    destruct (matchQuoted s2) as [m|] eqn:Eq; [|done].
    simpl. intros [= <- <-]. split; [done|]. split.
    { rewrite <- Er. by apply forallb_removelast. }
    exists (w :: ws), (c :: take m s2). split; [|done].
    etrans; [apply (Htake m); by apply matchQuoted_length|].
    rewrite (last_removelast_snoc _ _ El), Er. by rewrite <- !app_assoc.
Qed.

Lemma scanAttrs_slices (full : jsstring) (fuel pos : nat) :
  let attrs := scanAttrs fuel pos (drop pos full) in
  Forall (isSlice full) attrs
  /\ (forall first, head attrs = Some first -> pa_start first = pos)
  /\ (forall i a b, attrs !! i = Some a -> attrs !! S i = Some b -> pa_start b = pa_end a).
Proof.
  cbv zeta. revert pos. induction fuel as [|fuel IH]; intros pos; [done|].
  destruct (matchAttr (drop pos full)) as [[name n]|] eqn:Em.
  2:{ by rewrite scanAttrs_None. }
  rewrite (scanAttrs_Some _ _ _ _ _ Em), drop_drop.
  destruct (IH (pos + n)%nat) as (Hall & Hfirst & Hchain).
  apply matchAttr_inv in Em as [_ Hn]. rewrite length_drop in Hn.
  split; [|split].
  - constructor; [|done]. split; simpl; [lia|]. f_equal. lia.
  - by intros first [= <-].
  - intros [|i] a b Ha Hb; simpl in Ha, Hb.
    + injection Ha as <-. simpl. apply Hfirst. by rewrite <- head_lookup in Hb.
    + by apply (Hchain i).
Qed.

(** The attributes [getAttrs] returns are consecutive pieces of the
    markup: each is the slice between its [start] and its [end] and is
    not empty, the first begins four code units after the first [<svg],
    and each of the others begins where the one before it ends. *)
Theorem getAttrs_slices (svgCode : jsstring) :
  let attrs := getAttrs svgCode in
  Forall (isSlice svgCode) attrs
  /\ (forall first, head attrs = Some first ->
        exists start, indexOf svgCode (js "<svg") = Some start
                      /\ pa_start first = (start + 4)%nat)
  /\ (forall i a b, attrs !! i = Some a -> attrs !! S i = Some b -> pa_start b = pa_end a).
Proof.
  cbv zeta. unfold getAttrs.
  destruct (indexOf svgCode (js "<svg")) as [start|] eqn:Ei; [|done].
  destruct (scanAttrs_slices svgCode (length svgCode) (start + 4)) as (Hall & Hfirst & Hchain).
  split; [done|]. split; [|done].
  intros first Hf. exists start. split; [done|]. by apply Hfirst.
Qed.

Lemma scanAttrs_names (fuel pos : nat) (s : jsstring) :
  Forall (fun a =>
            pa_name a <> [] /\ forallb isAttrNameChar (pa_name a) = true
            /\ exists ws rest, pa_raw a = ws ++ pa_name a ++ rest
                               /\ ws <> [] /\ forallb isSpace ws = true)
         (scanAttrs fuel pos s).
Proof.
  revert pos s. induction fuel as [|fuel IH]; intros pos s; [done|].
  destruct (matchAttr s) as [[name n]|] eqn:Em; [|by rewrite scanAttrs_None].
  rewrite (scanAttrs_Some _ _ _ _ _ Em). constructor; [|apply IH].
  by apply matchAttr_name.
Qed.

(** Every name [getAttrs] returns is not empty and has no white space, no
    quote and none of [<], [>], [&] in it; the raw text of the attribute
    is white space (at least one code unit), then the name, then the
    rest. *)
Theorem getAttrs_name_shape (svgCode : jsstring) :
  Forall (fun a =>
            pa_name a <> [] /\ forallb isAttrNameChar (pa_name a) = true
            /\ exists ws rest, pa_raw a = ws ++ pa_name a ++ rest
                               /\ ws <> [] /\ forallb isSpace ws = true)
         (getAttrs svgCode).
Proof.
  unfold getAttrs. destruct (indexOf _ _) as [start|]; [|done]. apply scanAttrs_names.
Qed.

(** ** What [fixAttrOrder] keeps *)

Lemma concat_Permutation {A} (l k : list (list A)) : l ≡ₚ k -> concat l ≡ₚ concat k.
Proof.
  induction 1 as [|x l k _ IH|x y l|l k m _ IH1 _ IH2]; simpl.
  - done.
  - by rewrite IH.
  - rewrite !app_assoc. f_equiv. apply Permutation_app_comm.
  - by rewrite IH1.
Qed.

(** [fixAttrOrder] only moves code units: its result is a permutation of
    the markup it is given, whatever the original attributes are. *)
Theorem fixAttrOrder_Permutation (svgCode : jsstring) (originalAttrs : list PhysAttr) :
  fixAttrOrder svgCode originalAttrs ≡ₚ svgCode.
Proof.
  destruct (decide (getAttrs svgCode = [])) as [He|Hne].
  { unfold fixAttrOrder. by rewrite He. }
  destruct (fixAttrOrder_shape svgCode originalAttrs Hne) as (before & after & Hs & ->).
  rewrite Hs at 2. do 2 f_equiv.
  apply concat_Permutation, fmap_Permutation, reorderAttrs_Permutation.
Qed.

(** Restoring the order of a markup against its own attributes changes
    nothing, when the names of its root tag are distinct. *)
Theorem fixAttrOrder_own_attributes (svgCode : jsstring) :
  NoDup (pa_name <$> getAttrs svgCode) ->
  fixAttrOrder svgCode (getAttrs svgCode) = svgCode.
Proof. apply fixAttrOrder_self. Qed.

Lemma fixAttrOrder_own_attributes_witness :
  fixAttrOrder orderOutput (getAttrs orderOutput) = orderOutput.
Proof.
  apply fixAttrOrder_own_attributes. apply (bool_decide_unpack _). vm_compute. exact I.
Defined.

(** ** What [sortAttrs] does to any list of names *)

(** [sortAttrs] returns the names that do not begin with [xmlns] in their
    order, then those that begin with [xmlns] in reverse order.  The test
    is on the first five code units only, so a name such as [xmlnsfoo]
    moves to the end like a namespace declaration.  No name is lost or
    added. *)
Theorem sortAttrs_partition (names : list jsstring) :
  sortAttrs names
  = List.filter (fun n => negb (startsWith n (js "xmlns"))) names
    ++ rev (List.filter (fun n => startsWith n (js "xmlns")) names)
  /\ sortAttrs names ≡ₚ names.
Proof.
  split; [apply sortAttrs_spec|].
  rewrite sortAttrs_spec, <- Permutation_rev.
  apply filter_split_Permutation.
Qed.

(** ** What [RE_URL_FUNCTION] accepts *)

Lemma span_all (p : Z -> bool) (w s : jsstring) :
  forallb p w = true -> span p (w ++ s) = (w ++ fst (span p s), snd (span p s)).
Proof.
  induction w as [|c w IH]; simpl.
  - by destruct (span p s).
  - intros [-> Hw]%andb_true_iff. rewrite (IH Hw). done.
Qed.

Lemma trimStart_spaces (w s : jsstring) :
  forallb isSpace w = true -> trimStart (w ++ s) = trimStart s.
Proof. intros Hw. unfold trimStart. by rewrite span_all. Qed.

Lemma trimStart_trimmedHead (s : jsstring) : trimmedHead s -> trimStart s = s.
Proof.
  destruct s as [|c s]; [done|]. unfold trimStart. simpl. by intros ->.
Qed.

Lemma trimmedHead_trimStart (s : jsstring) : trimmedHead (trimStart s).
Proof.
  unfold trimStart. destruct (span isSpace s) as [a b] eqn:E. simpl.
  destruct b as [|c b]; [done|]. simpl. by apply span_stop in E.
Qed.

Lemma trimStart_suffix (s : jsstring) : exists a, s = a ++ trimStart s.
Proof.
  unfold trimStart. destruct (span isSpace s) as [a b] eqn:E. exists a.
  simpl. exact (span_app _ _ _ _ E).
Qed.

Lemma trimEnd_prefix (s : jsstring) : exists b, s = trimEnd s ++ b.
Proof.
  unfold trimEnd. destruct (trimStart_suffix (reverse s)) as [a Ha].
  exists (reverse a). rewrite <- reverse_app, <- Ha. by rewrite reverse_involutive.
Qed.

Lemma forallb_reverse {A} (p : A -> bool) (l : list A) :
  forallb p (reverse l) = forallb p l.
Proof.
  induction l as [|x l IH]; [done|].
  rewrite reverse_cons, forallb_app, IH. simpl. by rewrite andb_true_r, andb_comm.
Qed.

Lemma trimEnd_spaces (s w : jsstring) :
  forallb isSpace w = true -> trimEnd (s ++ w) = trimEnd s.
Proof.
  intros Hw. unfold trimEnd. rewrite reverse_app, trimStart_spaces; [done|].
  by rewrite forallb_reverse.
Qed.

Lemma trimmedHead_prefix (s a b : jsstring) : s = a ++ b -> trimmedHead s -> trimmedHead a.
Proof. intros -> H. by destruct a. Qed.

Lemma trim_length (s : jsstring) : (length (trim s) <= length (trimStart s) <= length s)%nat.
Proof.
  unfold trim. destruct (trimEnd_prefix (trimStart s)) as [b Hb].
  destruct (trimStart_suffix s) as [a Ha].
  apply (f_equal length) in Hb, Ha. rewrite length_app in Hb, Ha. lia.
Qed.

Lemma trim_fixed (g : jsstring) : trim g = g -> trimmedHead g /\ trimEnd g = g.
Proof.
  intros Hg. assert (Hh : trimmedHead g).
  { destruct g as [|c g]; [done|]. simpl. destruct (isSpace c) eqn:Ec; [|done].
    pose proof (trim_length (c :: g)) as Hl. rewrite Hg in Hl.
    change (c :: g) with ([c] ++ g) in Hl at 2.
    rewrite trimStart_spaces in Hl; [|simpl; by rewrite Ec].
    destruct (trimStart_suffix g) as [a Ha]. apply (f_equal length) in Ha.
    rewrite length_app in Ha. simpl in Hl. lia. }
  split; [done|]. unfold trim in Hg. by rewrite trimStart_trimmedHead in Hg.
Qed.

Lemma trim_trim (s : jsstring) : trim (trim s) = trim s.
Proof.
  unfold trim at 1.
  assert (Hh : trimmedHead (trim s)).
  { unfold trim. destruct (trimEnd_prefix (trimStart s)) as [b Hb].
    eapply trimmedHead_prefix; [exact Hb|]. apply trimmedHead_trimStart. }
  rewrite (trimStart_trimmedHead _ Hh). unfold trim, trimEnd.
  rewrite reverse_involutive. f_equal. apply trimStart_trimmedHead, trimmedHead_trimStart.
Qed.

Lemma trim_between (w2 g w3 : jsstring) :
  forallb isSpace w2 = true -> forallb isSpace w3 = true -> trim g = g ->
  trim (w2 ++ g ++ w3) = g.
Proof.
  intros H2 H3 [Hh He]%trim_fixed. unfold trim. rewrite (trimStart_spaces _ _ H2).
  destruct g as [|c g].
  - simpl. destruct (trimStart_suffix w3) as [a Ha].
    assert (trimStart w3 = []) as ->; [|done].
    unfold trimStart. rewrite <- (app_nil_r w3) at 1. by rewrite span_all.
  - rewrite (trimStart_trimmedHead ((c :: g) ++ w3)); [|done].
    by rewrite trimEnd_spaces.
Qed.

Lemma url_prefix (u : jsstring) :
  toLowerAscii <$> u = js "url(" ->
  exists c0 c1 c2 c3, u = [c0; c1; c2; c3] /\ isSpace c0 = false.
Proof.
  destruct u as [|c0 [|c1 [|c2 [|c3 [|c4 u]]]]]; try done.
  intros [= H0 _ _ _]. exists c0, c1, c2, c3. split; [done|].
  unfold toLowerAscii in H0.
  destruct ((65 <=? c0) && (c0 <=? 90)) eqn:E.
  - assert (c0 = 85) as -> by lia. done.
  - subst c0. done.
Qed.

(** A reference written as optional white space, [url(] in any letter
    case, optional white space, the reference, optional white space and
    [)] is recognised, and group 1 is the reference: this holds for every
    reference that has no white space at either end and no line
    terminator in it. *)
Theorem RE_URL_FUNCTION_round_trip (w1 u w2 g w3 : jsstring) :
  forallb isSpace w1 = true -> toLowerAscii <$> u = js "url(" ->
  forallb isSpace w2 = true -> forallb isSpace w3 = true ->
  trim g = g -> existsb isLineTerminator g = false ->
  RE_URL_FUNCTION (w1 ++ u ++ w2 ++ g ++ w3 ++ [ch_rpar]) = Some g.
Proof.
  intros H1 Hu H2 H3 Hg Hlt.
  destruct (url_prefix u Hu) as (c0 & c1 & c2 & c3 & -> & Hc0).
  unfold RE_URL_FUNCTION. rewrite (trimStart_spaces _ _ H1).
  rewrite trimStart_trimmedHead; [|done].
  change (take 4 ([c0; c1; c2; c3] ++ ?r)) with [c0; c1; c2; c3].
  change (drop 4 ([c0; c1; c2; c3] ++ ?r)) with r.
  rewrite Hu, str_eqb_refl.
  rewrite !app_assoc, last_snoc, Z.eqb_refl, removelast_last.
  rewrite <- !app_assoc, (trim_between _ _ _ H2 H3 Hg). by rewrite Hlt.
Qed.

Lemma RE_URL_FUNCTION_round_trip_witness :
  RE_URL_FUNCTION (js " " ++ js "URL(" ++ js "  " ++ js "#a b" ++ js " " ++ [ch_rpar])
  = Some (js "#a b").
Proof. apply RE_URL_FUNCTION_round_trip; vm_compute; reflexivity. Defined.

(** What [RE_URL_FUNCTION] recognises ends with [)]: white space after
    the parenthesis defeats the match.  Group 1 is a part of the value,
    has no white space at either end and no line terminator in it. *)
Theorem RE_URL_FUNCTION_group (s g : jsstring) :
  RE_URL_FUNCTION s = Some g ->
  last s = Some ch_rpar /\ trim g = g /\ existsb isLineTerminator g = false
  /\ exists a b, s = a ++ g ++ b.
Proof.
  unfold RE_URL_FUNCTION.
  destruct (trimStart_suffix s) as [ws Hs]. set (s1 := trimStart s) in *.
  destruct (str_eqb _ _); [|done].
  destruct (last (drop 4 s1)) as [c|] eqn:El; [|done].
  destruct (c =? ch_rpar) eqn:Ec; [|done]. apply Z.eqb_eq in Ec as ->.
  destruct (existsb _ _) eqn:Elt; [done|]. intros [= <-].
  pose proof (last_removelast_snoc _ _ El) as Ht.
  assert (Hfull : s = (ws ++ take 4 s1 ++ removelast (drop 4 s1)) ++ [ch_rpar]).
  { rewrite Hs at 1. rewrite <- (take_drop 4 s1) at 1. rewrite Ht at 1.
    by rewrite <- !app_assoc. }
  split; [|split; [|split]].
  - rewrite Hfull. apply last_snoc.
  - apply trim_trim.
  - done.
  - set (t := removelast (drop 4 s1)) in *. unfold trim.
    destruct (trimStart_suffix t) as [a Ha].
    destruct (trimEnd_prefix (trimStart t)) as [b Hb].
    exists (ws ++ take 4 s1 ++ a), (b ++ [ch_rpar]).
    rewrite Hfull, Ha at 1. rewrite Hb at 1. by rewrite <- !app_assoc.
Qed.

Lemma RE_URL_FUNCTION_group_witness :
  last (js "url( #a )") = Some ch_rpar.
Proof.
  destruct (RE_URL_FUNCTION_group (js "url( #a )") (js "#a")) as [H _].
  - vm_compute. reflexivity.
  - exact H.
Defined.

(** ** What the candidate operations do to the tree *)

Lemma nodeIds_app (l k : list Node) : nodeIds (l ++ k) = nodeIds l ++ nodeIds k.
Proof. unfold nodeIds. by rewrite flat_map_app, fmap_app. Qed.

Lemma nodeIds_cons (n : Node) (l : list Node) :
  nodeIds (n :: l) = node_id n :: nodeIds (node_children n) ++ nodeIds l.
Proof.
  unfold nodeIds. simpl. rewrite fmap_app. unfold subtree at 1. simpl.
  by rewrite descendants_children.
Qed.

Lemma nodeIds_flat_map (f : Node -> list Node) (ch : list Node) :
  Forall (fun c => nodeIds (f c) `sublist_of` nodeIds [c]) ch ->
  nodeIds (List.flat_map f ch) `sublist_of` nodeIds ch.
Proof.
  induction 1 as [|c ch Hc _ IH]; [done|].
  simpl. rewrite nodeIds_app. change (c :: ch) with ([c] ++ ch).
  rewrite (nodeIds_app [c]). by apply sublist_app.
Qed.

Lemma updateNode_nodeIds (target : NodeId) (f : Node -> list Node) (n : Node) :
  (forall m, nodeIds (f m) `sublist_of` nodeIds [m]) ->
  nodeIds (updateNode target f n) `sublist_of` nodeIds [n].
Proof.
  intros Hf. induction n as [id nm ns attrs ch IH|id t d] using Node_tree_ind.
  - simpl. destruct (bool_decide (id = target)); [apply Hf|].
    rewrite !nodeIds_cons. simpl. apply sublist_skip, sublist_app; [|done].
    by apply nodeIds_flat_map.
  - simpl. destruct (bool_decide (id = target)); [apply Hf|done].
Qed.

Lemma updateDocument_nodeIds (target : NodeId) (f : Node -> list Node) (doc : XMLDocument) :
  (forall m, nodeIds (f m) `sublist_of` nodeIds [m]) ->
  nodeIds (updateDocument target f doc) `sublist_of` nodeIds doc.
Proof.
  intros Hf. apply nodeIds_flat_map, Forall_forall. intros c _.
  by apply updateNode_nodeIds.
Qed.

Lemma nodeIds_withAttributes g (m : Node) : nodeIds [withAttributes g m] = nodeIds [m].
Proof. by destruct m. Qed.

Lemma nodeIds_mapElements g (doc : XMLDocument) :
  nodeIds (mapElements g <$> doc) = nodeIds doc.
Proof.
  unfold nodeIds. rewrite <- !allNodes_subtree, allNodes_mapElements.
  rewrite <- list_fmap_compose. apply list_fmap_ext. intros _ n _.
  apply node_id_mapElements.
Qed.

(** No candidate operation adds a node or changes the order of the nodes
    it leaves: in document order, the nodes after the call are a
    subsequence of the nodes before it, whatever the operation and
    whatever the document it is called on. *)
Theorem applyOp_nodes_subsequence `{Browser} (op : CleaningOp) (doc : XMLDocument) :
  (node_id <$> allNodes (fst (applyOp op doc))) `sublist_of` (node_id <$> allNodes doc).
Proof.
  change (nodeIds (fst (applyOp op doc)) `sublist_of` nodeIds doc).
  destruct op; simpl;
    try (apply updateDocument_nodeIds; intros m;
         first [by rewrite nodeIds_withAttributes | apply sublist_nil_l]).
  - etrans; [apply updateDocument_nodeIds; intros m; apply sublist_nil_l|].
    by rewrite !nodeIds_mapElements.
  - apply updateDocument_nodeIds. intros m. rewrite (nodeIds_cons m).
    rewrite app_nil_r. by apply sublist_cons.
Qed.

(** ** The [xlink:href] operation *)

Lemma setAttribute_fresh (attrs : list Attr) (name value : jsstring) :
  name ∉ attr_name <$> attrs ->
  setAttribute attrs name value = attrs ++ [mkAttr name None name value].
Proof.
  induction attrs as [|a attrs IH]; [done|]. simpl.
  intros [Ha Hr]%not_elem_of_cons.
  rewrite str_eqb_ne; [|done]. by rewrite IH.
Qed.

Lemma replaceXlinkHref_fold (p q : list Attr) :
  NoDup (attr_name <$> (p ++ q)) ->
  js "href" ∉ attr_name <$> (p ++ q) ->
  (forall a b, a ∈ p ++ q -> b ∈ p ++ q ->
               isXlinkHref a = true -> isXlinkHref b = true -> a = b) ->
  fold_left replaceXlinkStep q (q ++ (reinserted <$> p)) = reinserted <$> (p ++ q).
Proof.
  revert p. induction q as [|a q IH]; intros p Hnd Hhref Hone.
  { by rewrite app_nil_r. }
  change (fold_left replaceXlinkStep (a :: q) ?l)
    with (fold_left replaceXlinkStep q (replaceXlinkStep l a)).
  assert (Hstep : replaceXlinkStep ((a :: q) ++ (reinserted <$> p)) a
                  = q ++ (reinserted <$> (p ++ [a]))).
  { assert (Hval : default (attr_value a)
                       (getAttribute ((a :: q) ++ (reinserted <$> p)) (attr_name a))
                     = attr_value a).
    { unfold getAttribute. simpl. by rewrite str_eqb_refl. }
    unfold replaceXlinkStep. rewrite Hval. simpl removeAttribute. rewrite str_eqb_refl.
    fold (isXlinkHref a).
    assert (Hfresh : attr_name (reinserted a) ∉ attr_name <$> (q ++ (reinserted <$> p))).
    { rewrite fmap_app, elem_of_app. intros [Hq|Hp].
      - apply list_elem_of_fmap in Hq as (b & Hb & Hbq).
        unfold reinserted in Hb. simpl in Hb. destruct (isXlinkHref a).
        + apply Hhref. rewrite Hb. apply list_elem_of_fmap_2.
          apply elem_of_app. right. by right.
        + rewrite fmap_app in Hnd. apply NoDup_app in Hnd as (_ & _ & Hnd).
          rewrite fmap_cons in Hnd. apply NoDup_cons in Hnd as [Hnd _].
          apply Hnd. rewrite Hb. by apply list_elem_of_fmap_2.
      - apply list_elem_of_fmap in Hp as (b' & Hb & Hbp).
        apply list_elem_of_fmap in Hbp as (b & -> & Hbp).
        unfold reinserted in Hb. simpl in Hb.
        assert (Hab : attr_name a <> attr_name b).
        { intros Heq. rewrite fmap_app in Hnd.
          apply NoDup_app in Hnd as (_ & Hnd & _).
          apply (Hnd (attr_name b)); [by apply list_elem_of_fmap_2|].
          rewrite fmap_cons, <- Heq. by left. }
        assert (Hin : forall x, x ∈ p ++ a :: q -> attr_name x <> js "href").
        { intros x Hx Heq. apply Hhref. rewrite <- Heq. by apply list_elem_of_fmap_2. }
        destruct (isXlinkHref a) eqn:Ea, (isXlinkHref b) eqn:Eb.
        + apply Hab. f_equal. apply Hone; try done.
          * apply elem_of_app. right. by left.
          * apply elem_of_app. by left.
        + apply (Hin b); [apply elem_of_app; by left|done].
        + apply (Hin a); [apply elem_of_app; right; by left|done].
        + done. }
    assert (Hset : forall name, name = attr_name (reinserted a) ->
              setAttribute (q ++ (reinserted <$> p)) name (attr_value a)
              = q ++ (reinserted <$> (p ++ [a]))).
    { intros name ->. rewrite setAttribute_fresh; [|done].
      rewrite fmap_app, <- app_assoc. do 2 f_equal. }
    destruct (isXlinkHref a) eqn:Ea; apply Hset; unfold reinserted; by rewrite Ea. }
  rewrite Hstep, (IH (p ++ [a])); rewrite <- ?app_assoc; done.
Qed.

(** On an element whose attribute names are distinct, that has no
    attribute named [href] and at most one [href] in the XLink namespace,
    the [xlink:href] operation keeps the order and the values of the
    attributes and puts every one of them in no namespace, the
    [xlink:href] under the name [href]; afterwards the element has no
    [href] in the XLink namespace, so the operation is not offered for it
    again. *)
Theorem replaceXlinkHref_renames (attrs : list Attr) :
  NoDup (attr_name <$> attrs) ->
  js "href" ∉ attr_name <$> attrs ->
  (forall a b, a ∈ attrs -> b ∈ attrs ->
               isXlinkHref a = true -> isXlinkHref b = true -> a = b) ->
  replaceXlinkHref attrs = reinserted <$> attrs
  /\ hasAttributeNS (replaceXlinkHref attrs) XLINK_NS (js "href") = false.
Proof.
  intros Hnd Hhref Hone.
  assert (Heq : replaceXlinkHref attrs = reinserted <$> attrs).
  { unfold replaceXlinkHref.
    pose proof (replaceXlinkHref_fold [] attrs Hnd Hhref Hone) as Hf.
    simpl in Hf. by rewrite app_nil_r in Hf. }
  split; [done|]. rewrite Heq. unfold hasAttributeNS.
  apply not_true_is_false. intros (a' & Ha & Hx)%existsb_exists.
  apply list_elem_of_In, list_elem_of_fmap in Ha as (a & -> & _).
  unfold reinserted in Hx. simpl in Hx. done.
Qed.

Lemma replaceXlinkHref_renames_witness :
  replaceXlinkHref [mkAttr (js "x") None (js "x") (js "1");
                    mkAttr (js "xlink:href") (Some XLINK_NS) (js "href") (js "#a");
                    mkAttr (js "y") None (js "y") (js "2")]
  = [mkAttr (js "x") None (js "x") (js "1");
     mkAttr (js "href") None (js "href") (js "#a");
     mkAttr (js "y") None (js "y") (js "2")].
Proof.
  refine (proj1 (replaceXlinkHref_renames _ _ _ _)).
  - apply (bool_decide_unpack _). vm_compute. exact I.
  - apply (bool_decide_unpack _). vm_compute. exact I.
  - intros a b Ha Hb Hxa Hxb.
    assert (Hx : forall x, x ∈ [mkAttr (js "x") None (js "x") (js "1");
                    mkAttr (js "xlink:href") (Some XLINK_NS) (js "href") (js "#a");
                    mkAttr (js "y") None (js "y") (js "2")] ->
                 isXlinkHref x = true ->
                 x = mkAttr (js "xlink:href") (Some XLINK_NS) (js "href") (js "#a")).
    { intros x Hx Hxx. repeat (apply elem_of_cons in Hx as [->|Hx]); try done.
      by apply elem_of_nil in Hx. }
    by rewrite (Hx a Ha Hxa), (Hx b Hb Hxb).
Defined.

(** ** Class lists *)

Lemma splitTokens_tokens (cur s : jsstring) :
  forallb (fun c => negb (isAsciiSpace c)) cur = true ->
  Forall isClassToken (splitTokens cur s).
Proof.
  assert (Hrev : forall c : jsstring, c <> [] ->
            forallb (fun c => negb (isAsciiSpace c)) c = true -> isClassToken (reverse c)).
  { intros c Hne Hc. split; [|by rewrite forallb_reverse].
    intros Hr. apply Hne. apply (f_equal reverse) in Hr.
    by rewrite reverse_involutive in Hr. }
  revert cur. induction s as [|c s IH]; intros cur Hcur; simpl.
  - destruct cur as [|d cur]; [done|]. constructor; [|done]. by apply Hrev.
  - destruct (isAsciiSpace c) eqn:Ec.
    + destruct cur as [|d cur]; [by apply IH|].
      constructor; [by apply Hrev|by apply IH].
    + apply IH. simpl. by rewrite Ec.
Qed.

Lemma splitTokens_token (cur t s : jsstring) :
  forallb (fun c => negb (isAsciiSpace c)) t = true ->
  splitTokens cur (t ++ s) = splitTokens (reverse t ++ cur) s.
Proof.
  revert cur. induction t as [|c t IH]; intros cur; [done|].
  simpl. intros [Hc Ht]%andb_true_iff. apply negb_true_iff in Hc. rewrite Hc.
  rewrite (IH _ Ht), reverse_cons, <- app_assoc. done.
Qed.

Lemma splitTokens_flush (t s : jsstring) :
  isClassToken t ->
  splitTokens (reverse t) [] = [t]
  /\ splitTokens (reverse t) (32 :: s) = t :: splitTokens [] s.
Proof.
  intros [Hne _]. simpl.
  destruct (reverse t) as [|z l] eqn:E.
  - apply (f_equal reverse) in E. by rewrite reverse_involutive in E.
  - by rewrite <- E, reverse_involutive.
Qed.

Lemma splitTokens_joinWith (toks : list jsstring) :
  Forall isClassToken toks -> splitTokens [] (joinWith (js " ") toks) = toks.
Proof.
  induction 1 as [|x toks Hx Htoks IH]; [done|].
  destruct toks as [|y toks].
  - simpl joinWith. rewrite <- (app_nil_r x) at 1.
    rewrite splitTokens_token; [|apply Hx]. rewrite app_nil_r.
    by apply splitTokens_flush.
  - change (joinWith (js " ") (x :: y :: toks))
      with (x ++ 32 :: joinWith (js " ") (y :: toks)).
    rewrite splitTokens_token; [|apply Hx]. rewrite app_nil_r.
    destruct (splitTokens_flush x (joinWith (js " ") (y :: toks)) Hx) as [_ ->].
    f_equal. apply IH.
Qed.

Lemma dedup_spec (seen l : list jsstring) :
  NoDup (dedup seen l)
  /\ (forall x, x ∈ dedup seen l <-> x ∈ l /\ x ∉ seen).
Proof.
  revert seen. induction l as [|x l IH]; intros seen; simpl.
  { split; [constructor|]. intros y. split; [by intros ?%elem_of_nil|].
    by intros [?%elem_of_nil _]. }
  destruct (bool_decide (x ∈ seen)) eqn:Ex.
  - apply bool_decide_eq_true in Ex. destruct (IH seen) as [Hnd Hin].
    split; [done|]. intros y. rewrite Hin, elem_of_cons.
    split; [tauto|]. intros [[->|Hy] Hs]; [done|tauto].
  - apply bool_decide_eq_false in Ex. destruct (IH (x :: seen)) as [Hnd Hin].
    split.
    + constructor; [|done]. rewrite Hin, elem_of_cons. tauto.
    + intros y. rewrite !elem_of_cons, Hin, elem_of_cons.
      destruct (decide (y = x)) as [->|Hne]; [tauto|]. tauto.
Qed.

Lemma dedup_NoDup (seen l : list jsstring) :
  NoDup l -> (forall x, x ∈ l -> x ∉ seen) -> dedup seen l = l.
Proof.
  revert seen. induction l as [|x l IH]; intros seen Hnd Hs; [done|].
  apply NoDup_cons in Hnd as [Hx Hnd]. simpl.
  rewrite bool_decide_eq_false_2; [|apply Hs; by left].
  f_equal. apply IH; [done|]. intros y Hy. rewrite elem_of_cons.
  intros [->|Hys]; [done|]. apply (Hs y); [by right|done].
Qed.

Lemma classList_NoDup_tokens (attrs : list Attr) :
  NoDup (classList attrs) /\ Forall isClassToken (classList attrs).
Proof.
  unfold classList. split; [apply dedup_spec|].
  apply Forall_forall. intros t [Ht _]%dedup_spec.
  by eapply Forall_forall; [apply (splitTokens_tokens [])|].
Qed.

(** The tokens of [Array.from(el.classList)] are distinct, not empty and
    free of white space, so [classList.remove] is never called with a
    token it would refuse. *)
Theorem classList_token_set (attrs : list Attr) :
  NoDup (classList attrs) /\ Forall isClassToken (classList attrs).
Proof.
  unfold classList.
  set (text := orElse (getAttribute attrs (js "class")) []).
  destruct (dedup_spec [] (splitTokens [] text)) as [Hnd Hin].
  split; [exact Hnd|]. apply Forall_forall. intros t Ht.
  apply Hin in Ht as [Ht _].
  pose proof (splitTokens_tokens [] text eq_refl) as Hall.
  rewrite Forall_forall in Hall. by apply Hall.
Qed.

Lemma filter_NoDup_list {A} (p : A -> bool) (l : list A) : NoDup l -> NoDup (List.filter p l).
Proof.
  induction 1 as [|x l Hx _ IH]; simpl; [constructor|].
  destruct (p x); [|done]. constructor; [|done].
  intros Hin. apply Hx. apply list_elem_of_In in Hin. apply filter_In in Hin as [Hin _].
  by apply list_elem_of_In.
Qed.

Lemma filter_Forall_list {A} (P : A -> Prop) (p : A -> bool) (l : list A) :
  Forall P l -> Forall P (List.filter p l).
Proof.
  induction 1 as [|x l Hx _ IH]; simpl; [done|]. destruct (p x); [by constructor|done].
Qed.

(** After the removal of a class, the class list of the element is the
    class list before without that class, the other classes in their
    order; this holds for every attribute list and every class name. *)
Theorem classListRemove_classList (attrs : list Attr) (className : jsstring) :
  classList (classListRemove attrs className)
  = List.filter (fun t => negb (str_eqb t className)) (classList attrs).
Proof.
  unfold classListRemove, hasAttribute.
  destruct (getAttribute attrs (js "class")) as [v|] eqn:Ev.
  2:{ rewrite bool_decide_eq_false_2; [|by intros [? ?]].
      unfold classList. by rewrite Ev. }
  rewrite bool_decide_eq_true_2; [|by eexists].
  set (kept := List.filter _ (classList attrs)).
  destruct (classList_NoDup_tokens attrs) as [Hnd Htok].
  assert (Hk1 : NoDup kept) by by apply filter_NoDup_list.
  assert (Hk2 : Forall isClassToken kept) by by apply filter_Forall_list.
  unfold classList at 1. rewrite getAttribute_setAttribute.
  assert (orElse (Some (joinWith (js " ") kept)) [] = joinWith (js " ") kept) as ->.
  { by destruct (joinWith (js " ") kept). }
  rewrite splitTokens_joinWith; [|done].
  apply dedup_NoDup; [done|]. intros x _. apply not_elem_of_nil.
Qed.

(** ** What [parse] throws *)

(** Whatever [parse] throws is a [SyntaxError] whose message is
    [SVG parse error: ] followed by at most 256 code units, or the
    [TypeError] of a document without a document element. *)
Theorem parse_throws `{Browser} (fuel : nat) (svgCode : jsstring) (e : Exn) :
  parse fuel svgCode = Throw e ->
  e = TypeError
  \/ exists m, e = SyntaxError (parseErrorPrefix ++ m) /\ (length m <= 256)%nat.
Proof.
  revert svgCode. induction fuel as [|fuel IH]; intros svgCode; [done|].
  simpl.
  destruct (documentElement _) as [[id nm ns attrs ch|]|]; try (intros [= <-]; by left).
  destruct (bool_decide (ns = Some SVG_NS)).
  { destruct (str_eqb nm (js "svg")); [done|]. intros [= <-]. right.
    eexists. split; [done|]. vm_compute. lia. }
  destruct (textContent <$> parserErrorDiv _) as [[|c text]|].
  2:{ intros [= <-]. right. exists (take 256 (c :: text)). split; [done|].
      rewrite length_take. lia. }
  all: destruct ns as [uri|]; [|by apply IH].
  all: intros [= <-]; right; eexists; (split; [done|]); vm_compute; lia.
Qed.

Lemma parse_throws_witness :
  exists m, @parse Toy.browser 2 (js "<svg xmlns='x'/>")
            = Throw (SyntaxError (parseErrorPrefix ++ m)) /\ (length m <= 256)%nat.
Proof.
  destruct (@parse_throws Toy.browser 2 (js "<svg xmlns='x'/>")
              (SyntaxError (parseErrorPrefix ++ js "The namespace should be "
                              ++ quoted SVG_NS)))
    as [Ht|(m & Hm & Hlen)].
  - vm_compute. reflexivity.
  - discriminate Ht.
  - exists m. split; [|done]. rewrite <- Hm. vm_compute. reflexivity.
Defined.

(** ** How many images a validation renders *)

Lemma checkComparator_calls `{Browser} (fuel : nat) (a b : jsstring) (lossless : bool)
    (c : Comparator) :
  let r := checkComparator fuel a b lossless c in
  (snd r = [mkCompareCall c 1]
   \/ (lossless = false /\ snd r = [mkCompareCall c 1; mkCompareCall c 2])).
Proof.
  cbv zeta. unfold checkComparator.
  destruct (compare fuel c a b 1) as [s1| |]; try by left.
  destruct (s1 <=? 0)%float; [by left|].
  destruct lossless; [by left|]. right. split; [done|].
  destruct (compare fuel c a b 2) as [s2| |]; done.
Qed.

(** A validation calls [compare] at most twice for each comparator, and
    at most once for each when the check is strict; every call is for one
    of the comparators given; and a candidate that is accepted was
    rendered at 1x by every comparator. *)
Theorem assertVisuallySame_calls `{Browser} (fuel : nat) (a b : jsstring)
    (comparators : list Comparator) (lossless : bool) :
  let r := assertVisuallySame fuel a b comparators lossless in
  (length (snd r) <= 2 * length comparators)%nat
  /\ (lossless = true -> (length (snd r) <= length comparators)%nat)
  /\ (forall call, call ∈ snd r -> call_comparator call ∈ comparators)
  /\ (fst r = Ok tt -> forall c, c ∈ comparators -> mkCompareCall c 1 ∈ snd r).
Proof.
  cbv zeta. induction comparators as [|c rest IH].
  { simpl. split; [lia|]. split; [lia|]. split; [by intros ? ?%elem_of_nil|].
    by intros _ ? ?%elem_of_nil. }
  destruct IH as (IH1 & IH2 & IH3 & IH4).
  pose proof (checkComparator_calls fuel a b lossless c) as Hc. cbv zeta in Hc.
  simpl assertVisuallySame.
  destruct (checkComparator fuel a b lossless c) as [r calls] eqn:Ec. simpl in Hc.
  assert (Hlen : (length calls <= 2)%nat /\ (lossless = true -> length calls <= 1)%nat
                 /\ (forall call, call ∈ calls -> call_comparator call = c)
                 /\ mkCompareCall c 1 ∈ calls).
  { destruct Hc as [->|[-> ->]]; simpl.
    - split; [lia|]. split; [lia|]. split; [|by left].
      by intros call ->%list_elem_of_singleton.
    - split; [lia|]. split; [done|]. split; [|by left].
      intros call Hcall. repeat (apply elem_of_cons in Hcall as [->|Hcall]); try done.
      by apply elem_of_nil in Hcall. }
  destruct Hlen as (Hl1 & Hl2 & Hl3 & Hl4).
  destruct r as [[]|e|].
  - destruct (assertVisuallySame fuel a b rest lossless) as [r' calls'] eqn:Er.
    simpl in *. rewrite length_app. split; [lia|]. split.
    { intros Hs. specialize (IH2 Hs). specialize (Hl2 Hs). lia. }
    split.
    + intros call [Hcall|Hcall]%elem_of_app.
      * apply elem_of_cons. left. by apply Hl3.
      * apply elem_of_cons. right. by apply IH3.
    + intros Hok c' [->|Hc']%elem_of_cons; apply elem_of_app; [by left|].
      right. by apply IH4.
  - simpl. split; [lia|]. split; [intros Hs; specialize (Hl2 Hs); lia|].
    split; [|done]. intros call Hcall. apply elem_of_cons. left. by apply Hl3.
  - simpl. split; [lia|]. split; [intros Hs; specialize (Hl2 Hs); lia|].
    split; [|done]. intros call Hcall. apply elem_of_cons. left. by apply Hl3.
Qed.

(** ** The score of two images *)

Section ImageScore.
Variable hypot : float -> float -> float -> float.

Lemma compareLoop_S (fuel i : nat) (a b : list Z) (difference : float) :
  compareLoop hypot (S fuel) i a b difference
  = if (i <? length a)%nat then
      compareLoop hypot fuel (i + 4) a b
        (difference
         + hypot (element a i - element b i)
                 (element a (i + 1) - element b (i + 1))
                 (element a (i + 2) - element b (i + 2)))%float
    else difference.
Proof. reflexivity. Qed.

(** The allowance of [compareImageData] is never used up: more turns
    change nothing. *)
Lemma compareLoop_enough (fuel i : nat) (a b : list Z) (difference : float) :
  (length a <= i + 4 * fuel)%nat ->
  compareLoop hypot (S fuel) i a b difference = compareLoop hypot fuel i a b difference.
Proof.
  revert i difference. induction fuel as [|fuel IH]; intros i difference Hlen.
  - rewrite compareLoop_S. destruct (i <? length a)%nat eqn:E; [|done].
    apply Nat.ltb_lt in E. lia.
  - rewrite (compareLoop_S (S fuel) i), (compareLoop_S fuel i).
    destruct (i <? length a)%nat; [|done]. apply IH. lia.
Qed.

Lemma mod4_offset (k j : nat) : (j < 3)%nat -> ((4 * k + j) mod 4 <> 3)%nat.
Proof.
  intros Hj. rewrite Nat.add_comm, (Nat.mul_comm 4 k), Nat.Div0.mod_add.
  destruct j as [|[|[|j]]]; cbn; lia.
Qed.

Lemma element_sameColours (a a' : list Z) (i : nat) :
  sameColours a' a -> (i mod 4 <> 3)%nat -> element a' i = element a i.
Proof. intros Hs Hi. unfold element. by rewrite (Hs i Hi). Qed.

Lemma compareLoop_sameColours (fuel i : nat) (a a' b b' : list Z) (difference : float) :
  length a' = length a -> sameColours a' a -> sameColours b' b ->
  (exists k, i = 4 * k)%nat ->
  compareLoop hypot fuel i a' b' difference = compareLoop hypot fuel i a b difference.
Proof.
  intros Hlen Ha Hb. revert i difference.
  induction fuel as [|fuel IH]; intros i difference [k ->]; [done|].
  rewrite !compareLoop_S, Hlen. destruct (4 * k <? length a)%nat; [|done].
  assert (H1 : ((4 * k + 1) mod 4 <> 3)%nat) by (apply mod4_offset; lia).
  assert (H2 : ((4 * k + 2) mod 4 <> 3)%nat) by (apply mod4_offset; lia).
  assert (H0 : ((4 * k) mod 4 <> 3)%nat).
  { rewrite <- (Nat.add_0_r (4 * k)). apply mod4_offset. lia. }
  rewrite !(element_sameColours a a'), !(element_sameColours b b') by done.
  apply IH. exists (S k). lia.
Qed.

(** The score does not depend on the alpha bytes: images of the same
    sizes whose red, green and blue bytes are the same get the same
    result, whatever [Math.hypot] computes. *)
Theorem compareImageData_ignores_alpha (A A' B B' : ImageData) :
  img_width A' = img_width A -> img_height A' = img_height A ->
  img_width B' = img_width B -> img_height B' = img_height B ->
  length (img_data A') = length (img_data A) ->
  sameColours (img_data A') (img_data A) -> sameColours (img_data B') (img_data B) ->
  compareImageData hypot A' B' = compareImageData hypot A B.
Proof.
  intros Hw Hh Hw' Hh' Hlen Ha Hb. unfold compareImageData.
  rewrite Hw, Hh, Hw', Hh', Hlen.
  destruct (_ || _); [done|]. f_equal. apply compareLoop_sameColours; try done.
  by exists 0%nat.
Qed.

Lemma byte_difference (v : Z) :
  0 <= v < 256 ->
  (PrimFloat.of_uint63 (Uint63.of_Z v) - PrimFloat.of_uint63 (Uint63.of_Z v))%float = 0%float.
Proof.
  intros Hv.
  assert (Hall : forallb (fun n : nat =>
            match Prim2SF (PrimFloat.of_uint63 (Uint63.of_Z (Z.of_nat n))
                           - PrimFloat.of_uint63 (Uint63.of_Z (Z.of_nat n)))%float with
            | SpecFloat.S754_zero false => true
            | _ => false
            end) (seq 0 256) = true) by (vm_compute; reflexivity).
  rewrite forallb_forall in Hall. specialize (Hall (Z.to_nat v)).
  rewrite Z2Nat.id in Hall by lia.
  apply Prim2SF_inj.
  destruct (Prim2SF (_ - _)%float) as [[]| | |] eqn:E; try done.
  all: exfalso; cut (false = true); [done|]; apply Hall, in_seq; lia.
Qed.

Lemma compareLoop_zero (fuel i : nat) (a b : list Z) :
  hypot 0 0 0 = 0%float ->
  (exists k, length a = 4 * k)%nat -> Forall (fun v => 0 <= v < 256) a ->
  sameColours a b -> (exists n, i = 4 * n)%nat ->
  compareLoop hypot fuel i a b 0 = 0%float.
Proof.
  intros Hh [k Hk] Hbytes Hs. revert i.
  induction fuel as [|fuel IH]; intros i [n ->]; [done|].
  rewrite compareLoop_S. destruct (4 * n <? length a)%nat eqn:E; [|done].
  apply Nat.ltb_lt in E.
  assert (Hel : forall j, (j < 3)%nat ->
            (element a (4 * n + j) - element b (4 * n + j))%float = 0%float).
  { intros j Hj. unfold element. rewrite <- (Hs (4 * n + j)%nat).
    2:{ by apply mod4_offset. }
    assert (Hlt : (4 * n + j < length a)%nat) by lia.
    destruct (lookup_lt_is_Some_2 a (4 * n + j)%nat Hlt) as [v Hv]. rewrite Hv.
    apply byte_difference. rewrite Forall_forall in Hbytes. apply Hbytes.
    by eapply list_elem_of_lookup_2. }
  pose proof (Hel 0%nat) as H0. rewrite Nat.add_0_r in H0.
  rewrite H0, (Hel 1%nat), (Hel 2%nat), Hh by lia.
  change (0 + 0)%float with 0%float. apply IH. exists (S n). lia.
Qed.

(** Two images of the same sizes with the same red, green and blue bytes
    score exactly zero, provided [Math.hypot] of three zeros is zero (as
    ECMAScript requires): such a candidate passes at 1x and no 2x image
    is rendered for it. *)
Theorem compareImageData_same_colours (A B : ImageData) :
  hypot 0 0 0 = 0%float ->
  wellFormedImage A ->
  img_width A = img_width B -> img_height A = img_height B ->
  sameColours (img_data A) (img_data B) ->
  compareImageData hypot A B = Some 0%float.
Proof.
  intros Hh [Hlen Hbytes] Hw Hhh Hs. unfold compareImageData.
  rewrite Hw, Hhh, !Nat.eqb_refl. simpl. f_equal.
  apply compareLoop_zero; try done; [by eexists|by exists 0%nat].
Qed.
End ImageScore.

Lemma compareImageData_ignores_alpha_witness :
  compareImageData naiveHypot (mkImageData 1 1 [10; 20; 30; 255]) (mkImageData 1 1 [10; 20; 33; 0])
  = compareImageData naiveHypot (mkImageData 1 1 [10; 20; 30; 7]) (mkImageData 1 1 [10; 20; 33; 9]).
Proof.
  apply compareImageData_ignores_alpha; try reflexivity.
  all: intros [|[|[|[|i]]]] Hi; try reflexivity; by destruct Hi.
Defined.

Lemma compareImageData_same_colours_witness :
  compareImageData naiveHypot (mkImageData 1 1 [10; 20; 30; 255]) (mkImageData 1 1 [10; 20; 30; 0])
  = Some 0%float.
Proof.
  apply compareImageData_same_colours; try reflexivity.
  - split; [reflexivity|]. repeat constructor; done.
  - intros [|[|[|[|i]]]] Hi; try reflexivity. by destruct Hi.
Defined.

(** ** The page pool *)

Lemma free_spec (page : Page) (p : PagePool) :
  let r := free page p in
  _maxPages (fst r) = _maxPages p /\ _poolSize (fst r) = _poolSize p
  /\ (_freePages (fst r) = [] \/ _resolutionQueue (fst r) = [])
  /\ _resolutionQueue p = (fst <$> snd r) ++ _resolutionQueue (fst r)
  /\ (snd <$> snd r) ++ _freePages (fst r) = _freePages p ++ [page].
Proof.
  cbv zeta. unfold free, _resolveFromPool. cbn [_freePages _resolutionQueue _maxPages _poolSize].
  set (q := _resolutionQueue p). set (f := _freePages p ++ [page]).
  assert (Hf : (1 <= length f)%nat).
  { unfold f. rewrite length_app. simpl. lia. }
  destruct (length q `min` length f =? 0)%nat eqn:E.
  - apply Nat.eqb_eq in E. cbn [fst snd _freePages _resolutionQueue _maxPages _poolSize].
    assert (q = []) as -> by (apply length_zero_iff_nil; lia).
    repeat split; auto.
  - set (c := (length q `min` length f)%nat) in *.
    cbn [fst snd _freePages _resolutionQueue _maxPages _poolSize].
    split; [done|]. split; [done|]. split; [|split].
    + destruct (decide (length q <= length f)%nat).
      * right. apply drop_ge. lia.
      * left. apply drop_ge. lia.
    + rewrite fst_zip; [by rewrite take_drop|]. rewrite !length_take. lia.
    + rewrite snd_zip; [by rewrite take_drop|]. rewrite !length_take. lia.
Qed.

Lemma alloc_spec (resolve : Resolver) (p : PagePool) :
  match alloc resolve p with
  | (p', Immediately page) =>
      _freePages p = _freePages p' ++ [page]
      /\ _resolutionQueue p' = _resolutionQueue p /\ _poolSize p' = _poolSize p
      /\ _maxPages p' = _maxPages p
  | (p', Pending started) =>
      _freePages p = [] /\ _freePages p' = []
      /\ _resolutionQueue p' = _resolutionQueue p ++ [resolve]
      /\ _maxPages p' = _maxPages p
      /\ match started with
         | Some _ => belowLimit (_poolSize p) (_maxPages p) = true
                     /\ _poolSize p' = S (_poolSize p)
         | None => _poolSize p' = _poolSize p
         end
  end.
Proof.
  unfold alloc. destruct (last (_freePages p)) as [page|] eqn:El.
  - split; [|done]. by apply last_removelast_snoc.
  - assert (_freePages p = []) as Hf.
    { destruct (_freePages p) as [|x l] using rev_ind; [done|]. by rewrite last_snoc in El. }
    destruct (belowLimit _ _) eqn:Eb; simpl; by rewrite Hf.
Qed.

Lemma poolInvariant_new (limit : PageLimit) : poolInvariant limit (newRunner limit).
Proof.
  unfold poolInvariant. simpl. repeat split; auto; try lia.
  - destruct limit; simpl; [lia|done].
  - constructor.
  - by intros page ?%elem_of_nil.
Qed.

Lemma poolInvariant_free (limit : PageLimit) (w : Runner) (page : Page)
    (n created : nat) (holders : list (Resolver * Page)) :
  poolInvariant limit w ->
  (n + created <= _poolSize (pool w))%nat -> (pagesCreated w <= created)%nat ->
  NoDup (_freePages (pool w) ++ [page] ++ (snd <$> holders)) ->
  (forall x, x ∈ _freePages (pool w) ++ [page] ++ (snd <$> holders) -> (x < created)%nat) ->
  poolInvariant limit
    (mkRunner (fst (free page (pool w))) n created
              (holders ++ snd (free page (pool w))) (asked w)
              (handed w ++ snd (free page (pool w)))).
Proof.
  intros (Hmax & Hcount & Hlim & Hidle & Hnd & Hlt & Hfifo) Hn Hcr Hnd' Hlt'.
  destruct (free_spec page (pool w)) as (Fmax & Fsize & Fidle & Fq & Ff).
  assert (Hperm : _freePages (fst (free page (pool w)))
                  ++ (snd <$> holders ++ snd (free page (pool w)))
                  ≡ₚ _freePages (pool w) ++ [page] ++ (snd <$> holders)).
  { rewrite fmap_app, (app_assoc (_freePages (pool w))), <- Ff.
    rewrite <- !app_assoc. rewrite (Permutation_app_comm (snd <$> holders)).
    rewrite !app_assoc. f_equiv. apply Permutation_app_comm. }
  unfold poolInvariant. cbn [pool creating pagesCreated inUse asked handed].
  split; [by rewrite Fmax|]. split; [by rewrite Fsize|]. split; [by rewrite Fsize|].
  split; [done|]. split; [by rewrite Hperm|]. split.
  - intros x Hx. apply Hlt'. by rewrite <- Hperm.
  - rewrite fmap_app, <- app_assoc, <- Fq. done.
Qed.

Lemma poolInvariant_step (limit : PageLimit) (ev : Event) (w w' : Runner) :
  poolInvariant limit w -> runEvent ev w = Some w' -> poolInvariant limit w'.
Proof.
  intros Hinv. pose proof Hinv as (Hmax & Hcount & Hlim & Hidle & Hnd & Hlt & Hfifo).
  destruct ev as [resolve| | |i]; simpl.
  - pose proof (alloc_spec resolve (pool w)) as Ha.
    destruct (alloc resolve (pool w)) as [p' [page|started]].
    + destruct Ha as (Hf & Hq & Hs & Hm). intros [= <-].
      unfold poolInvariant. cbn [pool creating pagesCreated inUse asked handed].
      assert (Hqe : _resolutionQueue (pool w) = []).
      { destruct Hidle as [He|He]; [|done]. rewrite He in Hf. by destruct (_freePages p'). }
      assert (Hperm : _freePages p' ++ (snd <$> inUse w ++ [(resolve, page)])
                      ≡ₚ _freePages (pool w) ++ (snd <$> inUse w)).
      { rewrite Hf, fmap_app, <- !app_assoc. f_equiv. apply Permutation_app_comm. }
      split; [by rewrite Hm|]. split; [by rewrite Hs|]. split; [by rewrite Hs|].
      split; [right; by rewrite Hq|]. split; [by rewrite Hperm|]. split.
      * intros x Hx. apply Hlt. by rewrite <- Hperm.
      * rewrite Hq, Hqe, fmap_app, Hfifo, Hqe, !app_nil_r. done.
    + destruct Ha as (Hf & Hf' & Hq & Hm & Hstart). intros [= <-].
      unfold poolInvariant. cbn [pool creating pagesCreated inUse asked handed].
      split; [by rewrite Hm|]. split; [|split; [|split; [by left|split; [|split]]]].
      * destruct started; [destruct Hstart as [_ ->]|rewrite Hstart]; lia.
      * destruct started; [|by rewrite Hstart]. destruct Hstart as [Hb ->].
        rewrite Hmax in Hb. destruct limit; [|done]. simpl in *.
        apply Nat.ltb_lt in Hb. lia.
      * by rewrite Hf', <- Hf.
      * intros x Hx. apply Hlt. by rewrite Hf, <- Hf'.
      * rewrite Hq, Hfifo, app_assoc. done.
  - destruct (creating w) as [|n] eqn:Ec; [done|].
    destruct (free (pagesCreated w) (pool w)) as [p' resolved] eqn:Ef. intros [= <-].
    pose proof (poolInvariant_free limit w (pagesCreated w) n (S (pagesCreated w)) (inUse w) Hinv)
      as Hfree.
    rewrite Ef in Hfree. apply Hfree; try lia.
    + rewrite (Permutation_app_comm [_]), app_assoc. apply NoDup_app. split; [done|].
      split; [|apply NoDup_singleton]. intros x Hx ->%list_elem_of_singleton.
      specialize (Hlt _ Hx). lia.
    + intros x Hx. rewrite (Permutation_app_comm [_]), app_assoc in Hx.
      apply elem_of_app in Hx as [Hx | ->%list_elem_of_singleton]; [|lia].
      specialize (Hlt _ Hx). lia.
  - destruct (creating w) as [|n] eqn:Ec; [done|]. intros [= <-].
    unfold poolInvariant. cbn [pool creating pagesCreated inUse asked handed].
    repeat split; auto. lia.
  - destruct (inUse w !! i) as [[r page]|] eqn:Ei; [|done].
    destruct (free page (pool w)) as [p' resolved] eqn:Ef. intros [= <-].
    pose proof (poolInvariant_free limit w page (creating w) (pagesCreated w)
                  (delete i (inUse w)) Hinv) as Hfree.
    rewrite Ef in Hfree.
    assert (Hperm : _freePages (pool w) ++ [page] ++ (snd <$> delete i (inUse w))
                    ≡ₚ _freePages (pool w) ++ (snd <$> inUse w)).
    { f_equiv. rewrite (delete_Permutation (inUse w) i (r, page) Ei) at 2. done. }
    apply Hfree; try lia.
    + by rewrite Hperm.
    + intros x Hx. apply Hlt. by rewrite <- Hperm.
Qed.

Lemma poolInvariant_runEvents (limit : PageLimit) (evs : list Event) (w w' : Runner) :
  poolInvariant limit w -> runEvents evs w = Some w' -> poolInvariant limit w'.
Proof.
  revert w. induction evs as [|ev evs IH]; intros w Hinv; simpl.
  - by intros [= <-].
  - destruct (runEvent ev w) as [w1|] eqn:E; [|done].
    apply IH. by eapply poolInvariant_step.
Qed.

(** The pool never has more pages than its limit: whatever calls of
    [alloc], settlements of [_createPage] and frees have happened, the
    pages created and the pages being created are together no more than
    [_maxPages]. *)
Theorem PagePool_limit (limit : PageLimit) (evs : list Event) (w : Runner) :
  runEvents evs (newRunner limit) = Some w ->
  withinLimit (pagesCreated w + creating w) limit.
Proof.
  intros Hrun.
  destruct (poolInvariant_runEvents limit evs _ w (poolInvariant_new limit) Hrun)
    as (_ & Hcount & Hlim & _).
  destruct limit; [|done]. simpl in *. lia.
Qed.

Lemma PagePool_limit_witness :
  exists w, runEvents [Alloc 7; Alloc 8; PageCreated; Alloc 9; Free 0]%nat
                      (newRunner (AtMost 1)) = Some w
            /\ withinLimit (pagesCreated w + creating w) (AtMost 1).
Proof.
  eexists. split; [vm_compute; reflexivity|].
  apply (PagePool_limit (AtMost 1) [Alloc 7; Alloc 8; PageCreated; Alloc 9; Free 0]%nat).
  vm_compute. reflexivity.
Defined.

(** A page is never in two hands: the free pages and the pages held by
    callers are all different, so no page is free while a caller holds
    it and no two callers hold the same page.  This supposes that
    [_createPage] gives a page that was not given before and that a
    caller frees only the page it holds, once. *)
Theorem PagePool_exclusive (limit : PageLimit) (evs : list Event) (w : Runner) :
  runEvents evs (newRunner limit) = Some w ->
  NoDup (_freePages (pool w) ++ (snd <$> inUse w)).
Proof.
  intros Hrun.
  by destruct (poolInvariant_runEvents limit evs _ w (poolInvariant_new limit) Hrun)
    as (_ & _ & _ & _ & Hnd & _).
Qed.

Lemma PagePool_exclusive_witness :
  exists w, runEvents [Alloc 7; Alloc 8; PageCreated; PageCreated; Free 1; Alloc 9]%nat
                      (newRunner NoLimit) = Some w
            /\ NoDup (_freePages (pool w) ++ (snd <$> inUse w)).
Proof.
  eexists. split; [vm_compute; reflexivity|].
  apply (PagePool_exclusive NoLimit
           [Alloc 7; Alloc 8; PageCreated; PageCreated; Free 1; Alloc 9]%nat).
  vm_compute. reflexivity.
Defined.

(** Callers are served in the order of their calls of [alloc]: those who
    have got a page, in the order they got it, followed by those still
    waiting, in the order of the queue, are the callers in the order they
    asked.  And nobody waits while a page is free. *)
Theorem PagePool_first_come (limit : PageLimit) (evs : list Event) (w : Runner) :
  runEvents evs (newRunner limit) = Some w ->
  asked w = (fst <$> handed w) ++ _resolutionQueue (pool w)
  /\ (_freePages (pool w) = [] \/ _resolutionQueue (pool w) = []).
Proof.
  intros Hrun.
  by destruct (poolInvariant_runEvents limit evs _ w (poolInvariant_new limit) Hrun)
    as (_ & _ & _ & Hidle & _ & _ & Hfifo).
Qed.

Lemma PagePool_first_come_witness :
  exists w, runEvents [Alloc 7; Alloc 8; Alloc 9; PageCreated; Free 0; Free 0]%nat
                      (newRunner (AtMost 1)) = Some w
            /\ asked w = (fst <$> handed w) ++ _resolutionQueue (pool w)
            /\ (_freePages (pool w) = [] \/ _resolutionQueue (pool w) = []).
Proof.
  eexists. split; [vm_compute; reflexivity|].
  apply (PagePool_first_come (AtMost 1)
           [Alloc 7; Alloc 8; Alloc 9; PageCreated; Free 0; Free 0]%nat).
  vm_compute. reflexivity.
Defined.

(** ** The runner and the command line *)

(** The page never works at a scale that is zero, negative or NaN: the
    scale [unjunk] uses after [process] is greater than zero, and a scale
    that is not is treated as no scale at all (the default 2 is used). *)
Theorem process_scale `{Browser} (fuel : nat) (svgCode : jsstring)
    (options : option ProcessOptions) :
  (0 <? default 2 (opt_scale (typedOptions options)))%float = true
  /\ (forall o scale, options = Some o -> po_scale o = Some scale ->
        (0 <? scale)%float = false ->
        process fuel svgCode options
        = process fuel svgCode (Some (mkProcessOptions None (po_lossless o)))).
Proof.
  split.
  - destruct options as [[[scale|] lossless]|]; simpl; try done.
    destruct (0 <? scale)%float eqn:E; simpl; done.
  - intros [s l] scale -> Hs Hneg. simpl in Hs. subst s.
    unfold process, typedOptions. simpl. by rewrite Hneg.
Qed.

Section Cli.
Variable run : jsstring -> Outcome jsstring.

Lemma runForFile_other (st : CliState) (f g : jsstring) :
  f <> g -> files (runForFile run st f) !! g = files st !! g.
Proof.
  intros Hne. unfold runForFile.
  destruct (files st !! f) as [input|]; [|done].
  destruct (run input) as [output| |]; try done.
  destruct (_ <=? _)%nat; [done|]. simpl. by rewrite lookup_insert_ne.
Qed.

Lemma bulkOverwrite_other (filenames : list jsstring) (st : CliState) (g : jsstring) :
  g ∉ filenames -> files (bulkOverwrite run filenames st) !! g = files st !! g.
Proof.
  revert st. induction filenames as [|f rest IH]; intros st Hg; [done|].
  apply not_elem_of_cons in Hg as [Hne Hg].
  unfold bulkOverwrite. simpl. fold (bulkOverwrite run rest (runForFile run st f)).
  rewrite IH; [|done]. by apply runForFile_other.
Qed.

Lemma runForFile_same (st : CliState) (f : jsstring) :
  leftBy run (files st !! f) (files (runForFile run st f) !! f)
  /\ exitCode1 (runForFile run st f)
     = exitCode1 st || bool_decide (files st !! f = None).
Proof.
  unfold runForFile, leftBy.
  destruct (files st !! f) as [input|] eqn:Ef; simpl.
  2:{ split; [done|]. by rewrite orb_true_r. }
  rewrite orb_false_r.
  destruct (run input) as [output| |] eqn:Er; try (rewrite Ef; split; [by left|done]).
  destruct (byteLength input <=? byteLength output)%nat eqn:E.
  - rewrite Ef. split; [by left|done].
  - simpl. rewrite lookup_insert_eq. split; [|done]. right. exists output.
    apply Nat.leb_gt in E. done.
Qed.

Lemma bulkOverwrite_spec (filenames : list jsstring) (st : CliState) :
  NoDup filenames ->
  (forall f, f ∈ filenames ->
     leftBy run (files st !! f) (files (bulkOverwrite run filenames st) !! f))
  /\ exitCode1 (bulkOverwrite run filenames st)
     = exitCode1 st || existsb (fun f => bool_decide (files st !! f = None)) filenames.
Proof.
  revert st. induction filenames as [|f rest IH]; intros st Hnd.
  { split; [by intros f ?%elem_of_nil|]. simpl. by rewrite orb_false_r. }
  apply NoDup_cons in Hnd as [Hf Hnd].
  unfold bulkOverwrite. simpl. fold (bulkOverwrite run rest (runForFile run st f)).
  destruct (IH (runForFile run st f) Hnd) as [IHfiles IHexit].
  destruct (runForFile_same st f) as [Hsame Hexit].
  split.
  - intros g [->|Hg]%elem_of_cons.
    + by rewrite bulkOverwrite_other.
    + specialize (IHfiles g Hg). rewrite runForFile_other in IHfiles; [done|].
      by intros ->.
  - rewrite IHexit, Hexit, <- orb_assoc. do 2 f_equal.
    apply eq_true_iff_eq. rewrite !existsb_exists.
    split; intros (g & Hg & Hnone); exists g; (split; [done|]).
    + rewrite runForFile_other in Hnone; [done|].
      intros ->. by apply Hf, list_elem_of_In.
    + rewrite runForFile_other; [done|].
      intros ->. by apply Hf, list_elem_of_In.
Qed.
End Cli.

(** The command line never makes a file longer.  For distinct file
    names: a file that is not named keeps its text; a file that is named
    keeps its text, or gets the output of the run when that has strictly
    fewer bytes than the text read; a name that cannot be read stays
    unreadable and sets the exit code to 1, which nothing else does (a
    run that throws leaves the file and the exit code alone). *)
Theorem bulkOverwrite_shrinks (run : jsstring -> Outcome jsstring)
    (filenames : list jsstring) (fs : FileSystem) :
  NoDup filenames ->
  let st := bulkOverwrite run filenames (mkCliState fs false) in
  (forall f, f ∉ filenames -> files st !! f = fs !! f)
  /\ (forall f, f ∈ filenames ->
        match fs !! f with
        | None => files st !! f = None
        | Some input =>
            files st !! f = Some input
            \/ exists output, run input = Ok output
                              /\ (byteLength output < byteLength input)%nat
                              /\ files st !! f = Some output
        end)
  /\ (exitCode1 st = true <-> exists f, f ∈ filenames /\ fs !! f = None).
Proof.
  intros Hnd. cbv zeta.
  destruct (bulkOverwrite_spec run filenames (mkCliState fs false) Hnd) as [Hfiles Hexit].
  split; [|split].
  - intros f Hf. by apply (bulkOverwrite_other run filenames (mkCliState fs false)).
  - intros f Hf. apply (Hfiles f Hf).
  - rewrite Hexit. simpl. rewrite existsb_exists. split.
    + intros (f & Hf & Hnone). exists f. split; [by apply list_elem_of_In|].
      by apply bool_decide_eq_true in Hnone.
    + intros (f & Hf & Hnone). exists f. split; [by apply list_elem_of_In|].
      by apply bool_decide_eq_true.
Qed.

Lemma bulkOverwrite_shrinks_witness :
  files (bulkOverwrite (fun input => Ok (take 1 input)) [js "a.svg"; js "b.svg"]
           (mkCliState {[ js "a.svg" := js "<svg/>" ]} false)) !! js "c.svg" = None.
Proof.
  destruct (bulkOverwrite_shrinks (fun input => Ok (take 1 input)) [js "a.svg"; js "b.svg"]
              {[ js "a.svg" := js "<svg/>" ]}) as (Hother & _ & _).
  - apply (bool_decide_unpack _). vm_compute. exact I.
  - rewrite Hother; [done|]. apply (bool_decide_unpack _). vm_compute. exact I.
Defined.

(** ** The patch of the first runner *)

Lemma startsWith_split (s p : jsstring) :
  startsWith s p = true -> s = p ++ drop (length p) s.
Proof.
  revert s. induction p as [|c p IH]; intros s; [done|].
  destruct s as [|d s]; [done|]. simpl.
  intros [Hc Hp]%andb_true_iff. apply Z.eqb_eq in Hc as ->. f_equal. by apply IH.
Qed.

Lemma indexOf_unfold (s p : jsstring) :
  indexOf s p
  = if startsWith s p then Some 0%nat
    else match s with
         | [] => None
         | _ :: s' => S <$> indexOf s' p
         end.
Proof. by destruct s. Qed.

Lemma indexOf_split (s p : jsstring) (i : nat) :
  indexOf s p = Some i -> s = take i s ++ p ++ drop (i + length p) s.
Proof.
  revert i. induction s as [|c s IH]; intros i; rewrite indexOf_unfold.
  - destruct (startsWith [] p) eqn:E; [|done]. intros [= <-].
    by apply startsWith_split.
  - destruct (startsWith (c :: s) p) eqn:E.
    + intros [= <-]. by apply startsWith_split.
    + destruct (indexOf s p) as [k|] eqn:Ek; [|done]. intros [= <-].
      simpl. f_equal. by apply IH.
Qed.

Lemma indexOf_before (s p : jsstring) (i k : nat) :
  indexOf s p = Some i -> (k < i)%nat -> startsWith (drop k s) p = false.
Proof.
  revert i k. induction s as [|c s IH]; intros i k; rewrite indexOf_unfold.
  - destruct (startsWith [] p); [|done]. intros [= <-]. lia.
  - destruct (startsWith (c :: s) p) eqn:E.
    + intros [= <-]. lia.
    + destruct (indexOf s p) as [j|] eqn:Ej; [|done]. intros [= <-] Hk.
      destruct k as [|k]; [done|]. simpl. apply (IH j); [done|lia].
Qed.

Lemma indexOf_None (s p : jsstring) (k : nat) :
  indexOf s p = None -> startsWith (drop k s) p = false.
Proof.
  revert k. induction s as [|c s IH]; intros k; rewrite indexOf_unfold.
  - destruct (startsWith [] p) eqn:E; [done|]. intros _. by destruct k.
  - destruct (startsWith (c :: s) p) eqn:E; [done|].
    destruct (indexOf s p) as [j|] eqn:Ej; [done|]. intros _.
    destruct k as [|k]; [done|]. simpl. by apply IH.
Qed.

Lemma startsWith_self (p r : jsstring) : startsWith (p ++ r) p = true.
Proof.
  induction p as [|c p IH]; [by destruct r|]. simpl. by rewrite Z.eqb_refl.
Qed.

(** Where [p] occurs, the first occurrence is not later. *)
Lemma indexOf_occurrence (before p after : jsstring) :
  exists i, indexOf (before ++ p ++ after) p = Some i /\ (i <= length before)%nat.
Proof.
  destruct (indexOf (before ++ p ++ after) p) as [i|] eqn:Ei.
  - exists i. split; [done|].
    destruct (decide (i <= length before)%nat) as [|Hgt]; [done|].
    pose proof (indexOf_before _ _ _ (length before) Ei ltac:(lia)) as Hs.
    by rewrite drop_app_length, startsWith_self in Hs.
  - pose proof (indexOf_None _ _ (length before) Ei) as Hs.
    by rewrite drop_app_length, startsWith_self in Hs.
Qed.

Lemma indexOf_char_None (s : jsstring) (c : Z) : indexOf s [c] = None -> c ∉ s.
Proof.
  intros Hi Hin. apply list_elem_of_lookup in Hin as [k Hk].
  pose proof (indexOf_None _ _ k Hi) as Hs.
  rewrite <- (take_drop k s), lookup_app_r in Hk by (rewrite length_take; lia).
  rewrite length_take in Hk.
  pose proof (lookup_lt_Some _ _ _ Hk) as Hlt. rewrite length_drop in Hlt.
  replace (k - k `min` length s)%nat with 0%nat in Hk by lia.
  destruct (drop k s) as [|d r]; [done|]. simpl in Hk. injection Hk as ->.
  change (startsWith (c :: r) [c]) with ((c =? c) && startsWith r []) in Hs.
  rewrite Z.eqb_refl in Hs. by destruct r.
Qed.

(** The patch of [doStuff] moves the first declaration of the SVG
    namespace ([xmlnsDeclaration]) in the output to just before the next
    [>] after it and changes nothing else: the declaration moved is the
    first one, there is no [>] in what it jumps over, and the result has
    the code units of the output.  The output is left as it is only when
    no declaration in it has a [>] after it. *)
Theorem moveXmlnsLast_moves (output : jsstring) :
  (exists before between after,
     output = before ++ xmlnsDeclaration ++ between ++ [ch_gt] ++ after
     /\ (forall k, (k < length before)%nat ->
           startsWith (drop k output) xmlnsDeclaration = false)
     /\ (ch_gt ∉ between)
     /\ moveXmlnsLast output = before ++ between ++ xmlnsDeclaration ++ [ch_gt] ++ after
     /\ moveXmlnsLast output ≡ₚ output)
  \/ ((forall before after, output = before ++ xmlnsDeclaration ++ after -> ch_gt ∉ after)
      /\ moveXmlnsLast output = output).
Proof.
  unfold moveXmlnsLast.
  destruct (indexOf output xmlnsDeclaration) as [i|] eqn:Ei.
  2:{ right. split; [|done]. intros before after Ho.
      pose proof (indexOf_None _ _ (length before) Ei) as Hs.
      by rewrite Ho, drop_app_length, startsWith_self in Hs. }
  set (rest := drop (i + length xmlnsDeclaration) output).
  pose proof (indexOf_split _ _ _ Ei) as Ho. fold rest in Ho.
  destruct (indexOf rest [ch_gt]) as [j|] eqn:Ej.
  2:{ right. split; [|done]. intros before after Hout Hin.
      destruct (indexOf_occurrence before xmlnsDeclaration after) as (i' & Hi' & Hle).
      rewrite <- Hout, Ei in Hi'. injection Hi' as <-.
      apply (indexOf_char_None _ _ Ej).
      assert (Hafter : after = drop (length before - i) rest).
      { unfold rest. rewrite drop_drop.
        replace (i + length xmlnsDeclaration + (length before - i))%nat
          with (length before + length xmlnsDeclaration)%nat by lia.
        rewrite Hout at 1. rewrite <- drop_drop, drop_app_length.
        by rewrite drop_app_length. }
      rewrite Hafter in Hin. by apply (subseteq_drop _ _ _ Hin). }
  left. exists (take i output), (take j rest), (drop (S j) rest).
  pose proof (indexOf_split _ _ _ Ej) as Hr.
  replace (j + length [ch_gt])%nat with (S j) in Hr by (simpl; lia).
  assert (Hout : output = take i output ++ xmlnsDeclaration ++ take j rest
                          ++ [ch_gt] ++ drop (S j) rest).
  { rewrite Ho at 1. by rewrite Hr at 1. }
  split; [done|]. split; [|split; [|split; [done|]]].
  - intros k Hk. rewrite length_take in Hk. apply (indexOf_before _ _ i); [done|lia].
  - intros Hin. apply list_elem_of_lookup in Hin as [k Hk].
    pose proof (lookup_lt_Some _ _ _ Hk) as Hlt. rewrite length_take in Hlt.
    assert (Hkj : (k < j)%nat) by lia.
    pose proof (indexOf_before _ _ _ k Ej Hkj) as Hs.
    rewrite lookup_take_lt in Hk by lia.
    rewrite <- (take_drop k rest), lookup_app_r in Hk by (rewrite length_take; lia).
    rewrite length_take in Hk. replace (k - k `min` length rest)%nat with 0%nat in Hk by lia.
    destruct (drop k rest) as [|c r]; [done|]. simpl in Hk. injection Hk as ->.
    change (startsWith (ch_gt :: r) [ch_gt])
      with ((ch_gt =? ch_gt) && startsWith r []) in Hs.
    rewrite Z.eqb_refl in Hs. by destruct r.
  - rewrite Hout at 2. f_equiv. rewrite !app_assoc. f_equiv. f_equiv.
    apply Permutation_app_comm.
Qed.

(** ** Candidates and the document they come from *)

Section Grounded.
Context `{Browser}.

Lemma loopBody_grounded (b : bool) (m : Node) (op : CleaningOp) :
  List.In op (removeChildOps b m ++ yielded (elementOps b m)) -> groundedIn m op.
Proof.
  intros Hin. apply in_app_or in Hin as [Hin|Hin].
  { unfold removeChildOps in Hin. destruct (_ || _); [|done]. by destruct Hin as [<-|[]]. }
  destruct m as [id nm ns attrs ch|]; [|done].
  apply elementOps_In in Hin
    as [[Hx ->]|[Hin|[(c & Hc & ->)|[(props & p & Hs & Hp & ->)|[[Hg Hin]|(Hu & _ & ->)]]]]].
  - done.
  - unfold removeAttrOps in Hin. apply in_map_iff in Hin as (name & <- & Hname).
    apply filter_In in Hname as [Hname Hkeep]. simpl. split.
    + apply list_elem_of_In. eapply Permutation_in; [|exact Hname].
      rewrite sortAttrs_spec, <- Permutation_rev. apply filter_split_Permutation.
    + apply negb_true_iff, bool_decide_eq_false in Hkeep. done.
  - simpl. by apply list_elem_of_In.
  - simpl. exists props. split; [done|]. by apply list_elem_of_In.
  - apply inlineGradient_inv in Hin as (Hid & ? & _ & ->). done.
  - done.
Qed.
End Grounded.

(** Every candidate of the sequence is about a node of the document and
    about something that node has when the sequence is generated: the
    attribute it removes is an attribute of the node (and not one of the
    protected names), the class is in its class list, the style property
    in its style, the [xlink:href] to replace is there, the gradient to
    inline is a gradient with an [id], the element to unwrap is a [g] or
    an [svg]. *)
Theorem cleaningOps_grounded `{Browser} (doc : XMLDocument) (op : CleaningOp) :
  op ∈ cleaningOps doc ->
  exists m, m ∈ allNodes doc /\ node_id m = opTarget op /\ groundedIn m op.
Proof.
  intros Hin%elem_of_generated.
  destruct (cleaningOps_origin _ _ Hin) as (m & b & Hm & Hop).
  exists m. split; [by apply list_elem_of_In|]. split.
  - symmetry. by eapply loopBody_target.
  - by eapply loopBody_grounded.
Qed.

Lemma cleaningOps_grounded_witness :
  exists m, m ∈ allNodes (toyDocument gradientExample)
            /\ node_id m = [0; 1]%nat
            /\ @groundedIn Toy.browser m (OpRemoveAttribute [0; 1]%nat (js "fill")).
Proof.
  apply (@cleaningOps_grounded Toy.browser (toyDocument gradientExample)
           (OpRemoveAttribute [0; 1]%nat (js "fill"))).
  apply elem_of_generated. vm_compute. repeat (first [left; reflexivity | right]).
Defined.

(** ** When the outer loop of [unjunk] ends *)

Lemma walkOps_end_from `{Browser} (fuel : nat) (comparators : list Comparator)
    (lossless : bool) (ops : list CleaningOp) (fin : Outcome unit) (opNumber skipOps : nat)
    (doc : XMLDocument) (svgCode : jsstring) :
  let d := (skipOps - opNumber)%nat in
  let pass := walkOps fuel comparators lossless ops fin opNumber skipOps doc svgCode in
  let unchanged :=
    forall k, (d + k < length ops)%nat ->
      serialize (applyAll (take (S k) (drop d ops)) doc) = svgCode in
  (unchanged -> pass = walkOps fuel comparators lossless [] fin opNumber skipOps doc svgCode)
  /\ (pass = Exhausted \/ (exists e, pass = Failed e) -> unchanged).
Proof.
  cbv zeta. revert opNumber skipOps doc.
  induction ops as [|op ops IH]; intros opNumber skipOps doc.
  { split; [done|]. intros _ k Hk. simpl in Hk. lia. }
  simpl walkOps. destruct (opNumber <? skipOps)%nat eqn:Elt.
  - apply Nat.ltb_lt in Elt. destruct (IH (S opNumber) skipOps doc) as [IH1 IH2].
    replace (skipOps - opNumber)%nat with (S (skipOps - S opNumber)) by lia.
    simpl. split.
    + intros Hk. apply IH1. intros k Hlt. apply Hk. lia.
    + intros Hend k Hlt. apply (IH2 Hend). lia.
  - apply Nat.ltb_ge in Elt. replace (skipOps - opNumber)%nat with 0%nat by lia.
    destruct (applyOp op doc) as [doc' r] eqn:Eop.
    destruct (str_eqb (serialize doc') svgCode) eqn:Eser.
    + apply str_eqb_eq in Eser. destruct (IH (S opNumber) (S opNumber) doc') as [IH1 IH2].
      replace (S opNumber - S opNumber)%nat with 0%nat in IH1, IH2 by lia.
      split.
      * intros Hk. apply IH1. intros k Hlt. specialize (Hk (S k)).
        change (take (S (S k)) (drop 0 (op :: ops))) with (op :: take (S k) (drop 0 ops)) in Hk.
        rewrite applyAll_cons, Eop in Hk. apply Hk. simpl in *. lia.
      * intros Hend [|k] Hlt; simpl in Hlt.
        { change (take 1 (drop 0 (op :: ops))) with [op].
          rewrite applyAll_cons, Eop. done. }
        change (take (S (S k)) (drop 0 (op :: ops))) with (op :: take (S k) (drop 0 ops)).
        rewrite applyAll_cons, Eop. apply (IH2 Hend). simpl. lia.
    + split.
      * intros Hk. specialize (Hk 0%nat).
        change (take 1 (drop 0 (op :: ops))) with [op] in Hk.
        rewrite applyAll_cons, Eop in Hk.
        assert (Hs : str_eqb (serialize doc') svgCode = true).
        { apply str_eqb_eq, Hk. simpl. lia. }
        congruence.
      * destruct (fst (assertVisuallySame _ _ _ _ _)) as [[]|e|];
          intros [?|[? ?]]; done.
Qed.

(** A pass ends the outer loop of [unjunk] only by running the generator
    to its end, which happens exactly when every candidate from [skipOps]
    on, called in turn on the working document, leaves the markup as it
    is (the candidates before [skipOps] are not called).  The loop then
    ends as the generator does: [unjunk] goes on to return when the
    generator has returned, and the pass throws what the generator has
    thrown. *)
Theorem walkOps_exhausted `{Browser} (fuel : nat) (comparators : list Comparator)
    (lossless : bool) (ops : list CleaningOp) (finished : Outcome unit) (skipOps : nat)
    (doc : XMLDocument) (svgCode : jsstring) :
  let pass := walkOps fuel comparators lossless ops finished 0 skipOps doc svgCode in
  let unchanged :=
    forall k, (skipOps + k < length ops)%nat ->
      serialize (applyAll (take (S k) (drop skipOps ops)) doc) = svgCode in
  (pass = Exhausted <-> finished = Ok tt /\ unchanged)
  /\ (forall e, pass = Failed e <-> finished = Throw e /\ unchanged).
Proof.
  intros pass unchanged.
  pose proof (walkOps_end_from fuel comparators lossless ops finished 0 skipOps doc svgCode)
    as Hw.
  cbv zeta in Hw. rewrite Nat.sub_0_r in Hw. fold pass in Hw. destruct Hw as [Hfwd Hbwd].
  split; [|intros e]; split.
  - intros Hp. assert (Hu : unchanged) by exact (Hbwd (or_introl Hp)).
    split; [|done]. rewrite (Hfwd Hu) in Hp. simpl in Hp.
    by destruct finished as [[]| |].
  - intros [-> Hu]. by rewrite (Hfwd Hu).
  - intros Hp. assert (Hu : unchanged) by exact (Hbwd (or_intror (ex_intro _ e Hp))).
    split; [|done]. rewrite (Hfwd Hu) in Hp. simpl in Hp.
    destruct finished as [[]| |]; congruence.
  - intros [-> Hu]. by rewrite (Hfwd Hu).
Qed.

(** ** Scanning the restored markup again *)

Lemma span_exact (p : Z -> bool) (a : jsstring) (c : Z) (r : jsstring) :
  forallb p a = true -> p c = false -> span p (a ++ c :: r) = (a, c :: r).
Proof.
  intros Ha Hc. rewrite span_all by done. simpl. rewrite Hc. simpl.
  by rewrite app_nil_r.
Qed.

Lemma quote_not_space (q : Z) :
  (q =? ch_quot) || (q =? ch_apos) = true -> isSpace q = false /\ (q =? ch_eq) = false.
Proof. intros [->%Z.eqb_eq| ->%Z.eqb_eq]%orb_true_iff; done. Qed.

Lemma matchQuoted_inv (s : jsstring) (m : nat) :
  matchQuoted s = Some m ->
  exists sp q body s3,
    s = sp ++ q :: body ++ q :: s3
    /\ forallb isSpace sp = true
    /\ (q =? ch_quot) || (q =? ch_apos) = true
    /\ forallb (fun c => negb (c =? q)) body = true
    /\ m = (length sp + 1 + length body + 1)%nat.
Proof.
  unfold matchQuoted. destruct (span isSpace s) as [sp s1] eqn:E1.
  pose proof (span_forallb _ _ _ _ E1) as Hsp. apply span_app in E1 as ->.
  destruct s1 as [|q s2]; [done|].
  destruct ((q =? ch_quot) || (q =? ch_apos)) eqn:Eq; [|done].
  destruct (span _ s2) as [body s3] eqn:E2.
  pose proof (span_forallb _ _ _ _ E2) as Hbody.
  pose proof E2 as Hstop. apply span_app in E2 as ->.
  destruct s3 as [|q' s3]; [done|]. intros [= <-].
  apply span_stop in Hstop. apply negb_false_iff, Z.eqb_eq in Hstop. subst q'.
  by exists sp, q, body, s3.
Qed.

Lemma matchQuoted_intro (sp : jsstring) (q : Z) (body s3 : jsstring) :
  forallb isSpace sp = true ->
  (q =? ch_quot) || (q =? ch_apos) = true ->
  forallb (fun c => negb (c =? q)) body = true ->
  matchQuoted (sp ++ q :: body ++ q :: s3) = Some (length sp + 1 + length body + 1)%nat.
Proof.
  intros Hsp Hq Hbody. unfold matchQuoted.
  rewrite span_exact; [|done|by apply quote_not_space]. rewrite Hq.
  rewrite span_exact; [done|done|]. by rewrite Z.eqb_refl.
Qed.

Lemma take_whole_app {A} (a b : list A) (m : nat) : m = length a -> take m (a ++ b) = a.
Proof. intros ->. apply take_app_length. Qed.

(** What [matchQuoted] matches does not depend on what follows the
    match. *)
Lemma matchQuoted_context (s rest : jsstring) (m : nat) :
  matchQuoted s = Some m ->
  matchQuoted (take m s ++ rest) = Some m
  /\ matchEqQuoted (take m s ++ rest) = None.
Proof.
  intros (sp & q & body & s3 & -> & Hsp & Hq & Hbody & ->)%matchQuoted_inv.
  assert (Htake : take (length sp + 1 + length body + 1) (sp ++ q :: body ++ q :: s3)
                  = sp ++ q :: body ++ [q]).
  { replace (sp ++ q :: body ++ q :: s3) with ((sp ++ q :: body ++ [q]) ++ s3).
    - apply take_whole_app. rewrite length_app. simpl. rewrite length_app. simpl. lia.
    - rewrite <- app_assoc. simpl. by rewrite <- app_assoc. }
  rewrite Htake.
  replace ((sp ++ q :: body ++ [q]) ++ rest) with (sp ++ q :: body ++ q :: rest).
  2:{ rewrite <- app_assoc. simpl. by rewrite <- app_assoc. }
  split; [by apply matchQuoted_intro|].
  unfold matchEqQuoted. destruct (quote_not_space q Hq) as [Hs He].
  rewrite span_exact; [|done|done]. by rewrite He.
Qed.

Lemma matchEqQuoted_context (s rest : jsstring) (m : nat) :
  matchEqQuoted s = Some m -> matchEqQuoted (take m s ++ rest) = Some m.
Proof.
  unfold matchEqQuoted at 1. destruct (span isSpace s) as [sp s1] eqn:E1.
  pose proof (span_forallb _ _ _ _ E1) as Hsp. apply span_app in E1 as ->.
  destruct s1 as [|c s2]; [done|].
  destruct (c =? ch_eq) eqn:Ec; [|done]. apply Z.eqb_eq in Ec as ->.
  destruct (matchQuoted s2) as [n|] eqn:Eq; [|done]. intros [= <-].
  assert (Htake : take (length sp + 1 + n) (sp ++ ch_eq :: s2) = sp ++ ch_eq :: take n s2).
  { rewrite <- Nat.add_assoc, take_app_add'; [|done]. done. }
  rewrite Htake, <- app_assoc. simpl.
  unfold matchEqQuoted. rewrite span_exact; [|done|done]. rewrite Z.eqb_refl.
  by rewrite (proj1 (matchQuoted_context s2 rest n Eq)).
Qed.

Lemma take_head (s : jsstring) (c : Z) (r : jsstring) (m : nat) :
  s = c :: r -> (1 <= m)%nat -> exists t, take m s = c :: t.
Proof. intros -> Hm. destruct m as [|m]; [lia|]. by eexists. Qed.

Lemma matchQuoted_pos (s : jsstring) (m : nat) : matchQuoted s = Some m -> (1 <= m)%nat.
Proof. intros (sp & q & body & s3 & _ & _ & _ & _ & ->)%matchQuoted_inv. lia. Qed.

Lemma matchEqQuoted_pos (s : jsstring) (m : nat) : matchEqQuoted s = Some m -> (1 <= m)%nat.
Proof.
  unfold matchEqQuoted. destruct (span isSpace s) as [sp [|c s2]]; [done|].
  destruct (c =? ch_eq); [|done]. destruct (matchQuoted s2); [|done].
  intros [= <-]. lia.
Qed.

Lemma matchQuoted_nonempty (s : jsstring) (m : nat) : matchQuoted s = Some m -> s <> [].
Proof.
  intros (sp & q & body & s3 & -> & _)%matchQuoted_inv. by destruct sp.
Qed.

Lemma matchEqQuoted_nonempty (s : jsstring) (m : nat) : matchEqQuoted s = Some m -> s <> [].
Proof. intros Hm ->. done. Qed.

(** What [reAttr] matches at the head of a string does not depend on what
    follows the match. *)
Lemma matchAttr_context (s rest name : jsstring) (n : nat) :
  matchAttr s = Some (name, n) -> matchAttr (take n s ++ rest) = Some (name, n).
Proof.
  unfold matchAttr at 1.
  destruct (span isSpace s) as [ws s1] eqn:E1.
  destruct (span isAttrNameChar s1) as [run s2] eqn:E2.
  pose proof (span_forallb _ _ _ _ E1) as Hws.
  pose proof (span_forallb _ _ _ _ E2) as Hrun.
  pose proof E2 as Hstop.
  apply span_app in E1 as ->. apply span_app in E2 as ->.
  destruct ws as [|w ws]; [done|]. destruct run as [|r run]; [done|].
  assert (Hr : isSpace r = false).
  { simpl in Hrun. apply andb_true_iff in Hrun as [Hr _].
    unfold isAttrNameChar in Hr. apply negb_true_iff in Hr.
    by do 5 (apply orb_false_iff in Hr as [Hr _]). }
  assert (Htake : forall m, take (length (w :: ws) + length (r :: run) + m)
                                 ((w :: ws) ++ (r :: run) ++ s2)
                            = (w :: ws) ++ (r :: run) ++ take m s2).
  { intros m. rewrite <- Nat.add_assoc, take_app_add'; [|done].
    f_equal. by rewrite take_app_add'. }
  assert (Hgo : forall m, (1 <= m)%nat -> s2 <> [] ->
            span isSpace (((w :: ws) ++ (r :: run) ++ take m s2) ++ rest)
            = (w :: ws, (r :: run) ++ take m s2 ++ rest)
            /\ span isAttrNameChar ((r :: run) ++ take m s2 ++ rest)
               = (r :: run, take m s2 ++ rest)).
  { intros m Hm Hne. destruct s2 as [|c s2']; [done|].
    apply span_stop in Hstop.
    destruct (take_head (c :: s2') c s2' m eq_refl Hm) as [t Ht]. rewrite Ht.
    split.
    - rewrite <- !app_assoc. change ((r :: run) ++ ?x) with (r :: run ++ x).
      by apply span_exact.
    - change ((c :: t) ++ rest) with (c :: t ++ rest). by apply span_exact. }
  destruct (matchEqQuoted s2) as [m|] eqn:Em.
  - intros [= <- <-].
    change (S (length ws + S (length run) + m))
      with (length (w :: ws) + length (r :: run) + m)%nat.
    rewrite Htake.
    destruct (Hgo m (matchEqQuoted_pos _ _ Em) (matchEqQuoted_nonempty _ _ Em)) as [G1 G2].
    unfold matchAttr. rewrite G1, G2.
    by rewrite (matchEqQuoted_context s2 rest m Em).
  - destruct (last (r :: run)) as [c|] eqn:El; [|done].
    destruct (removelast (r :: run)) as [|x nm] eqn:Er; [done|].
    destruct (c =? ch_eq) eqn:Ec; [|done].
    destruct (matchQuoted s2) as [m|] eqn:Eq; [|done].
    intros Heq. cbn [fmap option_fmap option_map] in Heq. injection Heq as <- <-.
    change (S (length ws + S (length run) + m))
      with (length (w :: ws) + length (r :: run) + m)%nat.
    rewrite Htake.
    destruct (Hgo m (matchQuoted_pos _ _ Eq) (matchQuoted_nonempty _ _ Eq)) as [G1 G2].
    unfold matchAttr. rewrite G1, G2.
    destruct (matchQuoted_context s2 rest m Eq) as [Q1 Q2].
    by rewrite Q2, El, Er, Ec, Q1.
Qed.

Lemma relocate_names (pos : nat) (l : list PhysAttr) :
  pa_name <$> relocate pos l = pa_name <$> l.
Proof. revert pos. induction l as [|a l IH]; intros pos; simpl; [done|]. by rewrite IH. Qed.

Lemma relocate_raws (pos : nat) (l : list PhysAttr) :
  pa_raw <$> relocate pos l = pa_raw <$> l.
Proof. revert pos. induction l as [|a l IH]; intros pos; simpl; [done|]. by rewrite IH. Qed.

Lemma relocate_first (pos : nat) (l : list PhysAttr) (first : PhysAttr) :
  head (relocate pos l) = Some first -> pa_start first = pos.
Proof. destruct l; [done|]. by intros [= <-]. Qed.

Lemma relocate_last (pos : nat) (l : list PhysAttr) (final : PhysAttr) :
  last (relocate pos l) = Some final ->
  pa_end final = (pos + length (concat (pa_raw <$> l)))%nat.
Proof.
  revert pos. induction l as [|a l IH]; intros pos; [done|].
  simpl relocate. destruct l as [|b l].
  - simpl. intros [= <-]. simpl. rewrite app_nil_r. done.
  - rewrite last_cons. destruct (last (relocate _ (b :: l))) as [f|] eqn:El.
    + intros [= <-]. rewrite (IH _ El). rewrite (fmap_cons pa_raw a).
      change (concat (pa_raw a :: ?k)) with (pa_raw a ++ concat k).
      rewrite (length_app (pa_raw a)). lia.
    + simpl relocate in El. rewrite last_cons in El.
      by destruct (last (relocate (pos + length (pa_raw a) + length (pa_raw b)) l)).
Qed.

Lemma scanAttrs_matchesItself (fuel pos : nat) (s : jsstring) :
  Forall matchesItself (scanAttrs fuel pos s).
Proof.
  revert pos s. induction fuel as [|fuel IH]; intros pos s; [done|].
  destruct (matchAttr s) as [[name n]|] eqn:Em; [|by rewrite scanAttrs_None].
  rewrite (scanAttrs_Some _ _ _ _ _ Em). constructor; [|apply IH].
  intros rest. simpl.
  pose proof (matchAttr_inv _ _ _ Em) as [_ Hn].
  rewrite length_take, Nat.min_l by lia. by apply matchAttr_context.
Qed.

Lemma scanAttrs_bounded (fuel pos : nat) (s : jsstring) :
  (length (scanAttrs fuel pos s) <= fuel)%nat.
Proof.
  revert pos s. induction fuel as [|fuel IH]; intros pos s; [done|].
  destruct (matchAttr s) as [[name n]|] eqn:Em; [|rewrite scanAttrs_None; [simpl; lia|done]].
  rewrite (scanAttrs_Some _ _ _ _ _ Em). simpl. specialize (IH (pos + n)%nat (drop n s)). lia.
Qed.

(** With enough turns the scan ends where nothing more matches. *)
Lemma scanAttrs_complete (fuel pos : nat) (s : jsstring) :
  (length s <= fuel)%nat ->
  matchAttr (drop (length (concat (pa_raw <$> scanAttrs fuel pos s))) s) = None.
Proof.
  revert pos s. induction fuel as [|fuel IH]; intros pos s Hlen.
  { destruct s; [done|simpl in Hlen; lia]. }
  destruct (matchAttr s) as [[name n]|] eqn:Em; [|by rewrite scanAttrs_None].
  rewrite (scanAttrs_Some _ _ _ _ _ Em).
  pose proof (matchAttr_inv _ _ _ Em) as [_ Hn].
  rewrite fmap_cons. change (concat (?r :: ?k)) with (r ++ concat k).
  cbn [pa_raw]. rewrite length_app, length_take, Nat.min_l by lia.
  rewrite <- drop_drop. apply IH. rewrite length_drop. lia.
Qed.

(** Raw texts that match themselves, one after the other and followed by
    something that does not match, are scanned as they are. *)
Lemma scanAttrs_again (fuel pos : nat) (l : list PhysAttr) (after : jsstring) :
  Forall matchesItself l -> matchAttr after = None -> (length l <= fuel)%nat ->
  scanAttrs fuel pos (concat (pa_raw <$> l) ++ after) = relocate pos l.
Proof.
  intros Hall Hafter. revert fuel pos.
  induction Hall as [|a l Ha _ IH]; intros fuel pos Hlen.
  { simpl. by apply scanAttrs_None. }
  destruct fuel as [|fuel]; [simpl in Hlen; lia|].
  rewrite fmap_cons. change (concat (?r :: ?k)) with (r ++ concat k).
  rewrite <- app_assoc.
  rewrite (scanAttrs_Some _ _ _ _ _ (Ha _)).
  rewrite take_app_length, drop_app_length. simpl relocate. f_equal.
  apply IH. simpl in Hlen. lia.
Qed.

Lemma startsWith_nil (s : jsstring) : startsWith s [] = true.
Proof. by destruct s. Qed.

Lemma startsWith_app (b x p : jsstring) :
  (length p <= length b)%nat -> startsWith (b ++ x) p = startsWith b p.
Proof.
  revert b. induction p as [|c p IH]; intros b Hlen.
  { by rewrite !startsWith_nil. }
  destruct b as [|d b]; [simpl in Hlen; lia|]. simpl.
  rewrite IH; [done|]. simpl in Hlen. lia.
Qed.

(** The first occurrence of [p] in a string is where it is in any string
    with the same beginning, when it lies within that beginning. *)
Lemma indexOf_app_prefix (b x y p : jsstring) (i : nat) :
  indexOf (b ++ x) p = Some i -> (i + length p <= length b)%nat ->
  indexOf (b ++ y) p = Some i.
Proof.
  revert i. induction b as [|c b IH]; intros i.
  - simpl length. intros _ Hlen. assert (i = 0%nat) as -> by lia.
    destruct p; [|simpl in Hlen; lia]. rewrite indexOf_unfold. by rewrite startsWith_nil.
  - rewrite !(indexOf_unfold ((c :: b) ++ _)). intros Hi Hlen.
    rewrite !startsWith_app in * by lia.
    destruct (startsWith (c :: b) p); [done|].
    simpl in Hi |- *. destruct (indexOf (b ++ x) p) as [j|] eqn:Ej; [|done].
    injection Hi as <-. rewrite (IH j); [done|done|]. simpl in Hlen. lia.
Qed.

(** The parts of [fixAttrOrder]: what is before the first attribute, the
    attributes, what is after the last. *)
Lemma fixAttrOrder_parts (svgCode : jsstring) (originalAttrs : list PhysAttr) (start : nat) :
  indexOf svgCode (js "<svg") = Some start -> getAttrs svgCode <> [] ->
  let from := (start + 4)%nat in
  let total := length (concat (pa_raw <$> getAttrs svgCode)) in
  let before := take from svgCode in
  let after := drop (from + total) svgCode in
  length before = from
  /\ svgCode = before ++ concat (pa_raw <$> getAttrs svgCode) ++ after
  /\ fixAttrOrder svgCode originalAttrs
     = before ++ concat (pa_raw <$> reorderAttrs (getAttrs svgCode) originalAttrs) ++ after
  /\ matchAttr after = None.
Proof.
  intros Hi Hne. cbv zeta. unfold fixAttrOrder. unfold getAttrs in *. rewrite Hi in *.
  set (from := (start + 4)%nat) in *.
  pose proof (scanAttrs_fragments (length svgCode) from (drop from svgCode)) as Hfr.
  pose proof (scanAttrs_complete (length svgCode) from (drop from svgCode)) as Hend.
  cbv zeta in Hfr. destruct Hfr as (Hcat & Htot & _ & Hfirst & Hlast).
  set (attrs := scanAttrs (length svgCode) from (drop from svgCode)) in *.
  set (total := length (concat (pa_raw <$> attrs))) in *.
  assert (Hfrom : (from <= length svgCode)%nat).
  { destruct (decide (from <= length svgCode)%nat) as [|Hgt]; [done|].
    exfalso. apply Hne. unfold attrs. rewrite drop_ge by lia.
    destruct (length svgCode); done. }
  destruct attrs as [|first rest] eqn:Eattrs; [done|].
  destruct (last (first :: rest)) as [final|] eqn:El.
  2:{ rewrite last_cons in El. by destruct (last rest). }
  rewrite (Hfirst first eq_refl), (Hlast final eq_refl).
  split; [rewrite length_take; lia|]. split; [|split; [done|]].
  - rewrite Hcat. rewrite <- drop_drop. rewrite take_drop. by rewrite take_drop.
  - rewrite <- drop_drop. apply Hend. rewrite length_drop. lia.
Qed.

(** ** Restoring twice *)

Lemma setOrder_names (base : nat) (l1 l2 : list PhysAttr) (i : nat) (m : gmap jsstring nat) :
  pa_name <$> l1 = pa_name <$> l2 -> setOrder base l1 i m = setOrder base l2 i m.
Proof.
  revert l2 i m. induction l1 as [|a l1 IH]; intros [|b l2] i m Hn; try done.
  injection Hn as Hab Hn. simpl. rewrite Hab. by apply IH.
Qed.

Lemma attrOrder_names (l1 l2 originalAttrs : list PhysAttr) :
  pa_name <$> l1 = pa_name <$> l2 -> attrOrder l1 originalAttrs = attrOrder l2 originalAttrs.
Proof.
  intros Hn. unfold attrOrder.
  assert (length l1 = length l2) as ->.
  { apply (f_equal length) in Hn. by rewrite !length_fmap in Hn. }
  by rewrite (setOrder_names 0 l1 l2).
Qed.

Lemma StronglySorted_names (k : jsstring -> nat) (l1 l2 : list PhysAttr) :
  pa_name <$> l1 = pa_name <$> l2 ->
  StronglySorted (fun a b => k (pa_name a) <= k (pa_name b))%nat l1 ->
  StronglySorted (fun a b => k (pa_name a) <= k (pa_name b))%nat l2.
Proof.
  intros Hn Hs. revert l2 Hn.
  induction Hs as [|a l1 Hs IH Hall]; intros [|b l2] Hn; try done; [constructor|].
  injection Hn as Hab Hn. constructor; [by apply IH|].
  rewrite <- Hab. clear IH Hs Hab. revert l2 Hn.
  induction Hall as [|c l1 Hc _ IH]; intros [|d l2] Hn; try done.
  injection Hn as Hcd Hn. constructor; [by rewrite <- Hcd|by apply IH].
Qed.

(** The restored attributes are in order for a second pass as well. *)
Lemma reorderAttrs_sorted_again (newAttrs originalAttrs : list PhysAttr) :
  NoDup (pa_name <$> newAttrs) ->
  let restored := reorderAttrs newAttrs originalAttrs in
  StronglySorted (fun a b => orderOf (attrOrder restored originalAttrs) a
                             <= orderOf (attrOrder restored originalAttrs) b)%nat restored.
Proof.
  intros Hnd restored.
  set (key := orderOf (attrOrder newAttrs originalAttrs)).
  set (key' := orderOf (attrOrder restored originalAttrs)).
  set (news := stableSort key (List.filter (fun a => negb (inOriginal originalAttrs a)) newAttrs)).
  set (olds := stableSort key (List.filter (inOriginal originalAttrs) newAttrs)).
  assert (Hsplit : restored = news ++ olds) by apply reorderAttrs_split.
  assert (Hperm : restored ≡ₚ newAttrs) by apply reorderAttrs_Permutation.
  assert (Hnd' : NoDup (pa_name <$> restored)) by by rewrite Hperm.
  assert (Hlen : length restored = length newAttrs) by by rewrite Hperm.
  assert (Hnew : forall a, a ∈ news -> originalPosition originalAttrs a = None).
  { intros a Ha. unfold news in Ha. rewrite stableSort_Permutation in Ha.
    apply list_elem_of_In, filter_In in Ha as [_ Ha].
    by apply negb_true_iff, originalPosition_inOriginal in Ha. }
  assert (Hold : forall a, a ∈ olds -> exists j, originalPosition originalAttrs a = Some j).
  { intros a Ha. unfold olds in Ha. rewrite stableSort_Permutation in Ha.
    apply list_elem_of_In, filter_In in Ha as [_ Ha].
    unfold inOriginal in Ha. by apply bool_decide_eq_true in Ha. }
  rewrite Hsplit at 1. apply StronglySorted_app_2.
  - intros a b Ha Hb. unfold key'. rewrite !orderOf_attrOrder.
    rewrite (Hnew a Ha). destruct (Hold b Hb) as [j ->].
    destruct (lastIndex (pa_name a) (pa_name <$> restored)) as [i|] eqn:Ei; simpl; [|lia].
    apply lastIndex_lt in Ei. rewrite length_fmap in Ei. lia.
  - apply (StronglySorted_weaken (fun a b => key' a < key' b)%nat); [intros; lia|].
    apply (StronglySorted_by_index key' 0). intros i x Hi.
    unfold key'. rewrite orderOf_attrOrder.
    rewrite (Hnew x); [|by eapply list_elem_of_lookup_2].
    rewrite (lastIndex_NoDup _ i); [done|done|].
    rewrite list_lookup_fmap, Hsplit, lookup_app_l; [by rewrite Hi|].
    by eapply lookup_lt_Some.
  - apply (StronglySorted_weaken (fun a b => key a <= key b)%nat);
      [|apply stableSort_sorted].
    intros a b Ha Hb Hle. unfold key, key' in *. rewrite !orderOf_attrOrder in *.
    destruct (Hold a Ha) as [i Hi], (Hold b Hb) as [j Hj].
    rewrite Hi, Hj in *. lia.
Qed.

(** Restoring the order twice is restoring it once: on a markup whose
    scanned attribute names are distinct, a second [fixAttrOrder] against
    the same original attributes finds the attributes where the first
    pass put them and leaves the markup as it is. *)
Theorem fixAttrOrder_idempotent (svgCode : jsstring) (originalAttrs : list PhysAttr) :
  NoDup (pa_name <$> getAttrs svgCode) ->
  fixAttrOrder (fixAttrOrder svgCode originalAttrs) originalAttrs
  = fixAttrOrder svgCode originalAttrs.
Proof.
  intros Hnd. destruct (decide (getAttrs svgCode = [])) as [Hnil|Hne].
  { unfold fixAttrOrder at 2 3. rewrite Hnil. unfold fixAttrOrder. by rewrite Hnil. }
  destruct (indexOf svgCode (js "<svg")) as [start|] eqn:Ei.
  2:{ exfalso. apply Hne. unfold getAttrs. by rewrite Ei. }
  destruct (fixAttrOrder_parts svgCode originalAttrs start Ei Hne)
    as (Hlen & Hs & Hfix & Hafter).
  set (from := (start + 4)%nat) in *.
  set (attrs := getAttrs svgCode) in *.
  set (before := take from svgCode) in *.
  set (after := drop (from + length (concat (pa_raw <$> attrs))) svgCode) in *.
  set (restored := reorderAttrs attrs originalAttrs) in *.
  set (svgCode' := fixAttrOrder svgCode originalAttrs) in *.
  assert (Hperm : restored ≡ₚ attrs) by apply reorderAttrs_Permutation.
  (* the second scan *)
  assert (Hi' : indexOf svgCode' (js "<svg") = Some start).
  { rewrite Hfix. apply (indexOf_app_prefix before (concat (pa_raw <$> attrs) ++ after)).
    - by rewrite <- Hs.
    - rewrite Hlen. unfold from. simpl. lia. }
  assert (Hscan : getAttrs svgCode' = relocate from restored).
  { unfold getAttrs. rewrite Hi'. fold from.
    rewrite Hfix at 2. rewrite drop_app_length' by done.
    apply scanAttrs_again; [|done|].
    - rewrite Hperm. unfold attrs, getAttrs. rewrite Ei. apply scanAttrs_matchesItself.
    - assert (Hsame : length svgCode' = length svgCode).
      { rewrite Hfix.
        transitivity (length (before ++ concat (pa_raw <$> attrs) ++ after));
          [|by rewrite <- Hs].
        rewrite !length_app. do 2 f_equal.
        apply Permutation_length, concat_Permutation, fmap_Permutation, Hperm. }
      rewrite Hperm, Hsame. unfold attrs, getAttrs. rewrite Ei.
      apply scanAttrs_bounded. }
  assert (Hne' : getAttrs svgCode' <> []).
  { rewrite Hscan. intros Hr. apply Hne. apply Permutation_nil_r. rewrite <- Hperm.
    destruct restored; [done|discriminate Hr]. }
  destruct (fixAttrOrder_parts svgCode' originalAttrs start Hi' Hne')
    as (Hlen' & Hs' & Hfix' & _).
  rewrite Hfix'. rewrite Hscan, relocate_raws.
  fold from.
  assert (Hbefore : take from svgCode' = before).
  { rewrite Hfix. by rewrite take_app_length'. }
  assert (Hafter' : drop (from + length (concat (pa_raw <$> restored))) svgCode' = after).
  { rewrite Hfix at 1. rewrite drop_app_add' by done. by rewrite drop_app_length. }
  rewrite Hbefore, Hafter'. rewrite Hfix. do 3 f_equal.
  (* the second sort *)
  rewrite <- (relocate_raws from restored). f_equal.
  unfold reorderAttrs at 1. apply stableSort_id.
  rewrite (attrOrder_names (relocate from restored) restored) by apply relocate_names.
  pose proof (reorderAttrs_sorted_again attrs originalAttrs Hnd) as Hsorted.
  cbv zeta in Hsorted. fold restored in Hsorted.
  unfold orderOf in *.
  apply (StronglySorted_names
           (fun name => default 0%nat (attrOrder restored originalAttrs !! name)) restored);
    [by rewrite relocate_names|done].
Qed.

Lemma fixAttrOrder_idempotent_witness :
  fixAttrOrder (fixAttrOrder orderOutput (getAttrs orderOriginal)) (getAttrs orderOriginal)
  = fixAttrOrder orderOutput (getAttrs orderOriginal).
Proof.
  apply fixAttrOrder_idempotent. apply (bool_decide_unpack _). vm_compute. exact I.
Defined.

(** ** Strict and lenient validation *)

Lemma checkComparator_strict_ok `{Browser} (fuel : nat) (a b : jsstring) (c : Comparator)
    (lossless : bool) :
  fst (checkComparator fuel a b true c) = Ok tt ->
  checkComparator fuel a b lossless c = checkComparator fuel a b true c.
Proof.
  unfold checkComparator.
  destruct (compare fuel c a b 1) as [s1| |]; try done.
  by destruct (s1 <=? 0)%float.
Qed.

(** A candidate that passes the strict check passes the lenient one, with
    the same calls of [compare]: the [lossless] option and the
    [forceLossless] of an op can only turn an acceptance into a
    rejection, never a rejection into an acceptance. *)
Theorem assertVisuallySame_strict_accepts `{Browser} (fuel : nat) (a b : jsstring)
    (comparators : list Comparator) (lossless : bool) :
  fst (assertVisuallySame fuel a b comparators true) = Ok tt ->
  assertVisuallySame fuel a b comparators lossless
  = assertVisuallySame fuel a b comparators true.
Proof.
  induction comparators as [|c rest IH]; [done|].
  simpl. destruct (checkComparator fuel a b true c) as [r calls] eqn:Ec.
  destruct r as [[]|e|]; try done.
  rewrite (checkComparator_strict_ok fuel a b c lossless), Ec by (by rewrite Ec).
  destruct (assertVisuallySame fuel a b rest true) as [r' calls'] eqn:Er.
  simpl. intros ->. by rewrite IH.
Qed.

Lemma assertVisuallySame_strict_accepts_witness :
  fst (@assertVisuallySame Toy.browser 3 rectPlain rectPlain
         [DefaultImageComparator 2; RecoloredImageComparator 2] false) = Ok tt.
Proof.
  rewrite (@assertVisuallySame_strict_accepts Toy.browser); vm_compute; reflexivity.
Defined.

(** ** The rasteriser cache *)

Lemma rasterizerFor_sound `{Browser} (fuel : nat) (c : Comparator)
    (cache : list (jsstring * jsstring)) (svgCode : jsstring) :
  cacheSound fuel c cache ->
  rasterizerFor fuel c cache svgCode = transformCode fuel c svgCode.
Proof.
  intros Hs. unfold rasterizerFor, cacheGet.
  destruct (List.find _ cache) as [[k r]|] eqn:Ef; [|done]. simpl.
  apply find_some in Ef as [Hin Hk]. simpl in Hk. apply str_eqb_eq in Hk as ->.
  symmetry. by apply Hs, list_elem_of_In.
Qed.

(** The cache of a comparator changes no result and stays small: when
    every rasteriser in it was made from the transformed markup of its
    key, [compare] returns or throws what it would without a cache, the
    cache after the call is again such a cache, and it is the cache
    before the call (when the call failed before both images were there)
    or has at most two entries. *)
Theorem compareCached_transparent `{Browser}
    (getImageData : jsstring -> float -> option ImageData)
    (hypot : float -> float -> float -> float)
    (fuel : nat) (c : Comparator) (cache : list (jsstring * jsstring))
    (svgCodeA svgCodeB : jsstring) (scale : float) :
  rasterisesWith getImageData hypot -> cacheSound fuel c cache ->
  let result := compareCached getImageData hypot fuel c cache svgCodeA svgCodeB scale in
  fst result = compare fuel c svgCodeA svgCodeB scale
  /\ cacheSound fuel c (snd result)
  /\ (snd result = cache \/ (length (snd result) <= 2)%nat).
Proof.
  intros Hr Hs. cbv zeta. unfold compareCached, compare.
  rewrite !rasterizerFor_sound by done.
  destruct (transformCode fuel c svgCodeA) as [rA| |] eqn:EA; simpl; [|by auto..].
  destruct (transformCode fuel c svgCodeB) as [rB| |] eqn:EB; simpl; [|by auto..].
  rewrite Hr.
  destruct (getImageData rA _) as [iA|]; [|by auto].
  destruct (getImageData rB _) as [iB|]; [|by auto].
  simpl. split; [by destruct (compareImageData hypot iA iB)|]. split.
  - intros k r Hin. destruct (str_eqb svgCodeA svgCodeB).
    + apply list_elem_of_singleton in Hin. by injection Hin as -> ->.
    + repeat (apply elem_of_cons in Hin as [Hin|Hin]); try (by injection Hin as -> ->).
      by apply elem_of_nil in Hin.
  - right. destruct (str_eqb svgCodeA svgCodeB); simpl; lia.
Qed.

Lemma compareCached_transparent_witness :
  let getImageData := fun (_ : jsstring) (_ : float) => Some (mkImageData 1 1 [1; 2; 3; 255]) in
  let result := @compareCached (imageBrowser getImageData) getImageData naiveHypot 3
                  (DefaultImageComparator 2) [] rectPlain rectRed 1 in
  fst result = @compare (imageBrowser getImageData) 3 (DefaultImageComparator 2)
                 rectPlain rectRed 1
  /\ length (snd result) = 2%nat.
Proof.
  intros getImageData result.
  destruct (@compareCached_transparent (imageBrowser getImageData) getImageData naiveHypot 3
              (DefaultImageComparator 2) [] rectPlain rectRed 1) as (Hres & _ & _).
  - intros a b scale. reflexivity.
  - intros k r Hin. by apply elem_of_nil in Hin.
  - split; [exact Hres|]. vm_compute. reflexivity.
Defined.

(** ** The normal form of the test script *)

Lemma collapseSpaces_idempotent (inRun : bool) (s : jsstring) :
  collapseSpaces inRun (collapseSpaces inRun s) = collapseSpaces inRun s.
Proof.
  revert inRun. induction s as [|c s IH]; intros inRun; [done|]. simpl.
  destruct (isSpace c) eqn:Ec.
  - destruct inRun; [apply IH|].
    change (collapseSpaces false (32 :: ?r)) with (32 :: collapseSpaces true r).
    by rewrite IH.
  - simpl. rewrite Ec. by rewrite IH.
Qed.

Lemma collapseSpaces_head (s : jsstring) :
  trimmedHead s -> trimmedHead (collapseSpaces false s).
Proof. destruct s as [|c s]; [done|]. simpl. intros Hc. rewrite Hc. exact Hc. Qed.

Lemma collapseSpaces_last (inRun : bool) (s : jsstring) (z : Z) :
  last s = Some z -> isSpace z = false -> last (collapseSpaces inRun s) = Some z.
Proof.
  revert inRun. induction s as [|c s IH]; intros inRun; [done|].
  destruct s as [|d s].
  - simpl. intros [= ->] ->. done.
  - rewrite last_cons_cons. intros Hl Hz.
    change (collapseSpaces inRun (c :: d :: s))
      with (if isSpace c
            then if inRun then collapseSpaces true (d :: s)
                 else 32 :: collapseSpaces true (d :: s)
            else c :: collapseSpaces false (d :: s)).
    destruct (isSpace c); [destruct inRun|].
    + by apply IH.
    + rewrite last_cons. by rewrite (IH true Hl Hz).
    + rewrite last_cons. by rewrite (IH false Hl Hz).
Qed.

Lemma trimmedHead_reverse_last (s : jsstring) :
  trimmedHead (reverse s)
  <-> match last s with
      | Some z => isSpace z = false
      | None => True
      end.
Proof.
  rewrite <- head_reverse. destruct (reverse s); simpl; tauto.
Qed.

Lemma trimEnd_fixed (s : jsstring) : trimmedHead (reverse s) -> trimEnd s = s.
Proof.
  intros Hh. unfold trimEnd. rewrite trimStart_trimmedHead by done.
  apply reverse_involutive.
Qed.

Lemma trim_trimmed (s : jsstring) : trimmedHead (trim s) /\ trimmedHead (reverse (trim s)).
Proof.
  split.
  - unfold trim. destruct (trimEnd_prefix (trimStart s)) as [b Hb].
    eapply trimmedHead_prefix; [exact Hb|]. apply trimmedHead_trimStart.
  - unfold trim, trimEnd. rewrite reverse_involutive. apply trimmedHead_trimStart.
Qed.

Lemma normalizeText_idempotent (s : jsstring) :
  normalizeText (normalizeText s) = normalizeText s.
Proof.
  unfold normalizeText at 1.
  destruct (trim_trimmed s) as [Hh He].
  assert (Htrim : trim (normalizeText s) = normalizeText s).
  { unfold trim. unfold normalizeText.
    rewrite trimStart_trimmedHead by by apply collapseSpaces_head.
    apply trimEnd_fixed. apply trimmedHead_reverse_last.
    apply trimmedHead_reverse_last in He.
    destruct (last (trim s)) as [z|] eqn:El.
    - by rewrite (collapseSpaces_last false _ z El He).
    - assert (trim s = []) as ->; [|done].
      destruct (trim s) as [|x l] using rev_ind; [done|]. by rewrite last_snoc in El. }
  rewrite Htrim. apply collapseSpaces_idempotent.
Qed.

(** Removing the indentation twice is removing it once: [removeWs] brings
    every text node to a form it does not change any more (white space
    cut off at both ends, every run of white space inside replaced by
    one space); it changes neither the identity nor the attributes of a
    node. *)
Theorem removeWs_idempotent (n : Node) :
  removeWs (removeWs n) = removeWs n
  /\ node_id (removeWs n) = node_id n
  /\ node_attributes (removeWs n) = node_attributes n.
Proof.
  split; [|by destruct n as [| id t d]; simpl; [|destruct (_ && _)]].
  induction n as [id nm ns attrs ch IH|id t d] using Node_tree_ind.
  - simpl. f_equal. rewrite List.map_map.
    induction IH as [|c ch Hc _ IHch]; [done|]. simpl. by rewrite Hc, IHch.
  - simpl. destruct ((t =? 3) && negb (isEmpty d)) eqn:E; simpl; [|by rewrite E].
    apply andb_true_iff in E as [-> _]. simpl.
    destruct (normalizeText d) as [|x r] eqn:En; [done|]. simpl.
    by rewrite <- En, normalizeText_idempotent.
Qed.
